(** * RuleBasedPCG: cellular automata and drunk agent map generation

    A shallow embedding of [src/RuleBasedPCG.cpp].  The file holds two copies
    of the program: lines 1-222 (the finished one, whose [cellularAutomata]
    writes into a copy of the grid) and lines 223-447 (the earlier one, whose
    [cellularAutomata] overwrites the grid it is reading).  [drunkAgent] is the
    same text in both.

    Conventions of the embedding:
    - [int] is a 32-bit two's complement integer: a [Z] with the wrap-around
      written out at every arithmetic operation ([Int.add], [Int.mul], ...);
    - [std::vector] is a list; indexing outside the vector, which is undefined
      behaviour in C++, makes the computation stop with [Fault];
    - every [for] loop runs on fuel and stops with [OutOfFuel] when it is
      exhausted, so that a loop that never exits is not given a result;
    - [double] is an abstract type with the operations the program uses
      (class [Double]), and IEEE 754 binary64 (primitive floats, instance
      [float_Double]) where a property depends on how doubles round;
    - the random engine and the distributions are an abstract state machine
      (class [RandomSource]); the reading of the clock that seeds an engine is
      an explicit argument [seed]. *)

From Stdlib Require Import ZArith Lia Bool List Floats.
From stdpp Require Import base list numbers.
From Stdlib Require Ascii String DecimalString DecimalZ DecimalPos.
Import ListNotations.
Open Scope Z_scope.

(** ** 32-bit integers *)

Module Int.
Definition min_int : Z := -2147483648.
Definition max_int : Z := 2147483647.
Definition modulus : Z := 4294967296.

Definition in_range (z : Z) : Prop := min_int <= z <= max_int.

(** The representative of [z] modulo [2^32] in [[-2^31, 2^31)]. *)
Definition wrap (z : Z) : Z := (z + 2147483648) mod modulus - 2147483648.

Definition add (a b : Z) : Z := wrap (a + b).
Definition sub (a b : Z) : Z := wrap (a - b).
Definition mul (a b : Z) : Z := wrap (a * b).
Definition neg (a : Z) : Z := wrap (- a).
(** C++ integer division truncates towards zero. *)
Definition div (a b : Z) : Z := wrap (Z.quot a b).
End Int.

(** ** Results of a computation *)

Inductive res (A : Type) : Type :=
  | Done (a : A)   (* the code ran to its end *)
  | Fault          (* a vector was indexed out of its range *)
  | OutOfFuel.       (* the fuel ran out *)
Arguments Done {A} a.
Arguments Fault {A}.
Arguments OutOfFuel {A}.

Definition bind {A B : Type} (m : res A) (k : A -> res B) : res B :=
  match m with
  | Done a => k a
  | Fault => Fault
  | OutOfFuel => OutOfFuel
  end.

Notation "x <- m ;; k" := (bind m (fun x => k))
  (at level 20, m at level 99, k at level 200, only parsing).
Notation "' pat <- m ;; k" := (bind m (fun x => match x with pat => k end))
  (at level 20, pat pattern, m at level 99, k at level 200, only parsing).

(** ** Loops *)

(** [for (int i = i0; cond(i); ++i) body], the state of the body threaded
    through; [++i] wraps around like every [int] operation. *)
Fixpoint for_loop {St : Type} (fuel : nat) (cond : Z -> bool)
    (body : Z -> St -> res St) (i : Z) (s : St) : res St :=
  match fuel with
  | O => OutOfFuel
  | S fuel' =>
      if cond i then s' <- body i s ;; for_loop fuel' cond body (Int.add i 1) s'
      else Done s
  end.

(** The same loop over the list of the values its counter takes. *)
Fixpoint foldM {St : Type} (body : Z -> St -> res St) (l : list Z) (s : St)
    : res St :=
  match l with
  | [] => Done s
  | i :: l' => s' <- body i s ;; foldM body l' s'
  end.

(** ** Vectors and the grid *)

Abbreviation Map := (list (list Z)).

(** [v[i]], read. *)
Definition index {A : Type} (v : list A) (i : Z) : res A :=
  if i <? 0 then Fault
  else match v !! Z.to_nat i with
       | Some a => Done a
       | None => Fault
       end.

(** [v[i] = a]. *)
Definition assign {A : Type} (v : list A) (i : Z) (a : A) : res (list A) :=
  if (0 <=? i) && (i <? Z.of_nat (length v)) then Done (<[Z.to_nat i := a]> v)
  else Fault.

(** [m[i][j]], read. *)
Definition get (m : Map) (i j : Z) : res Z :=
  row <- index m i ;; index row j.

(** [m[i][j] = v]. *)
Definition set (m : Map) (i j v : Z) : res Map :=
  row <- index m i ;; row' <- assign row j v ;; assign m i row'.

(** A grid of [H] rows of [W] columns each. *)
Definition grid_shape (m : Map) (H W : Z) : Prop :=
  Z.of_nat (length m) = H /\ Forall (fun row => Z.of_nat (length row) = W) m.

Definition in_bounds (H W : Z) (p : Z * Z) : Prop :=
  0 <= fst p < H /\ 0 <= snd p < W.

(** ** Doubles and random numbers *)

(** The operations on [double] the program uses: the conversion of an [int],
    [/], [+] and [<] ([a > b] is [dlt b a]). *)
Class Double (D : Type) : Type := {
  of_int : Z -> D;
  ddiv : D -> D -> D;
  dadd : D -> D -> D;
  dlt : D -> D -> bool
}.

(** [std::mt19937] with [std::uniform_int_distribution<>(a, b)] and
    [std::uniform_real_distribution<>(a, b)]: a draw returns a value and the
    next state of the engine.  An integer draw lies in [[a, b]], as the
    library specifies. *)
Class RandomSource (G D : Type) : Type := {
  mt19937 : Z -> G;
  uniform_int : Z -> Z -> G -> Z * G;
  uniform_real : D -> D -> G -> D * G;
  uniform_int_range : forall a b g, a <= b -> a <= fst (uniform_int a b g) <= b
}.

Section Program.

Context {D G : Type} {double_ops : Double D} {random : RandomSource G D}.

(** ** cellularAutomata *)

(** Lines 43-52 (and 265-275): the sum of the cells of [currentMap] in the
    window of radius [R] around [(i, j)] that lie inside the grid. *)
Definition countOnes (fuel : nat) (currentMap : Map) (W H R i j : Z) : res Z :=
  for_loop fuel (fun di => di <=? R) (fun di countOnes =>
    for_loop fuel (fun dj => dj <=? R) (fun dj countOnes =>
      let ni := Int.add i di in
      let nj := Int.add j dj in
      if (0 <=? ni) && (ni <? H) && (0 <=? nj) && (nj <? W) then
        v <- get currentMap ni nj ;; Done (Int.add countOnes v)
      else Done countOnes)
      (Int.neg R) countOnes)
    (Int.neg R) 0.

(** Lines 54-55 (and 277-278): the new value of a cell. *)
Definition applyRule (countOnes R : Z) (U : D) : Z :=
  let neighborRatio :=
    ddiv (of_int countOnes)
         (of_int (Int.mul (Int.add (Int.mul 2 R) 1) (Int.add (Int.mul 2 R) 1))) in
  if dlt U neighborRatio then 1 else 0.

(** Lines 34-60, the first copy: the cells are read from [currentMap] and
    written into [newMap], a copy of it. *)
Definition cellularAutomata (fuel : nat) (seed : Z) (currentMap : Map)
    (W H R : Z) (U : D) : res Map :=
  let newMap := currentMap in
  let gen : G := mt19937 seed in
  for_loop fuel (fun i => i <? H) (fun i newMap =>
    for_loop fuel (fun j => j <? W) (fun j newMap =>
      c <- countOnes fuel currentMap W H R i j ;;
      set newMap i j (applyRule c R U))
      0 newMap)
    0 newMap.

(** Lines 257-283, the second copy: the cells are read from and written into
    the one grid [currentMap], which is also what is returned. *)
Definition cellularAutomata_inplace (fuel : nat) (seed : Z) (currentMap : Map)
    (W H R : Z) (U : D) : res Map :=
  let gen : G := mt19937 seed in
  for_loop fuel (fun i => i <? H) (fun i currentMap =>
    for_loop fuel (fun j => j <? W) (fun j currentMap =>
      c <- countOnes fuel currentMap W H R i j ;;
      set currentMap i j (applyRule c R U))
      0 currentMap)
    0 currentMap.

(** ** drunkAgent *)

(** What one step of the agent did; the model keeps these records in a log
    that the code never reads. *)
Record step_log : Type := {
  at_pos : Z * Z;            (* the position of the agent when the step starts *)
  direction : Z;             (* [currentDirection] when the step starts *)
  written : list (Z * Z);    (* the indices written in [newMap], in order *)
  room_fired : bool;         (* the room roll succeeded *)
  probRoom_before : D;
  probRoom_after : D;
  change_fired : bool;       (* the direction-change roll succeeded *)
  bounced : bool;            (* the next position was outside the grid *)
  probChange_before : D;
  probChange_after : D;
  to_pos : Z * Z             (* the position of the agent when the step ends *)
}.

(** The variables of [drunkAgent] that live across its walks, and the log. *)
Record agent : Type := {
  newMap : Map;
  agentX : Z;
  agentY : Z;
  gen : G;
  currentProbRoom : D;
  currentProbChange : D;
  log : list step_log
}.

(** Line 92. *)
Definition directions : list (Z * Z) := [(-1, 0); (1, 0); (0, -1); (0, 1)].

Definition distDirection : G -> Z * G := uniform_int 0 3.
Definition distProb : G -> D * G := uniform_real (of_int 0) (of_int 1).

Section DrunkAgent.

Variables (W H J I roomSizeX roomSizeY : Z).
Variables (probGenerateRoom probIncreaseRoom : D).
Variables (probChangeDirection probIncreaseChange : D).

(** Lines 104-114: the room around [(x0, y0)], clamped to the grid. *)
Definition carveRoom (fuel : nat) (x0 y0 : Z) (s : Map * list (Z * Z))
    : res (Map * list (Z * Z)) :=
  let halfX := Int.div roomSizeX 2 in
  let halfY := Int.div roomSizeY 2 in
  let startX := Z.max 0 (Int.sub x0 halfX) in
  let endX := Z.min (Int.sub H 1) (Int.add x0 halfX) in
  let startY := Z.max 0 (Int.sub y0 halfY) in
  let endY := Z.min (Int.sub W 1) (Int.add y0 halfY) in
  for_loop fuel (fun x => x <=? endX) (fun x s =>
    for_loop fuel (fun y => y <=? endY) (fun y '(m, w) =>
      m' <- set m x y 1 ;; Done (m', w ++ [(x, y)]))
      startY s)
    startX s.

(** Lines 99-141: the body of the inner loop. *)
Definition agentStep (fuel : nat) (st : Z * agent) : res (Z * agent) :=
  let '(currentDirection, a) := st in
  let x0 := agentX a in
  let y0 := agentY a in
  m <- set (newMap a) x0 y0 1 ;;
  let '(roll, g) := distProb (gen a) in
  '(m, w, probRoom, fired) <-
    (if dlt roll (currentProbRoom a) then
       '(m, w) <- carveRoom fuel x0 y0 (m, [(x0, y0)]) ;;
       Done (m, w, probGenerateRoom, true)
     else
       Done (m, [(x0, y0)], dadd (currentProbRoom a) probIncreaseRoom, false)) ;;
  let '(roll, g) := distProb g in
  let '(dir, g, probChange, changed) :=
    if dlt roll (currentProbChange a) then
      let '(d, g) := distDirection g in (d, g, probChangeDirection, true)
    else
      (currentDirection, g, dadd (currentProbChange a) probIncreaseChange, false) in
  '(dx, dy) <- index directions dir ;;
  let nextX := Int.add x0 dx in
  let nextY := Int.add y0 dy in
  let inside := (0 <=? nextX) && (nextX <? H) && (0 <=? nextY) && (nextY <? W) in
  let '(x1, y1, dir, g, probChange) :=
    if inside then (nextX, nextY, dir, g, probChange)
    else let '(d, g) := distDirection g in (x0, y0, d, g, probChangeDirection) in
  Done (dir,
        {| newMap := m; agentX := x1; agentY := y1; gen := g;
           currentProbRoom := probRoom; currentProbChange := probChange;
           log := log a ++
             [{| at_pos := (x0, y0); direction := currentDirection;
                 written := w; room_fired := fired;
                 probRoom_before := currentProbRoom a;
                 probRoom_after := probRoom;
                 change_fired := changed; bounced := negb inside;
                 probChange_before := currentProbChange a;
                 probChange_after := probChange;
                 to_pos := (x1, y1) |}] |}).

(** Lines 96-143: a walk draws its direction, then takes [I] steps. *)
Definition agentWalk (fuel : nat) (a : agent) : res agent :=
  let '(currentDirection, g) := distDirection (gen a) in
  let a := {| newMap := newMap a; agentX := agentX a; agentY := agentY a;
              gen := g; currentProbRoom := currentProbRoom a;
              currentProbChange := currentProbChange a; log := log a |} in
  '(_, a) <- for_loop fuel (fun step => step <? I) (fun _ st => agentStep fuel st)
               0 (currentDirection, a) ;;
  Done a.

(** Lines 86-94: the state before the first walk. *)
Definition agentInit (seed : Z) (currentMap : Map) (x y : Z) : agent :=
  {| newMap := currentMap; agentX := x; agentY := y; gen := mt19937 seed;
     currentProbRoom := probGenerateRoom;
     currentProbChange := probChangeDirection; log := [] |}.

(** Lines 86-143: [drunkAgent] up to its [return], with all its variables. *)
Definition drunkAgent_run (fuel : nat) (seed : Z) (currentMap : Map) (x y : Z)
    : res agent :=
  for_loop fuel (fun walk => walk <? J) (fun _ a => agentWalk fuel a)
    0 (agentInit seed currentMap x y).

(** The three objects [drunkAgent] takes by reference. *)
Record references : Type := {
  ref_currentMap : Map;
  ref_agentX : Z;
  ref_agentY : Z
}.

(** Lines 82-146: the returned grid, and the referenced objects as the call
    leaves them.  [currentMap] is only read, to initialise [newMap]; [agentX]
    and [agentY] are assigned at every move. *)
Definition drunkAgent (fuel : nat) (seed : Z) (r : references)
    : res (Map * references) :=
  a <- drunkAgent_run fuel seed (ref_currentMap r) (ref_agentX r) (ref_agentY r) ;;
  Done (newMap a,
        {| ref_currentMap := ref_currentMap r;
           ref_agentX := agentX a; ref_agentY := agentY a |}).

End DrunkAgent.

(** ** main (lines 148-222) *)

(** What one iteration of the driver passed to [drunkAgent] and got back. *)
Record call_log : Type := {
  call_J : Z;
  call_I : Z;
  call_roomSizeX : Z;
  call_roomSizeY : Z;
  call_probGenerateRoom : D;
  call_probIncreaseRoom : D;
  call_probChangeDirection : D;
  call_probIncreaseChange : D;
  call_seed : Z;
  call_in : references;
  call_out : references
}.

(** The variables of [main] that live across its iterations, what was printed,
    and the log of the calls. *)
Record driver : Type := {
  myMap : Map;
  drunkAgentX : Z;
  drunkAgentY : Z;
  main_gen : G;
  printed : list Map;
  calls : list call_log
}.

Definition mapRows : Z := 10.
Definition mapCols : Z := 20.
Definition numIterations : Z := 5.
Definition ca_W : Z := mapCols.
Definition ca_H : Z := mapRows.
Definition ca_R : Z := 1.

(** A decimal literal [n / d] with small [n] and [d] is the correctly rounded
    quotient of the two integers. *)
Definition literal (n d : Z) : D := ddiv (of_int n) (of_int d).

Definition ca_U : D := literal 1 2.

Section Main.

(** [clock k] is what the [k]-th reading of the system clock returns. *)
Variable clock : Z -> Z.

(** Lines 165-179: the grid filled with random bits, the agent in the middle. *)
Definition mainInit (fuel : nat) : res driver :=
  let g := mt19937 (clock 0) in
  let zeros : Map := replicate (Z.to_nat mapRows) (replicate (Z.to_nat mapCols) 0) in
  '(m, g) <-
    for_loop fuel (fun i => i <? mapRows) (fun i s =>
      for_loop fuel (fun j => j <? mapCols) (fun j '(m, g) =>
        let '(bit, g) := uniform_int 0 1 g in
        m' <- set m i j bit ;; Done (m', g))
        0 s)
      0 (zeros, g) ;;
  Done {| myMap := m;
          drunkAgentX := Int.div mapRows 2; drunkAgentY := Int.div mapCols 2;
          main_gen := g; printed := [m]; calls := [] |}.

(** Lines 192-217: one iteration of the simulation loop. *)
Definition mainIteration (fuel : nat) (iteration : Z) (d : driver) : res driver :=
  let g := main_gen d in
  let '(da_J, g) := uniform_int 3 7 g in
  let '(da_I, g) := uniform_int 5 15 g in
  let '(da_roomSizeX, g) := uniform_int 3 7 g in
  let '(da_roomSizeY, g) := uniform_int 2 5 g in
  let '(da_probGenerateRoom, g) := uniform_real (literal 5 100) (literal 3 10) g in
  let '(da_probIncreaseRoom, g) := uniform_real (literal 1 100) (literal 1 10) g in
  let '(da_probChangeDirection, g) := uniform_real (literal 5 100) (literal 3 10) g in
  let '(da_probIncreaseChange, g) := uniform_real (literal 1 100) (literal 1 10) g in
  m <- cellularAutomata fuel (clock (2 * iteration + 1)) (myMap d) ca_W ca_H ca_R ca_U ;;
  let seed := clock (2 * iteration + 2) in
  let r := {| ref_currentMap := m;
              ref_agentX := drunkAgentX d; ref_agentY := drunkAgentY d |} in
  '(m', r') <-
    drunkAgent ca_W ca_H da_J da_I da_roomSizeX da_roomSizeY
      da_probGenerateRoom da_probIncreaseRoom
      da_probChangeDirection da_probIncreaseChange fuel seed r ;;
  Done {| myMap := m';
          drunkAgentX := ref_agentX r'; drunkAgentY := ref_agentY r';
          main_gen := g; printed := printed d ++ [m'];
          calls := calls d ++
            [{| call_J := da_J; call_I := da_I;
                call_roomSizeX := da_roomSizeX; call_roomSizeY := da_roomSizeY;
                call_probGenerateRoom := da_probGenerateRoom;
                call_probIncreaseRoom := da_probIncreaseRoom;
                call_probChangeDirection := da_probChangeDirection;
                call_probIncreaseChange := da_probIncreaseChange;
                call_seed := seed; call_in := r; call_out := r' |}] |}.

(** Lines 191-218: the simulation loop, from any state of the driver. *)
Definition mainLoop (fuel : nat) (d : driver) : res driver :=
  for_loop fuel (fun iteration => iteration <? numIterations)
    (fun iteration d => mainIteration fuel iteration d) 0 d.

Definition main (fuel : nat) : res driver :=
  d <- mainInit fuel ;; mainLoop fuel d.

End Main.

(** ** The words of the specification, for comparison *)

(** The value of the cell [(i, j)] of a grid, [0] outside of it. *)
Definition cell (m : Map) (i j : Z) : Z :=
  match get m i j with
  | Done v => v
  | _ => 0
  end.

Definition sumZ (l : list Z) : Z := foldr Z.add 0 l.

(** "sum all in-bounds neighbor values over the window
    [i-R,i+R] x [j-R,j+R] (center cell included)". *)
Definition window_sum (m : Map) (W H R i j : Z) : Z :=
  sumZ ((fun di =>
    sumZ ((fun dj =>
      if (0 <=? i + di) && (i + di <? H) && (0 <=? j + dj) && (j + dj <? W)
      then cell m (i + di) (j + dj) else 0) <$> seqZ (- R) (2 * R + 1)))
    <$> seqZ (- R) (2 * R + 1)).

(** "Divide by the fixed window area (2R+1)^2 to get neighborRatio.
    Output cell = 1 if neighborRatio > U, else 0." *)
Definition spec_cell (m : Map) (W H R : Z) (U : D) (i j : Z) : Z :=
  let neighborRatio :=
    ddiv (of_int (window_sum m W H R i j)) (of_int ((2 * R + 1) * (2 * R + 1))) in
  if dlt U neighborRatio then 1 else 0.

(** The position a call was given, and the position it left. *)
Definition pos_of (r : references) : Z * Z := (ref_agentX r, ref_agentY r).




(** The position after the last step of [l], [p] when there is none. *)
Definition final_pos (p : Z * Z) (l : list step_log) : Z * Z :=
  match list.last l with
  | Some e => to_pos e
  | None => p
  end.

(** Every index a step touched lies in the grid. *)
Definition step_in_bounds (H W : Z) (e : step_log) : Prop :=
  in_bounds H W (at_pos e) /\ in_bounds H W (to_pos e) /\
  Forall (in_bounds H W) (written e).

(** Consecutive steps: the ramps and the position a step starts with are the
    ones the step before it ended with. *)
Fixpoint linked (l : list step_log) : Prop :=
  match l with
  | e1 :: ((e2 :: _) as l') =>
      (probRoom_before e2 = probRoom_after e1 /\
       probChange_before e2 = probChange_after e1 /\
       at_pos e2 = to_pos e1) /\ linked l'
  | _ => True
  end.

End Program.

(** ** main, the second copy (lines 371-447) *)

Section SecondMain.

Context {D G : Type} {double_ops : Double D} {random : RandomSource G D}.

Variable clock : Z -> Z.

Definition da_W : Z := mapCols.
Definition da_H : Z := mapRows.
Definition da_J : Z := 5.
Definition da_I : Z := 10.
Definition da_roomSizeX : Z := 5.
Definition da_roomSizeY : Z := 3.
Definition da_probGenerateRoom : D := literal 1 10.
Definition da_probIncreaseRoom : D := literal 5 100.
Definition da_probChangeDirection : D := literal 2 10.
Definition da_probIncreaseChange : D := literal 3 100.

(** Lines 424-443, the second copy: one iteration of its simulation loop,
    with its fixed parameters and its in-place [cellularAutomata]. *)
Definition mainIteration_v2 (fuel : nat) (iteration : Z) (d : @driver D G)
    : res (@driver D G) :=
  m <- cellularAutomata_inplace (G := G) fuel (clock (2 * iteration + 1))
         (myMap d) ca_W ca_H ca_R ca_U ;;
  let seed := clock (2 * iteration + 2) in
  let r := {| ref_currentMap := m;
              ref_agentX := drunkAgentX d; ref_agentY := drunkAgentY d |} in
  '(m', r') <-
    drunkAgent (G := G) da_W da_H da_J da_I da_roomSizeX da_roomSizeY
      da_probGenerateRoom da_probIncreaseRoom
      da_probChangeDirection da_probIncreaseChange fuel seed r ;;
  Done {| myMap := m';
          drunkAgentX := ref_agentX r'; drunkAgentY := ref_agentY r';
          main_gen := main_gen d; printed := printed d ++ [m'];
          calls := calls d ++
            [{| call_J := da_J; call_I := da_I;
                call_roomSizeX := da_roomSizeX; call_roomSizeY := da_roomSizeY;
                call_probGenerateRoom := da_probGenerateRoom;
                call_probIncreaseRoom := da_probIncreaseRoom;
                call_probChangeDirection := da_probChangeDirection;
                call_probIncreaseChange := da_probIncreaseChange;
                call_seed := seed; call_in := r; call_out := r' |}] |}.

(** Lines 371-447, the second copy of [main]: the same random grid and the
    same starting position as the first (lines 375-399), then its loop. *)
Definition main_v2 (fuel : nat) : res (@driver D G) :=
  d <- mainInit clock fuel ;;
  for_loop fuel (fun iteration => iteration <? numIterations)
    (fun iteration d => mainIteration_v2 fuel iteration d) 0 d.

End SecondMain.

(** ** printMap *)

Module Print.

Import Ascii String.
Local Open Scope string_scope.

(** What [std::endl] writes. *)
Definition endl : string := String (ascii_of_nat 10) EmptyString.

(** Lines 17-19: the cells of a row, a [#] for a 1 and a blank for anything
    else, each followed by a blank. *)
Fixpoint printRow (row : list Z) : string :=
  match row with
  | nil => EmptyString
  | cell :: row' => (if (cell =? 1)%Z then "#" else " ") ++ " " ++ printRow row'
  end.

(** Lines 16-21: the rows, each ended by a new line. *)
Fixpoint printRows (map : Map) : string :=
  match map with
  | nil => EmptyString
  | row :: map' => printRow row ++ endl ++ printRows map'
  end.

Definition header : string := "--- Current Map ---" ++ endl.
Definition footer : string := "-------------------" ++ endl.

(** Lines 14-23, the first copy: the text [printMap] writes to [std::cout]. *)
Definition printMap (map : Map) : string :=
  header ++ printRows map ++ footer.

End Print.

Module PrintValues.

Import Ascii String.
Local Open Scope string_scope.

(** What [std::cout << cell] writes for an [int]: its decimal digits, after a
    minus sign when it is negative. *)
Definition decimal (cell : Z) : string :=
  DecimalString.NilZero.string_of_int (Z.to_int cell).

(** Lines 238-241: the cells of a row, each followed by a blank. *)
Fixpoint printRow (row : list Z) : string :=
  match row with
  | nil => EmptyString
  | cell :: row' => decimal cell ++ " " ++ printRow row'
  end.

(** Lines 237-243: the rows, each ended by a new line. *)
Fixpoint printRows (map : Map) : string :=
  match map with
  | nil => EmptyString
  | row :: map' => printRow row ++ Print.endl ++ printRows map'
  end.

(** Lines 235-245, the second copy: the text [printMap] writes. *)
Definition printMap (map : Map) : string :=
  Print.header ++ printRows map ++ Print.footer.

End PrintValues.

(** How a step moves the two ramps, in binary64: [roomProb] is back at its
    base when the room roll succeeded and is incremented otherwise;
    [changeProb] is back at its base when the direction-change roll succeeded
    or the agent hit the border, and is incremented otherwise.  An increment
    does not decrease, [<=] being the comparison of IEEE 754, which holds of
    no NaN. *)
Definition step_ramps
    (probGenerateRoom probIncreaseRoom probChangeDirection probIncreaseChange : float)
    (e : @step_log float) : Prop :=
  (if room_fired e then probRoom_after e = probGenerateRoom
   else probRoom_after e = PrimFloat.add (probRoom_before e) probIncreaseRoom /\
        PrimFloat.leb (probRoom_before e) (probRoom_after e) = true) /\
  (if change_fired e || bounced e then probChange_after e = probChangeDirection
   else probChange_after e = PrimFloat.add (probChange_before e) probIncreaseChange /\
        PrimFloat.leb (probChange_before e) (probChange_after e) = true).

(** A computation that no amount of fuel brings to its end. *)
Definition never_returns {A : Type} (run : nat -> res A) : Prop :=
  forall fuel, run fuel = OutOfFuel.

(** ** Predicates of the further properties *)

(** The cell [p] of the grid [m] holds 1. *)
Definition holds_one (m : Map) (p : Z * Z) : Prop := get m (fst p) (snd p) = Done 1.

(** The cells [p] and [q] are next to each other in a row or in a column. *)
Definition adjacent (p q : Z * Z) : Prop :=
  Z.abs (fst q - fst p) + Z.abs (snd q - snd p) = 1.

(** The steps of [l] make a path from [p]: each starts where the one before
    it ended, and ends on the same cell when the agent bounced and on a cell
    next to it when it did not. *)
Fixpoint trajectory {D : Type} (p : Z * Z) (l : list (@step_log D)) : Prop :=
  match l with
  | [] => True
  | e :: l' =>
      at_pos e = p /\
      (if bounced e then to_pos e = p else adjacent p (to_pos e)) /\
      trajectory (to_pos e) l'
  end.

(** Every cell of the grid holds 0 or 1. *)
Definition binary_grid (m : Map) : Prop :=
  forall i j v, get m i j = Done v -> v = 0 \/ v = 1.

(** What [main] prints: grids of [mapRows] rows and [mapCols] columns of zeros
    and ones. *)
Definition printable (m : Map) : Prop := grid_shape m mapRows mapCols /\ binary_grid m.

(** A grid with every cell other than 1 replaced by 0. *)
Definition normalise_row (row : list Z) : list Z :=
  List.map (fun cell => if cell =? 1 then 1 else 0) row.

Definition normalise (m : Map) : Map := List.map normalise_row m.

(** ** Instances used to run the model *)

(** [double] as binary64. *)
Definition float_of_Z (z : Z) : float :=
  if z <? 0 then PrimFloat.opp (PrimFloat.of_uint63 (Uint63.of_Z (- z)))
  else PrimFloat.of_uint63 (Uint63.of_Z z).

#[export] Instance float_Double : Double float := {|
  of_int := float_of_Z;
  ddiv := PrimFloat.div;
  dadd := PrimFloat.add;
  dlt := PrimFloat.ltb
|}.

(** A scripted random source: the state is the list of the draws to come, in
    hundredths for a real draw; an integer draw is brought into its range.
    [script seed] is the script of the engine seeded with [seed]. *)
Definition script_int (a b : Z) (g : list Z) : Z * list Z :=
  match g with
  | [] => (a, [])
  | x :: g' => (a + x mod (b - a + 1), g')
  end.

Definition script_real {D : Type} `{Double D} (a b : D) (g : list Z) : D * list Z :=
  match g with
  | [] => (a, [])
  | x :: g' => (ddiv (of_int x) (of_int 100), g')
  end.

(** * Proofs *)

(** ** 32-bit integers *)

Lemma wrap_in_range z : Int.in_range (Int.wrap z).
Proof.
  unfold Int.in_range, Int.wrap, Int.min_int, Int.max_int, Int.modulus.
  pose proof (Z.mod_pos_bound (z + 2147483648) 4294967296). lia.
Qed.

Lemma wrap_small z : Int.in_range z -> Int.wrap z = z.
Proof.
  unfold Int.in_range, Int.wrap, Int.min_int, Int.max_int, Int.modulus.
  intros Hz. rewrite Z.mod_small by lia. lia.
Qed.

Lemma add_small a b : Int.in_range (a + b) -> Int.add a b = a + b.
Proof. apply wrap_small. Qed.

Lemma sub_small a b : Int.in_range (a - b) -> Int.sub a b = a - b.
Proof. apply wrap_small. Qed.

Lemma mul_small a b : Int.in_range (a * b) -> Int.mul a b = a * b.
Proof. apply wrap_small. Qed.

Lemma neg_small a : Int.in_range (- a) -> Int.neg a = - a.
Proof. apply wrap_small. Qed.

(** A sum that leaves the range of [int] upwards comes back negative. *)
Lemma wrap_above z : Int.max_int < z < Int.modulus -> Int.wrap z < 0.
Proof.
  unfold Int.wrap, Int.max_int, Int.modulus. intros Hz.
  replace (z + 2147483648) with ((z - 2147483648) + 1 * 4294967296) by lia.
  rewrite Z.mod_add by lia. rewrite Z.mod_small; lia.
Qed.

(** ** The result monad *)

Lemma bind_Done {A B : Type} (m : res A) (k : A -> res B) (b : B) :
  bind m k = Done b -> exists a, m = Done a /\ k a = Done b.
Proof. destruct m; simpl; intros E; try discriminate. eauto. Qed.

Ltac bind_inv H :=
  let a := fresh "a" in
  let E := fresh "E" in
  apply bind_Done in H; destruct H as (a & E & H).

(** ** Loops *)

Section Loops.

Context {St : Type}.
Implicit Types (body : Z -> St -> res St) (cond : Z -> bool).

Lemma for_loop_S cond body fuel i s :
  for_loop (S fuel) cond body i s =
  if cond i then s' <- body i s ;; for_loop fuel cond body (Int.add i 1) s'
  else Done s.
Proof. reflexivity. Qed.

(** A counting loop whose bound is an [int] runs over [lo, lo+1, ..., hi-1]. *)
Lemma for_loop_lt cond body hi :
  (forall i, cond i = (i <? hi)) -> hi <= Int.max_int ->
  forall fuel lo s,
    Int.min_int <= lo -> (Z.to_nat (hi - lo) < fuel)%nat ->
    for_loop fuel cond body lo s = foldM body (seqZ lo (hi - lo)) s.
Proof.
  intros Hc Hhi. induction fuel as [|fuel IH]; intros lo s Hlo Hf; [lia|].
  simpl. rewrite Hc. destruct (Z.ltb_spec lo hi) as [Hlt|Hge].
  - rewrite (seqZ_cons lo) by lia. simpl.
    destruct (body lo s) as [s'| |]; simpl; try reflexivity.
    rewrite add_small by (unfold Int.in_range, Int.max_int in *; lia).
    rewrite IH by lia. f_equal. f_equal; lia.
  - rewrite seqZ_nil by lia. reflexivity.
Qed.

(** The same for a loop [for (i = lo; i <= hi; ++i)], when [hi + 1] is still
    an [int]. *)
Lemma for_loop_le cond body hi :
  (forall i, cond i = (i <=? hi)) -> hi < Int.max_int ->
  forall fuel lo s,
    Int.min_int <= lo -> (Z.to_nat (hi + 1 - lo) < fuel)%nat ->
    for_loop fuel cond body lo s = foldM body (seqZ lo (hi + 1 - lo)) s.
Proof.
  intros Hc Hhi fuel lo s Hlo Hf. apply for_loop_lt; try lia.
  intros i. rewrite Hc. destruct (Z.leb_spec i hi), (Z.ltb_spec i (hi + 1)); lia.
Qed.

(** A loop whose condition holds of every [int] never exits. *)
Lemma for_loop_forever cond body :
  (forall i, Int.in_range i -> cond i = true) ->
  (forall i s, body i s <> Fault) ->
  forall fuel i s, Int.in_range i -> for_loop fuel cond body i s <> Fault /\
    forall s', for_loop fuel cond body i s <> Done s'.
Proof.
  intros Hc Hb. induction fuel as [|fuel IH]; intros i s Hi; simpl.
  - split; [discriminate|]. intros s'. discriminate.
  - rewrite Hc by assumption.
    specialize (Hb i s). destruct (body i s) as [s1| |]; simpl.
    + apply IH, wrap_in_range.
    + contradiction.
    + split; [discriminate|]. intros s'; discriminate.
Qed.

(** Partial correctness: what the body preserves holds when the loop ends. *)
Lemma for_loop_inv (P : St -> Prop) cond body :
  (forall i s s', P s -> body i s = Done s' -> P s') ->
  forall fuel i s s', P s -> for_loop fuel cond body i s = Done s' -> P s'.
Proof.
  intros Hb. induction fuel as [|fuel IH]; intros i s s' Hs E; simpl in E.
  - discriminate.
  - destruct (cond i).
    + bind_inv E. eapply IH; [|exact E]. eapply Hb; eauto.
    + injection E as <-. exact Hs.
Qed.

(** With enough fuel a loop does not run out of it, whatever its body does
    short of running out itself. *)
Lemma for_loop_lt_fuel cond body hi :
  (forall i, cond i = (i <? hi)) -> hi <= Int.max_int ->
  (forall i s, body i s <> OutOfFuel) ->
  forall fuel lo s,
    Int.min_int <= lo -> (Z.to_nat (hi - lo) < fuel)%nat ->
    for_loop fuel cond body lo s <> OutOfFuel.
Proof.
  intros Hc Hhi Hb. induction fuel as [|fuel IH]; intros lo s Hlo Hf; [lia|].
  simpl. rewrite Hc. destruct (Z.ltb_spec lo hi) as [Hlt|Hge]; [|discriminate].
  specialize (Hb lo s). destruct (body lo s) as [s'| |]; simpl;
    [|discriminate|contradiction].
  rewrite add_small by (unfold Int.in_range, Int.max_int in *; lia).
  apply IH; lia.
Qed.

Lemma for_loop_le_fuel cond body hi :
  (forall i, cond i = (i <=? hi)) -> hi < Int.max_int ->
  (forall i s, body i s <> OutOfFuel) ->
  forall fuel lo s,
    Int.min_int <= lo -> (Z.to_nat (hi + 1 - lo) < fuel)%nat ->
    for_loop fuel cond body lo s <> OutOfFuel.
Proof.
  intros Hc Hhi Hb fuel lo s Hlo Hf. apply (for_loop_lt_fuel cond body (hi + 1)); try lia.
  - intros i. rewrite Hc. destruct (Z.leb_spec i hi), (Z.ltb_spec i (hi + 1)); lia.
  - exact Hb.
Qed.

(** Total correctness over the values of the counter: an invariant that
    depends on the counter, and a body that returns. *)
Lemma foldM_seqZ (P : Z -> St -> Prop) body lo n :
  0 <= n ->
  (forall i s, lo <= i < lo + n -> P i s ->
     exists s', body i s = Done s' /\ P (i + 1) s') ->
  forall s, P lo s -> exists s', foldM body (seqZ lo n) s = Done s' /\ P (lo + n) s'.
Proof.
  intros Hn. revert lo. pattern n. apply natlike_ind; [| |exact Hn]; clear n Hn.
  - intros lo _ s Hs. exists s. rewrite Z.add_0_r. split; [reflexivity|exact Hs].
  - intros n Hn IH lo Hb s Hs.
    rewrite seqZ_cons by lia. simpl.
    destruct (Hb lo s) as (s1 & E1 & H1); [lia|exact Hs|].
    rewrite E1. simpl.
    replace (Z.pred (Z.succ n)) with n by lia.
    destruct (IH (Z.succ lo)) with (s := s1) as (s' & E' & H').
    + intros i s0 Hi. apply Hb. lia.
    + replace (Z.succ lo) with (lo + 1) by lia. exact H1.
    + exists s'. split; [exact E'|].
      replace (lo + Z.succ n) with (Z.succ lo + n) by lia. exact H'.
Qed.

(** Partial correctness with an invariant that depends on the counter: when
    the loop ends, the invariant holds at a counter that fails the test. *)
Lemma for_loop_post (P : Z -> St -> Prop) cond body :
  (forall i s s', cond i = true -> P i s -> body i s = Done s' ->
     P (Int.add i 1) s') ->
  forall fuel i s s', P i s -> for_loop fuel cond body i s = Done s' ->
    exists i', cond i' = false /\ P i' s'.
Proof.
  intros Hb. induction fuel as [|fuel IH]; intros i s s' Hs E; simpl in E.
  - discriminate.
  - destruct (cond i) eqn:Hc.
    + bind_inv E. eapply IH; [|exact E]. eapply Hb; eauto.
    + injection E as <-. eauto.
Qed.

(** The same when the number of values may be negative, which is no value. *)
Lemma foldM_seqZ_max (P : Z -> St -> Prop) body lo n :
  (forall i s, lo <= i < lo + n -> P i s ->
     exists s', body i s = Done s' /\ P (i + 1) s') ->
  forall s, P lo s ->
    exists s', foldM body (seqZ lo n) s = Done s' /\ P (lo + Z.max 0 n) s'.
Proof.
  intros Hb s Hs. destruct (Z_le_gt_dec 0 n) as [Hn|Hn].
  - rewrite Z.max_r by lia. apply foldM_seqZ; assumption.
  - rewrite seqZ_nil by lia. rewrite Z.max_l by lia. rewrite Z.add_0_r.
    exists s. split; [reflexivity|exact Hs].
Qed.

(** Total correctness with an invariant that ignores the counter. *)
Lemma foldM_total (P : St -> Prop) body (l : list Z) :
  (forall i s, i ∈ l -> P s -> exists s', body i s = Done s' /\ P s') ->
  forall s, P s -> exists s', foldM body l s = Done s' /\ P s'.
Proof.
  induction l as [|i l IH]; intros Hb s Hs; simpl.
  - eauto.
  - destruct (Hb i s) as (s1 & E1 & H1); [left|exact Hs|].
    rewrite E1. simpl. apply IH; [|exact H1].
    intros k t Hk. apply Hb. right. exact Hk.
Qed.

Lemma bind_not_OutOfFuel {A : Type} (m : res A) (k : A -> res St) :
  m <> OutOfFuel -> (forall a, k a <> OutOfFuel) -> bind m k <> OutOfFuel.
Proof. intros Hm Hk. destruct m; simpl; [apply Hk|discriminate|congruence]. Qed.

End Loops.

(** ** Vectors and the grid *)

Lemma index_Done {A : Type} (v : list A) (i : Z) (a : A) :
  index v i = Done a <-> 0 <= i /\ v !! Z.to_nat i = Some a.
Proof.
  unfold index. destruct (Z.ltb_spec i 0) as [Hi|Hi].
  - split; [discriminate|]. intros [? _]. lia.
  - destruct (v !! Z.to_nat i) as [x|]; split.
    + intros [= ->]. auto.
    + intros [_ [= ->]]. reflexivity.
    + discriminate.
    + intros [_ [=]].
Qed.

Lemma index_inside {A : Type} (v : list A) (i : Z) :
  0 <= i < Z.of_nat (length v) -> exists a, index v i = Done a.
Proof.
  intros Hi. destruct (lookup_lt_is_Some_2 v (Z.to_nat i)) as [a Ha]; [lia|].
  exists a. apply index_Done. split; [lia|exact Ha].
Qed.

Lemma index_not_OutOfFuel {A : Type} (v : list A) (i : Z) : index v i <> OutOfFuel.
Proof. unfold index. destruct (i <? 0); [|destruct (v !! Z.to_nat i)]; discriminate. Qed.

Lemma get_not_OutOfFuel (m : Map) (i j : Z) : get m i j <> OutOfFuel.
Proof.
  unfold get. destruct (index m i) as [row| |] eqn:E; simpl;
    [apply index_not_OutOfFuel|discriminate|].
  intros _. exact (index_not_OutOfFuel _ _ E).
Qed.

Lemma get_Done (m : Map) (i j v : Z) :
  get m i j = Done v <->
  exists row, 0 <= i /\ m !! Z.to_nat i = Some row /\
              0 <= j /\ row !! Z.to_nat j = Some v.
Proof.
  unfold get. split.
  - intros E. bind_inv E. apply index_Done in E0, E. exists a. tauto.
  - intros (row & Hi & Hrow & Hj & Hv).
    replace (index m i) with (Done row) by (symmetry; apply index_Done; auto).
    simpl. apply index_Done. auto.
Qed.

Lemma set_Done (m : Map) (i j v : Z) (m' : Map) :
  set m i j v = Done m' <->
  exists row, 0 <= i /\ m !! Z.to_nat i = Some row /\
              0 <= j < Z.of_nat (length row) /\
              m' = <[Z.to_nat i := <[Z.to_nat j := v]> row]> m.
Proof.
  unfold set, assign. split.
  - intros E. bind_inv E. apply index_Done in E0 as [Hi Hrow].
    destruct ((0 <=? j) && (j <? Z.of_nat (length a))) eqn:Hj; simpl in E;
      [|discriminate].
    destruct ((0 <=? i) && (i <? Z.of_nat (length m))) eqn:Hi'; [|discriminate].
    injection E as <-. exists a. repeat split; auto; lia.
  - intros (row & Hi & Hrow & Hj & ->).
    replace (index m i) with (Done row) by (symmetry; apply index_Done; auto).
    simpl. replace ((0 <=? j) && (j <? Z.of_nat (length row))) with true by lia.
    simpl. apply lookup_lt_Some in Hrow.
    replace ((0 <=? i) && (i <? Z.of_nat (length m))) with true by lia.
    reflexivity.
Qed.

Lemma set_not_OutOfFuel (m : Map) (i j v : Z) : set m i j v <> OutOfFuel.
Proof.
  unfold set, assign. destruct (index m i) as [row| |] eqn:E; simpl.
  - destruct ((0 <=? j) && (j <? Z.of_nat (length row))); simpl; [|discriminate].
    destruct ((0 <=? i) && (i <? Z.of_nat (length m))); discriminate.
  - discriminate.
  - intros _. exact (index_not_OutOfFuel _ _ E).
Qed.

(** Reading a grid after a write. *)
Lemma get_set_eq (m m' : Map) (i j v : Z) :
  set m i j v = Done m' -> get m' i j = Done v.
Proof.
  intros E. apply set_Done in E as (row & Hi & Hrow & Hj & ->).
  apply get_Done. exists (<[Z.to_nat j := v]> row). repeat split; try lia.
  - apply list_lookup_insert_eq. eapply lookup_lt_Some, Hrow.
  - apply list_lookup_insert_eq. lia.
Qed.

Lemma get_set_ne (m m' : Map) (i j v a b : Z) :
  set m i j v = Done m' -> (a, b) <> (i, j) -> get m' a b = get m a b.
Proof.
  intros E Hne. apply set_Done in E as (row & Hi & Hrow & Hj & ->).
  unfold get, index. destruct (Z.ltb_spec a 0) as [Ha|Ha]; [reflexivity|].
  destruct (decide (a = i)) as [->|Hai].
  - rewrite list_lookup_insert_eq by (eapply lookup_lt_Some, Hrow).
    rewrite Hrow. simpl. destruct (Z.ltb_spec b 0) as [Hb|Hb]; [reflexivity|].
    rewrite list_lookup_insert_ne; [reflexivity|].
    intros Heq. apply Hne. f_equal. lia.
  - rewrite list_lookup_insert_ne by lia. reflexivity.
Qed.

Lemma set_shape (m m' : Map) (H W i j v : Z) :
  grid_shape m H W -> set m i j v = Done m' -> grid_shape m' H W.
Proof.
  intros [Hlen Hrows] E. apply set_Done in E as (row & Hi & Hrow & Hj & ->).
  split.
  - rewrite length_insert. exact Hlen.
  - apply Forall_insert; [exact Hrows|]. rewrite length_insert.
    exact (Forall_lookup_1 _ _ _ _ Hrows Hrow).
Qed.

Lemma get_inside (m : Map) (H W i j : Z) :
  grid_shape m H W -> 0 <= i < H -> 0 <= j < W -> exists v, get m i j = Done v.
Proof.
  intros [Hlen Hrows] Hi Hj.
  destruct (lookup_lt_is_Some_2 m (Z.to_nat i)) as [row Hrow]; [lia|].
  pose proof (Forall_lookup_1 _ _ _ _ Hrows Hrow) as Hw. simpl in Hw.
  destruct (lookup_lt_is_Some_2 row (Z.to_nat j)) as [v Hv]; [lia|].
  exists v. apply get_Done. exists row. repeat split; auto; lia.
Qed.

Lemma get_bounds (m : Map) (H W i j v : Z) :
  grid_shape m H W -> get m i j = Done v -> 0 <= i < H /\ 0 <= j < W.
Proof.
  intros [Hlen Hrows] E. apply get_Done in E as (row & Hi & Hrow & Hj & Hv).
  pose proof (Forall_lookup_1 _ _ _ _ Hrows Hrow) as Hw. simpl in Hw.
  apply lookup_lt_Some in Hrow, Hv. lia.
Qed.

Lemma set_inside (m : Map) (H W i j v : Z) :
  grid_shape m H W -> 0 <= i < H -> 0 <= j < W -> exists m', set m i j v = Done m'.
Proof.
  intros [Hlen Hrows] Hi Hj.
  destruct (lookup_lt_is_Some_2 m (Z.to_nat i)) as [row Hrow]; [lia|].
  pose proof (Forall_lookup_1 _ _ _ _ Hrows Hrow) as Hw. simpl in Hw.
  eexists. apply set_Done. exists row. repeat split; auto; lia.
Qed.

Lemma set_bounds (m m' : Map) (H W i j v : Z) :
  grid_shape m H W -> set m i j v = Done m' -> 0 <= i < H /\ 0 <= j < W.
Proof.
  intros Hs E. eapply get_bounds; [eapply set_shape; eauto|].
  eapply get_set_eq, E.
Qed.

(** ** Sums *)

Lemma sumZ_app (l1 l2 : list Z) : sumZ (l1 ++ l2) = sumZ l1 + sumZ l2.
Proof. unfold sumZ. induction l1 as [|x l1 IH]; simpl; lia. Qed.

Lemma sumZ_seqZ_snoc (f : Z -> Z) (lo n : Z) :
  0 <= n -> sumZ (f <$> seqZ lo (n + 1)) = sumZ (f <$> seqZ lo n) + f (lo + n).
Proof.
  intros Hn. rewrite seqZ_app by lia. rewrite fmap_app, sumZ_app.
  rewrite (seqZ_cons (lo + n) 1) by lia.
  rewrite (seqZ_nil (Z.succ (lo + n))) by lia.
  unfold sumZ. simpl. lia.
Qed.

(** A loop that adds [f d] to an [int] accumulator computes the sum of the
    [f d], as long as the bound [M] on the terms keeps it in range. *)
Lemma foldM_sum (body : Z -> Z -> res Z) (f : Z -> Z) (M lo n acc0 : Z) :
  0 <= n -> 0 <= M ->
  (forall d acc, lo <= d < lo + n -> Z.abs acc + M <= Int.max_int ->
     body d acc = Done (acc + f d)) ->
  (forall d, lo <= d < lo + n -> Z.abs (f d) <= M) ->
  Z.abs acc0 + M * n <= Int.max_int ->
  foldM body (seqZ lo n) acc0 = Done (acc0 + sumZ (f <$> seqZ lo n)) /\
  Z.abs (sumZ (f <$> seqZ lo n)) <= M * n.
Proof.
  intros Hn HM Hbody Hf Hacc.
  destruct (foldM_seqZ
    (fun k acc => acc = acc0 + sumZ (f <$> seqZ lo (k - lo)) /\
                  Z.abs (sumZ (f <$> seqZ lo (k - lo))) <= M * (k - lo))
    body lo n Hn) with (s := acc0) as (acc & E & Hv & Hb).
  - intros d acc Hd [-> Hb]. pose proof (Hf d Hd) as Hfd.
    exists (acc0 + sumZ (f <$> seqZ lo (d - lo)) + f d). split.
    + apply Hbody; [exact Hd|]. nia.
    + replace (d + 1 - lo) with (d - lo + 1) by lia.
      rewrite sumZ_seqZ_snoc by lia. replace (lo + (d - lo)) with d by lia.
      split; [lia|]. nia.
  - rewrite Z.sub_diag. rewrite seqZ_nil by lia. unfold sumZ. simpl. lia.
  - replace (lo + n - lo) with n in * by lia. subst acc. auto.
Qed.

Section CellularAutomata.

Context {D G : Type} {double_ops : Double D} {random : RandomSource G D}.

Implicit Types (m : Map) (U : D).

(** The bounds test on a wrapped sum is the test on the sum itself. *)
Lemma inside_wrap (i d N : Z) :
  0 <= i <= Int.max_int -> - Int.max_int <= d <= Int.max_int -> N <= Int.max_int ->
  (0 <=? Int.add i d) && (Int.add i d <? N) = (0 <=? i + d) && (i + d <? N) /\
  ((0 <=? i + d) && (i + d <? N) = true -> Int.add i d = i + d).
Proof.
  intros Hi Hd HN. unfold Int.max_int in *.
  destruct (Z_le_gt_dec (i + d) Int.max_int) as [Hle|Hgt].
  - rewrite add_small by (unfold Int.in_range, Int.min_int, Int.max_int in *; lia).
    auto.
  - pose proof (wrap_above (i + d)) as Hw. unfold Int.add.
    unfold Int.max_int, Int.modulus in *. split; lia.
Qed.

(** The window loops return when the grid has the shape they assume. *)
Lemma countOnes_returns fuel m W H R i j :
  grid_shape m H W -> 0 <= R < Int.max_int -> (Z.to_nat (2 * R + 1) < fuel)%nat ->
  exists c, countOnes fuel m W H R i j = Done c.
Proof.
  intros Hs HR Hf. unfold countOnes.
  assert (Hneg : Int.neg R = - R).
  { apply neg_small. unfold Int.in_range, Int.min_int, Int.max_int in *. lia. }
  rewrite Hneg.
  rewrite (for_loop_le _ _ R) by (auto; unfold Int.min_int, Int.max_int in *; lia).
  destruct (foldM_seqZ (fun _ _ => True)
    (fun di countOnes =>
       for_loop fuel (fun dj => dj <=? R) (fun dj countOnes =>
         let ni := Int.add i di in
         let nj := Int.add j dj in
         if (0 <=? ni) && (ni <? H) && (0 <=? nj) && (nj <? W) then
           v <- get m ni nj ;; Done (Int.add countOnes v)
         else Done countOnes) (- R) countOnes)
    (- R) (R + 1 - - R)) with (s := 0) as (c & E & _); [lia| |exact Logic.I|eauto].
  intros di acc Hdi _.
  rewrite (for_loop_le _ _ R) by (auto; unfold Int.min_int, Int.max_int in *; lia).
  destruct (foldM_seqZ (fun _ _ => True)
    (fun dj countOnes =>
         let ni := Int.add i di in
         let nj := Int.add j dj in
         if (0 <=? ni) && (ni <? H) && (0 <=? nj) && (nj <? W) then
           v <- get m ni nj ;; Done (Int.add countOnes v)
         else Done countOnes)
    (- R) (R + 1 - - R)) with (s := acc) as (c & E & _); [lia| |exact Logic.I|eauto].
  intros dj acc' Hdj _. simpl.
  destruct ((0 <=? Int.add i di) && (Int.add i di <? H) && (0 <=? Int.add j dj)
            && (Int.add j dj <? W)) eqn:Hin; [|eauto].
  destruct (get_inside m H W (Int.add i di) (Int.add j dj) Hs) as [v Hv]; try lia.
  rewrite Hv. simpl. eauto.
Qed.

(** The term of the window sum at the offset [(di, dj)]. *)
Definition window_term m (W H i j di dj : Z) : Z :=
  if (0 <=? i + di) && (i + di <? H) && (0 <=? j + dj) && (j + dj <? W)
  then cell m (i + di) (j + dj) else 0.

(** With cells bounded by [M] and [M (2R+1)^2] an [int], the window loops
    compute the sum of the in-bounds cells of the window. *)
Lemma countOnes_value fuel m W H R i j M :
  grid_shape m H W -> H <= Int.max_int -> W <= Int.max_int ->
  0 <= i < H -> 0 <= j < W ->
  0 <= R -> 0 <= M ->
  (forall a b v, get m a b = Done v -> Z.abs v <= M) ->
  (2 * R + 1) * (2 * R + 1) <= Int.max_int ->
  M * ((2 * R + 1) * (2 * R + 1)) <= Int.max_int ->
  (Z.to_nat (2 * R + 1) < fuel)%nat ->
  countOnes fuel m W H R i j = Done (window_sum m W H R i j).
Proof.
  intros Hs HH HW Hi Hj HR HM Hcells Harea Hsum Hf. unfold countOnes.
  assert (HR' : R < Int.max_int) by (unfold Int.max_int in *; nia).
  assert (Hneg : Int.neg R = - R).
  { apply neg_small. unfold Int.in_range, Int.min_int, Int.max_int in *. lia. }
  rewrite Hneg.
  rewrite (for_loop_le _ _ R) by (auto; unfold Int.min_int, Int.max_int in *; lia).
  replace (R + 1 - - R) with (2 * R + 1) by lia.
  assert (Hinner : forall di acc, - R <= di < - R + (2 * R + 1) ->
    Z.abs acc + M * (2 * R + 1) <= Int.max_int ->
    for_loop fuel (fun dj => dj <=? R) (fun dj countOnes =>
         let ni := Int.add i di in
         let nj := Int.add j dj in
         if (0 <=? ni) && (ni <? H) && (0 <=? nj) && (nj <? W) then
           v <- get m ni nj ;; Done (Int.add countOnes v)
         else Done countOnes) (- R) acc
    = Done (acc + sumZ (window_term m W H i j di <$> seqZ (- R) (2 * R + 1))) /\
    Z.abs (sumZ (window_term m W H i j di <$> seqZ (- R) (2 * R + 1)))
      <= M * (2 * R + 1)).
  { intros di acc Hdi Hacc.
    rewrite (for_loop_le _ _ R) by (auto; unfold Int.min_int, Int.max_int in *; lia).
    replace (R + 1 - - R) with (2 * R + 1) by lia.
    apply foldM_sum; try lia.
    - intros dj acc' Hdj Hacc'. simpl. unfold window_term.
      destruct (inside_wrap i di H) as [Ei Ei']; [unfold Int.max_int in *; lia..|].
      destruct (inside_wrap j dj W) as [Ej Ej']; [unfold Int.max_int in *; lia..|].
      rewrite <- (andb_assoc _ (0 <=? _ + _)), <- (andb_assoc _ (0 <=? Int.add _ _)).
      rewrite Ei, Ej.
      destruct ((0 <=? i + di) && (i + di <? H)) eqn:Hini; simpl;
        [|f_equal; lia].
      destruct ((0 <=? j + dj) && (j + dj <? W)) eqn:Hinj; simpl;
        [|f_equal; lia].
      rewrite Ei', Ej' by reflexivity.
      destruct (get_inside m H W (i + di) (j + dj) Hs) as [v Hv]; try lia.
      unfold cell. rewrite Hv. simpl. pose proof (Hcells _ _ _ Hv).
      rewrite add_small; [reflexivity|].
      unfold Int.in_range, Int.min_int, Int.max_int in *. lia.
    - intros dj Hdj. unfold window_term.
      destruct ((0 <=? i + di) && (i + di <? H) && (0 <=? j + dj) && (j + dj <? W))
        eqn:Hin; [|lia].
      destruct (get_inside m H W (i + di) (j + dj) Hs) as [v Hv]; try lia.
      unfold cell. rewrite Hv. eapply Hcells, Hv. }
  destruct (foldM_sum
    (fun di countOnes =>
       for_loop fuel (fun dj => dj <=? R) (fun dj countOnes =>
         let ni := Int.add i di in
         let nj := Int.add j dj in
         if (0 <=? ni) && (ni <? H) && (0 <=? nj) && (nj <? W) then
           v <- get m ni nj ;; Done (Int.add countOnes v)
         else Done countOnes) (- R) countOnes)
    (fun di => sumZ (window_term m W H i j di <$> seqZ (- R) (2 * R + 1)))
    (M * (2 * R + 1)) (- R) (2 * R + 1) 0) as [E _].
  - lia.
  - nia.
  - intros di acc Hdi Hacc. apply Hinner; assumption.
  - intros di Hdi. apply (Hinner di 0); [exact Hdi|].
    change (Z.abs 0) with 0. unfold Int.max_int in *. nia.
  - change (Z.abs 0) with 0. unfold Int.max_int in *. nia.
  - etransitivity; [exact E|]. reflexivity.
Qed.

(** The row-major sweep both copies make: at each cell a count [F] is taken
    and the cell is overwritten with [g] of it.  When [F] returns on every grid
    of the shape, with a value that makes [g] good for the cell, the sweep
    returns a grid of the shape all of whose cells are good. *)
Lemma sweep_spec fuel (F : Map -> Z -> Z -> res Z) (g : Z -> Z)
    (Good : Z -> Z -> Z -> Prop) m W H :
  grid_shape m H W -> H <= Int.max_int -> W <= Int.max_int ->
  (Z.to_nat H < fuel)%nat -> (Z.to_nat W < fuel)%nat ->
  (forall s i j, grid_shape s H W -> 0 <= i < H -> 0 <= j < W ->
     exists c, F s i j = Done c /\ Good i j (g c)) ->
  exists out,
    for_loop fuel (fun i => i <? H) (fun i s =>
      for_loop fuel (fun j => j <? W) (fun j s =>
        c <- F s i j ;; set s i j (g c)) 0 s) 0 m = Done out /\
    grid_shape out H W /\
    forall i j, 0 <= i < H -> 0 <= j < W ->
      exists v, get out i j = Done v /\ Good i j v.
Proof.
  intros Hs HH HW HfH HfW HF.
  rewrite (for_loop_lt _ _ H) by (auto; unfold Int.min_int; lia).
  rewrite Z.sub_0_r.
  assert (H0 : 0 <= H) by (destruct Hs as [<- _]; lia).
  destruct (foldM_seqZ
    (fun i' s => grid_shape s H W /\
       forall a b, 0 <= a < i' -> 0 <= b < W ->
         exists v, get s a b = Done v /\ Good a b v)
    (fun i s => for_loop fuel (fun j => j <? W) (fun j s =>
        c <- F s i j ;; set s i j (g c)) 0 s)
    0 H H0) with (s := m) as (out & E & Hso & Hout).
  - intros i s Hi [Hss Hrows].
    rewrite (for_loop_lt _ _ W) by (auto; unfold Int.min_int; lia).
    rewrite Z.sub_0_r.
    destruct (Z_lt_le_dec W 0) as [Hneg|HW0].
    { rewrite seqZ_nil by lia. simpl. exists s. split; [reflexivity|].
      split; [exact Hss|]. intros a b _ Hb. lia. }
    destruct (foldM_seqZ
      (fun j' s => grid_shape s H W /\
         (forall a b, 0 <= a < i -> 0 <= b < W ->
            exists v, get s a b = Done v /\ Good a b v) /\
         (forall b, 0 <= b < j' ->
            exists v, get s i b = Done v /\ Good i b v))
      (fun j s => c <- F s i j ;; set s i j (g c))
      0 W HW0) with (s := s) as (s' & E' & Hss' & Hrows' & Hrow').
    + intros j t Hj (Hst & Hra & Hro).
      destruct (HF t i j Hst) as (c & Ec & Hc); [lia..|].
      rewrite Ec. simpl.
      destruct (set_inside t H W i j (g c) Hst) as [t' Et']; [lia..|].
      exists t'. split; [exact Et'|]. split; [eapply set_shape; eauto|]. split.
      * intros a b Ha Hb. rewrite (get_set_ne _ _ _ _ _ _ _ Et').
        -- apply Hra; assumption.
        -- intros [= -> ->]. lia.
      * intros b Hb. destruct (decide (b = j)) as [->|Hne].
        -- exists (g c). split; [eapply get_set_eq, Et'|exact Hc].
        -- rewrite (get_set_ne _ _ _ _ _ _ _ Et').
           ++ apply Hro. lia.
           ++ intros [= ->]. contradiction.
    + split; [exact Hss|]. split; [exact Hrows|]. intros b Hb. lia.
    + exists s'. split; [exact E'|]. split; [exact Hss'|].
      intros a b Ha Hb. destruct (decide (a = i)) as [->|Hne].
      * apply Hrow'. lia.
      * apply Hrows'; lia.
  - split; [exact Hs|]. intros a b Ha. lia.
  - exists out. split; [exact E|]. split; [exact Hso|].
    intros i j Hi Hj. apply Hout; lia.
Qed.

Lemma applyRule_binary c R U : applyRule c R U = 0 \/ applyRule c R U = 1.
Proof. unfold applyRule. destruct (dlt U _); auto. Qed.

(** The first copy returns the grid whose cells are the rule applied to the
    counts taken on the input grid. *)
Lemma cellularAutomata_cells fuel seed m W H R U (cnt : Z -> Z -> Z) :
  grid_shape m H W -> H <= Int.max_int -> W <= Int.max_int ->
  (Z.to_nat H < fuel)%nat -> (Z.to_nat W < fuel)%nat ->
  (forall i j, 0 <= i < H -> 0 <= j < W ->
     countOnes fuel m W H R i j = Done (cnt i j)) ->
  exists out,
    cellularAutomata fuel seed m W H R U = Done out /\ grid_shape out H W /\
    forall i j, 0 <= i < H -> 0 <= j < W ->
      get out i j = Done (applyRule (cnt i j) R U).
Proof.
  intros Hs HH HW HfH HfW Hcnt.
  destruct (sweep_spec fuel (fun _ i j => countOnes fuel m W H R i j)
    (fun c => applyRule c R U) (fun i j v => v = applyRule (cnt i j) R U)
    m W H Hs HH HW HfH HfW) as (out & E & Hso & Hout).
  - intros s i j _ Hi Hj. exists (cnt i j). rewrite Hcnt by assumption. auto.
  - exists out. split; [exact E|]. split; [exact Hso|].
    intros i j Hi Hj. destruct (Hout i j Hi Hj) as (v & Ev & ->). exact Ev.
Qed.

(** The second copy returns as well, a grid of zeros and ones. *)
Lemma cellularAutomata_inplace_returns fuel seed m W H R U :
  grid_shape m H W -> H <= Int.max_int -> W <= Int.max_int ->
  0 <= R < Int.max_int ->
  (Z.to_nat H < fuel)%nat -> (Z.to_nat W < fuel)%nat ->
  (Z.to_nat (2 * R + 1) < fuel)%nat ->
  exists out,
    cellularAutomata_inplace fuel seed m W H R U = Done out /\
    grid_shape out H W /\
    forall i j, 0 <= i < H -> 0 <= j < W ->
      exists v, get out i j = Done v /\ (v = 0 \/ v = 1).
Proof.
  intros Hs HH HW HR HfH HfW HfR.
  apply (sweep_spec fuel (fun s i j => countOnes fuel s W H R i j)
    (fun c => applyRule c R U) (fun _ _ v => v = 0 \/ v = 1)
    m W H Hs HH HW HfH HfW).
  intros s i j Hss Hi Hj.
  destruct (countOnes_returns fuel s W H R i j Hss HR HfR) as [c Ec].
  exists c. split; [exact Ec|apply applyRule_binary].
Qed.

(** Whatever the counts are, a sweep that returns has written every cell of
    the grid with a value of [g]. *)
Lemma sweep_partial fuel (F : Map -> Z -> Z -> res Z) (g : Z -> Z)
    (Good : Z -> Prop) m W H out :
  grid_shape m H W -> H <= Int.max_int -> W <= Int.max_int ->
  (forall c, Good (g c)) ->
  for_loop fuel (fun i => i <? H) (fun i s =>
    for_loop fuel (fun j => j <? W) (fun j s =>
      c <- F s i j ;; set s i j (g c)) 0 s) 0 m = Done out ->
  grid_shape out H W /\
  forall i j, 0 <= i < H -> 0 <= j < W -> exists v, get out i j = Done v /\ Good v.
Proof.
  intros Hs HH HW Hg E.
  assert (H0 : 0 <= H) by (destruct Hs as [<- _]; lia).
  apply (for_loop_post
    (fun i' s => 0 <= i' <= H /\ grid_shape s H W /\
       forall a b, 0 <= a < i' -> 0 <= b < W ->
         exists v, get s a b = Done v /\ Good v)) in E.
  - destruct E as (i' & Hc & Hi' & Hso & Hout).
    split; [exact Hso|]. intros i j Hi Hj. apply Hout; lia.
  - clear E. intros i s s' Hc (Hi & Hss & Hrows) E.
    assert (Hlt : i < H) by lia.
    rewrite add_small by (unfold Int.in_range, Int.min_int, Int.max_int in *; lia).
    assert (HW0 : 0 <= W).
    { destruct Hss as [Hlen Hall].
      destruct (lookup_lt_is_Some_2 s (Z.to_nat i)) as [row Hrow]; [lia|].
      pose proof (Forall_lookup_1 _ _ _ _ Hall Hrow) as Hw. simpl in Hw. lia. }
    apply (for_loop_post
      (fun j' t => 0 <= j' <= W /\ grid_shape t H W /\
         (forall a b, 0 <= a < i -> 0 <= b < W ->
            exists v, get t a b = Done v /\ Good v) /\
         (forall b, 0 <= b < j' -> exists v, get t i b = Done v /\ Good v))) in E.
    + destruct E as (j' & Hcj & Hj' & Hst & Hra & Hro).
      split; [lia|]. split; [exact Hst|].
      intros a b Ha Hb. destruct (decide (a = i)) as [->|Hne].
      * apply Hro. lia.
      * apply Hra; lia.
    + clear E. intros j t t' Hcj (Hj & Hst & Hra & Hro) E.
      assert (Hjlt : j < W) by lia.
      rewrite add_small by (unfold Int.in_range, Int.min_int, Int.max_int in *; lia).
      bind_inv E. split; [lia|]. split; [eapply set_shape; eauto|]. split.
      * intros a0 b Ha Hb. rewrite (get_set_ne _ _ _ _ _ _ _ E).
        -- apply Hra; assumption.
        -- intros [= -> ->]. lia.
      * intros b Hb. destruct (decide (b = j)) as [->|Hne].
        -- exists (g a). split; [eapply get_set_eq, E|apply Hg].
        -- rewrite (get_set_ne _ _ _ _ _ _ _ E).
           ++ apply Hro. lia.
           ++ intros [= ->]. contradiction.
    + split; [lia|]. split; [exact Hss|]. split; [exact Hrows|]. intros b Hb. lia.
  - split; [lia|]. split; [exact Hs|]. intros a b Ha. lia.
Qed.

(** With a window area that fits an [int], the rule of the code is the rule of
    the specification. *)
Lemma applyRule_spec m W H R U i j :
  0 <= R -> (2 * R + 1) * (2 * R + 1) <= Int.max_int ->
  applyRule (window_sum m W H R i j) R U = spec_cell m W H R U i j.
Proof.
  intros HR Harea. unfold applyRule, spec_cell.
  assert (Int.mul 2 R = 2 * R) as ->.
  { apply mul_small. unfold Int.in_range, Int.min_int, Int.max_int in *. nia. }
  assert (Int.add (2 * R) 1 = 2 * R + 1) as ->.
  { apply add_small. unfold Int.in_range, Int.min_int, Int.max_int in *. nia. }
  rewrite mul_small; [reflexivity|].
  unfold Int.in_range, Int.min_int, Int.max_int in *. nia.
Qed.

(** X1: the first copy implements the rule of the specification: on a grid of [H]
    rows and [W] columns whose cells are bounded by [M], with a radius for
    which the area [(2R+1)^2] and [M] times the area fit an [int], it returns
    the grid of the specification's cell values. *)
Theorem cellularAutomata_rule fuel seed m W H R U M :
  grid_shape m H W -> H <= Int.max_int -> W <= Int.max_int ->
  0 <= R -> 0 <= M ->
  (forall a b v, get m a b = Done v -> Z.abs v <= M) ->
  (2 * R + 1) * (2 * R + 1) <= Int.max_int ->
  M * ((2 * R + 1) * (2 * R + 1)) <= Int.max_int ->
  (Z.to_nat H < fuel)%nat -> (Z.to_nat W < fuel)%nat ->
  (Z.to_nat (2 * R + 1) < fuel)%nat ->
  exists out,
    cellularAutomata fuel seed m W H R U = Done out /\ grid_shape out H W /\
    forall i j, 0 <= i < H -> 0 <= j < W ->
      get out i j = Done (spec_cell m W H R U i j).
Proof.
  intros Hs HH HW HR HM Hcells Harea Hsum HfH HfW HfR.
  destruct (cellularAutomata_cells fuel seed m W H R U (window_sum m W H R)
    Hs HH HW HfH HfW) as (out & E & Hso & Hout).
  - intros i j Hi Hj. eapply countOnes_value; eauto.
  - exists out. split; [exact E|]. split; [exact Hso|].
    intros i j Hi Hj. rewrite Hout by assumption.
    rewrite applyRule_spec by assumption. reflexivity.
Qed.

(** C10: on a grid of [H] rows and [W] columns, whatever its cells hold, every
    cell of the grid that [cellularAutomata] (either copy) returns is 0 or 1. *)
Theorem cellularAutomata_output_binary fuel seed m W H R U out :
  grid_shape m H W -> H <= Int.max_int -> W <= Int.max_int ->
  cellularAutomata fuel seed m W H R U = Done out \/
  cellularAutomata_inplace fuel seed m W H R U = Done out ->
  forall i j v, get out i j = Done v -> v = 0 \/ v = 1.
Proof.
  intros Hs HH HW E.
  assert (Hout : grid_shape out H W /\
    forall i j, 0 <= i < H -> 0 <= j < W ->
      exists v, get out i j = Done v /\ (v = 0 \/ v = 1)).
  { destruct E as [E|E].
    - apply (sweep_partial fuel (fun _ i j => countOnes fuel m W H R i j)
        (fun c => applyRule c R U) (fun v => v = 0 \/ v = 1) m W H out Hs HH HW);
        [intros c; apply applyRule_binary|exact E].
    - apply (sweep_partial fuel (fun s i j => countOnes fuel s W H R i j)
        (fun c => applyRule c R U) (fun v => v = 0 \/ v = 1) m W H out Hs HH HW);
        [intros c; apply applyRule_binary|exact E]. }
  destruct Hout as [Hso Hout]. intros i j v Hv.
  destruct (get_bounds out H W i j v Hso Hv) as [Hi Hj].
  destruct (Hout i j Hi Hj) as (v' & Hv' & Hbin). congruence.
Qed.

End CellularAutomata.

(** C7: [cellularAutomata] (either copy) returns the same grid whatever the
    clock reads when it seeds its engine, and whatever engine it constructs:
    the engine is never drawn from. *)
Theorem cellularAutomata_deterministic {D G1 G2 : Type} {double_ops : Double D}
    (random1 : RandomSource G1 D) (random2 : RandomSource G2 D)
    (fuel : nat) (seed1 seed2 : Z) (m : Map) (W H R : Z) (U : D) :
  cellularAutomata (random := random1) fuel seed1 m W H R U =
  cellularAutomata (random := random2) fuel seed2 m W H R U /\
  cellularAutomata_inplace (random := random1) fuel seed1 m W H R U =
  cellularAutomata_inplace (random := random2) fuel seed2 m W H R U.
Proof. split; reflexivity. Qed.

(** ** drunkAgent *)

Section DrunkAgentFacts.

Context {D G : Type} {double_ops : Double D} {random : RandomSource G D}.

Variables (W H J I roomSizeX roomSizeY : Z).
Variables (probGenerateRoom probIncreaseRoom : D).
Variables (probChangeDirection probIncreaseChange : D).

Local Abbreviation carve := (carveRoom W H roomSizeX roomSizeY).
Local Abbreviation step :=
  (agentStep W H roomSizeX roomSizeY probGenerateRoom probIncreaseRoom
     probChangeDirection probIncreaseChange).

(** What a grid that received some writes of the value 1 has to do with the
    grid before them. *)
Definition carved (m m' : Map) : Prop :=
  (forall i j, get m i j = Done 1 -> get m' i j = Done 1) /\
  (forall i j v, get m' i j = Done v -> v = 1 \/ get m i j = Done v) /\
  (forall H' W', grid_shape m H' W' -> grid_shape m' H' W').

Lemma carved_refl m : carved m m.
Proof. split; [|split]; auto. Qed.

Lemma carved_trans m1 m2 m3 : carved m1 m2 -> carved m2 m3 -> carved m1 m3.
Proof.
  intros (A1 & B1 & C1) (A2 & B2 & C2). split; [|split]; auto.
  intros i j v Hv. destruct (B2 i j v Hv) as [->|Hv2]; auto.
Qed.

Lemma carved_set m m' x y : set m x y 1 = Done m' -> carved m m'.
Proof.
  intros E. split; [|split].
  - intros i j Hij. destruct (decide ((i, j) = (x, y))) as [[= -> ->]|Hne].
    + eapply get_set_eq, E.
    + rewrite (get_set_ne _ _ _ _ _ _ _ E Hne). exact Hij.
  - intros i j v Hv. destruct (decide ((i, j) = (x, y))) as [[= -> ->]|Hne].
    + rewrite (get_set_eq _ _ _ _ _ E) in Hv. injection Hv as <-. auto.
    + rewrite (get_set_ne _ _ _ _ _ _ _ E Hne) in Hv. auto.
  - intros H' W' Hs. eapply set_shape; eauto.
Qed.

(** A room, when its loops return, is carved into the grid, and every index
    it wrote lies in the grid. *)
Lemma carveRoom_Done fuel x0 y0 m w m' w' :
  carve fuel x0 y0 (m, w) = Done (m', w') ->
  carved m m' /\
  forall H' W', grid_shape m H' W' ->
    Forall (in_bounds H' W') w -> Forall (in_bounds H' W') w'.
Proof.
  unfold carveRoom. intros E.
  apply (for_loop_inv (fun s : Map * list (Z * Z) =>
    carved m (fst s) /\
    forall H' W', grid_shape m H' W' ->
      Forall (in_bounds H' W') w -> Forall (in_bounds H' W') (snd s))) in E.
  - exact E.
  - clear E. intros x s s' Hs E.
    apply (for_loop_inv (fun s : Map * list (Z * Z) =>
      carved m (fst s) /\
      forall H' W', grid_shape m H' W' ->
        Forall (in_bounds H' W') w -> Forall (in_bounds H' W') (snd s))) in E.
    + exact E.
    + clear. intros y [m1 w1] [m2 w2] [Hc Hw] E. bind_inv E.
      injection E as <- <-. simpl in *. split.
      * eapply carved_trans; [exact Hc|]. eapply carved_set; eauto.
      * intros H' W' Hs Hall. apply Forall_app. split; [eauto|].
        constructor; [|constructor].
        eapply (set_bounds m1); [|exact E0]. apply Hc. exact Hs.
    + exact Hs.
  - simpl. split; [apply carved_refl|auto].
Qed.

(** The facts of one step that the properties of a run are made of. *)
Record step_facts (fuel : nat) (dir : Z) (a a' : @agent D G) (e : @step_log D)
    : Prop := {
  sf_log : log a' = log a ++ [e];
  sf_at : at_pos e = (agentX a, agentY a);
  sf_dir : direction e = dir;
  sf_to : to_pos e = (agentX a', agentY a');
  sf_room_before : probRoom_before e = currentProbRoom a;
  sf_room_after : probRoom_after e = currentProbRoom a';
  sf_change_before : probChange_before e = currentProbChange a;
  sf_change_after : probChange_after e = currentProbChange a';
  sf_room :
    if room_fired e then probRoom_after e = probGenerateRoom
    else probRoom_after e = dadd (probRoom_before e) probIncreaseRoom;
  sf_change :
    if change_fired e || bounced e then probChange_after e = probChangeDirection
    else probChange_after e = dadd (probChange_before e) probIncreaseChange;
  sf_move : to_pos e = at_pos e \/ in_bounds H W (to_pos e);
  sf_carved : carved (newMap a) (newMap a');
  sf_written : forall H' W', grid_shape (newMap a) H' W' ->
    Forall (in_bounds H' W') (written e)
}.

Lemma agentStep_Done fuel dir (a : @agent D G) dir' a' :
  step fuel (dir, a) = Done (dir', a') ->
  exists e, step_facts fuel dir a a' e.
Proof.
  unfold agentStep. intros E.
  bind_inv E. rename a0 into m1, E0 into Eset.
  destruct (distProb (gen a)) as [roll1 g1].
  assert (Hroom : exists m2 w probRoom fired,
    (if dlt roll1 (currentProbRoom a)
     then '(m, w) <- carve fuel (agentX a) (agentY a)
                       (m1, [(agentX a, agentY a)]) ;;
          Done (m, w, probGenerateRoom, true)
     else Done (m1, [(agentX a, agentY a)],
                dadd (currentProbRoom a) probIncreaseRoom, false))
    = Done (m2, w, probRoom, fired) /\
    carved (newMap a) m2 /\
    (forall H' W', grid_shape (newMap a) H' W' -> Forall (in_bounds H' W') w) /\
    (if fired then probRoom = probGenerateRoom
     else probRoom = dadd (currentProbRoom a) probIncreaseRoom)).
  { pose proof (carved_set _ _ _ _ Eset) as Hc1.
    assert (Hw1 : forall H' W', grid_shape (newMap a) H' W' ->
              Forall (in_bounds H' W') [(agentX a, agentY a)]).
    { intros H' W' Hs. constructor; [|constructor].
      eapply set_bounds; eauto. }
    destruct (dlt roll1 (currentProbRoom a)).
    - destruct (carve fuel (agentX a) (agentY a) (m1, [(agentX a, agentY a)]))
        as [[m2 w]| |] eqn:Ec; simpl in E; try discriminate.
      apply carveRoom_Done in Ec as [Hc2 Hw2].
      exists m2, w, probGenerateRoom, true. simpl.
      split; [reflexivity|]. split; [eapply carved_trans; eauto|].
      split; [|reflexivity].
      intros H' W' Hs. eapply Hw2; [apply Hc1; exact Hs|]. auto.
    - exists m1, [(agentX a, agentY a)],
        (dadd (currentProbRoom a) probIncreaseRoom), false. auto. }
  destruct Hroom as (m2 & w & probRoom & fired & Eroom & Hc & Hw & Hpr).
  rewrite Eroom in E. simpl in E. clear Eroom.
  destruct (distProb g1) as [roll2 g2].
  destruct (dlt roll2 (currentProbChange a)) eqn:Hroll2.
  - destruct (distDirection g2) as [d g3].
    bind_inv E. destruct a0 as [dx dy].
    destruct ((0 <=? Int.add (agentX a) dx) && (Int.add (agentX a) dx <? H) &&
              (0 <=? Int.add (agentY a) dy) && (Int.add (agentY a) dy <? W)) eqn:Hin.
    + injection E as <- <-. eexists. constructor; simpl; try reflexivity; auto.
      right. unfold in_bounds. simpl. lia.
    + destruct (distDirection g3) as [d' g4].
      injection E as <- <-. eexists. constructor; simpl; try reflexivity; auto.
  - bind_inv E. destruct a0 as [dx dy].
    destruct ((0 <=? Int.add (agentX a) dx) && (Int.add (agentX a) dx <? H) &&
              (0 <=? Int.add (agentY a) dy) && (Int.add (agentY a) dy <? W)) eqn:Hin.
    + injection E as <- <-. eexists. constructor; simpl; try reflexivity; auto.
      right. unfold in_bounds. simpl. lia.
    + destruct (distDirection g2) as [d' g4].
      injection E as <- <-. eexists. constructor; simpl; try reflexivity; auto.
Qed.

Local Abbreviation walk :=
  (agentWalk W H I roomSizeX roomSizeY probGenerateRoom probIncreaseRoom
     probChangeDirection probIncreaseChange).
Local Abbreviation run :=
  (drunkAgent_run W H J I roomSizeX roomSizeY probGenerateRoom probIncreaseRoom
     probChangeDirection probIncreaseChange).
Local Abbreviation init := (agentInit probGenerateRoom probChangeDirection).

(** The agent with another engine, as at the start of a walk. *)
Definition with_gen (a : @agent D G) (g : G) : @agent D G :=
  {| newMap := newMap a; agentX := agentX a; agentY := agentY a; gen := g;
     currentProbRoom := currentProbRoom a;
     currentProbChange := currentProbChange a; log := log a |}.

(** Partial correctness of a run: what holds at the start, does not depend on
    the engine and is preserved by a step, holds when the run returns. *)
Lemma drunkAgent_run_inv (P : @agent D G -> Prop) fuel seed m x y a :
  P (init seed m x y) ->
  (forall a g, P a -> P (with_gen a g)) ->
  (forall dir a a' e, P a -> step_facts fuel dir a a' e -> P a') ->
  run fuel seed m x y = Done a -> P a.
Proof.
  intros Hinit Hgen Hstep E. unfold drunkAgent_run in E.
  apply (for_loop_inv P) in E; [exact E| |exact Hinit].
  clear E. intros _ a1 a2 Ha1 E. unfold agentWalk in E.
  destruct (distDirection (gen a1)) as [d g]. bind_inv E.
  destruct a0 as [d' a3]. injection E as <-.
  apply (for_loop_inv (fun st => P (snd st))) in E0; [exact E0| |].
  - clear E0. intros _ [d1 b1] [d2 b2] Hb1 E. simpl in *.
    apply agentStep_Done in E as [e He]. eapply Hstep; eauto.
  - simpl. apply (Hgen a1 g Ha1).
Qed.

(** A room on a grid of the shape [H] by [W] is carved without leaving it. *)
Lemma carveRoom_returns fuel x0 y0 m w :
  grid_shape m H W -> H <= Int.max_int -> W <= Int.max_int ->
  (Z.to_nat H < fuel)%nat -> (Z.to_nat W < fuel)%nat ->
  exists s', carve fuel x0 y0 (m, w) = Done s'.
Proof.
  intros Hs HH HW HfH HfW. unfold carveRoom.
  assert (H0 : 0 <= H) by (destruct Hs as [<- _]; lia).
  destruct (Z_le_gt_dec H 0) as [Hz|Hpos].
  { (* no row: the loop over the rows has nothing to run over *)
    assert (Int.sub H 1 = -1) as ->.
    { rewrite sub_small; unfold Int.in_range, Int.min_int, Int.max_int in *; lia. }
    rewrite (for_loop_le _ _ (Z.min (-1) (Int.add x0 (Int.div roomSizeX 2))));
      [|auto|unfold Int.max_int; lia|unfold Int.min_int; lia|lia].
    rewrite seqZ_nil by lia. simpl. eauto. }
  assert (HW0 : 0 <= W).
  { destruct Hs as [Hlen Hall].
    destruct (lookup_lt_is_Some_2 m 0%nat) as [row Hrow]; [lia|].
    pose proof (Forall_lookup_1 _ _ _ _ Hall Hrow) as Hw. simpl in Hw. lia. }
  assert (Int.sub H 1 = H - 1) as ->.
  { rewrite sub_small; unfold Int.in_range, Int.min_int, Int.max_int in *; lia. }
  assert (Int.sub W 1 = W - 1) as ->.
  { rewrite sub_small; unfold Int.in_range, Int.min_int, Int.max_int in *; lia. }
  set (startX := Z.max 0 (Int.sub x0 (Int.div roomSizeX 2))).
  set (endX := Z.min (H - 1) (Int.add x0 (Int.div roomSizeX 2))).
  set (startY := Z.max 0 (Int.sub y0 (Int.div roomSizeY 2))).
  set (endY := Z.min (W - 1) (Int.add y0 (Int.div roomSizeY 2))).
  rewrite (for_loop_le _ _ endX);
    [|auto|unfold Int.max_int in *; lia|unfold Int.min_int; lia|lia].
  destruct (foldM_total (fun s : Map * list (Z * Z) => grid_shape (fst s) H W)
    (fun x s => for_loop fuel (fun y => y <=? endY) (fun y '(m, w) =>
       m' <- set m x y 1 ;; Done (m', w ++ [(x, y)])) startY s)
    (seqZ startX (endX + 1 - startX))) with (s := (m, w)) as (s' & E & _);
    [|exact Hs|eauto].
  intros x s Hx Hss. apply elem_of_seqZ in Hx.
  rewrite (for_loop_le _ _ endY);
    [|auto|unfold Int.max_int in *; lia|unfold Int.min_int; lia|lia].
  apply (foldM_total (fun s : Map * list (Z * Z) => grid_shape (fst s) H W));
    [|exact Hss].
  intros y [m1 w1] Hy Hs1. apply elem_of_seqZ in Hy. simpl in Hs1.
  destruct (set_inside m1 H W x y 1 Hs1) as [m2 E2]; [lia..|].
  rewrite E2. simpl. eexists. split; [reflexivity|]. simpl.
  eapply set_shape; eauto.
Qed.

Lemma directions_inside dir :
  0 <= dir <= 3 -> exists dx dy, index directions dir = Done (dx, dy).
Proof.
  intros Hd.
  assert (dir = 0 \/ dir = 1 \/ dir = 2 \/ dir = 3) as [-> | [-> | [-> | ->]]] by lia;
    simpl; eauto.
Qed.

Lemma distDirection_range (g : G) : 0 <= fst (distDirection g) <= 3.
Proof. unfold distDirection. apply uniform_int_range. lia. Qed.

(** A step from a position in the grid returns. *)
Lemma agentStep_returns fuel dir (a : @agent D G) :
  grid_shape (newMap a) H W -> H <= Int.max_int -> W <= Int.max_int ->
  in_bounds H W (agentX a, agentY a) -> 0 <= dir <= 3 ->
  (Z.to_nat H < fuel)%nat -> (Z.to_nat W < fuel)%nat ->
  exists dir' a', step fuel (dir, a) = Done (dir', a') /\ 0 <= dir' <= 3.
Proof.
  intros Hs HH HW [Hx Hy] Hd HfH HfW. simpl in Hx, Hy. unfold agentStep.
  destruct (set_inside (newMap a) H W (agentX a) (agentY a) 1 Hs Hx Hy) as [m1 E1].
  rewrite E1. simpl.
  pose proof (set_shape _ _ _ _ _ _ _ Hs E1) as Hs1.
  destruct (distProb (gen a)) as [roll1 g1].
  assert (Hroom : exists r,
    (if dlt roll1 (currentProbRoom a)
     then '(m, w) <- carve fuel (agentX a) (agentY a)
                       (m1, [(agentX a, agentY a)]) ;;
          Done (m, w, probGenerateRoom, true)
     else Done (m1, [(agentX a, agentY a)],
                dadd (currentProbRoom a) probIncreaseRoom, false)) = Done r).
  { destruct (dlt roll1 (currentProbRoom a)); [|eauto].
    destruct (carveRoom_returns fuel (agentX a) (agentY a) m1
      [(agentX a, agentY a)] Hs1 HH HW HfH HfW) as [[m2 w2] E2].
    rewrite E2. simpl. eauto. }
  destruct Hroom as [[[[m2 w2] pr] fired] Er]. rewrite Er. simpl.
  destruct (distProb g1) as [roll2 g2].
  destruct (dlt roll2 (currentProbChange a)).
  - pose proof (distDirection_range g2) as Hd2.
    destruct (distDirection g2) as [d g3]. simpl in Hd2.
    destruct (directions_inside d Hd2) as (dx & dy & Ed). rewrite Ed. simpl.
    destruct ((0 <=? Int.add (agentX a) dx) && (Int.add (agentX a) dx <? H) &&
              (0 <=? Int.add (agentY a) dy) && (Int.add (agentY a) dy <? W)).
    + eauto.
    + pose proof (distDirection_range g3) as Hd3.
      destruct (distDirection g3) as [d' g4]. simpl in Hd3. eauto.
  - destruct (directions_inside dir Hd) as (dx & dy & Ed). rewrite Ed. simpl.
    destruct ((0 <=? Int.add (agentX a) dx) && (Int.add (agentX a) dx <? H) &&
              (0 <=? Int.add (agentY a) dy) && (Int.add (agentY a) dy <? W)).
    + eauto.
    + pose proof (distDirection_range g2) as Hd3.
      destruct (distDirection g2) as [d' g4]. simpl in Hd3. eauto.
Qed.

(** What a step keeps: the shape of the grid and a position inside it. *)
Definition safe (a : @agent D G) : Prop :=
  grid_shape (newMap a) H W /\ in_bounds H W (agentX a, agentY a).

Lemma step_facts_safe fuel dir a a' e :
  safe a -> step_facts fuel dir a a' e -> safe a'.
Proof.
  intros [Hs Hp] F. split.
  - apply (sf_carved _ _ _ _ _ F). exact Hs.
  - rewrite <- (sf_to _ _ _ _ _ F).
    destruct (sf_move _ _ _ _ _ F) as [->|Hin]; [|exact Hin].
    rewrite (sf_at _ _ _ _ _ F). exact Hp.
Qed.

(** A run from a position in the grid returns, after [J] walks of [I] steps. *)
Lemma drunkAgent_run_returns fuel seed m x y :
  grid_shape m H W -> H <= Int.max_int -> W <= Int.max_int ->
  in_bounds H W (x, y) -> J <= Int.max_int -> I <= Int.max_int ->
  (Z.to_nat H < fuel)%nat -> (Z.to_nat W < fuel)%nat ->
  (Z.to_nat J < fuel)%nat -> (Z.to_nat I < fuel)%nat ->
  exists a, run fuel seed m x y = Done a /\
    Z.of_nat (length (log a)) = Z.max 0 J * Z.max 0 I.
Proof.
  intros Hs HH HW Hp HJ HI HfH HfW HfJ HfI. unfold drunkAgent_run.
  rewrite (for_loop_lt _ _ J) by (auto; unfold Int.min_int; lia).
  rewrite Z.sub_0_r.
  destruct (foldM_seqZ_max
    (fun k a => safe a /\ Z.of_nat (length (log a)) = k * Z.max 0 I)
    (fun _ a => walk fuel a) 0 J) with (s := init seed m x y)
    as (a & E & _ & Hlen).
  - intros k a Hk [Hsafe Hlen]. unfold agentWalk.
    pose proof (distDirection_range (gen a)) as Hd.
    destruct (distDirection (gen a)) as [d g]. simpl in Hd.
    rewrite (for_loop_lt _ _ I) by (auto; unfold Int.min_int; lia).
    rewrite Z.sub_0_r.
    destruct (foldM_seqZ_max
      (fun s (st : Z * @agent D G) => 0 <= fst st <= 3 /\ safe (snd st) /\
         Z.of_nat (length (log (snd st))) = k * Z.max 0 I + s)
      (fun _ st => step fuel st) 0 I) with (s := (d, with_gen a g))
      as ([d' a'] & E' & _ & Hsafe' & Hlen').
    + intros s [d1 b1] Hs1 (Hd1 & Hsafe1 & Hlen1). simpl in *.
      destruct Hsafe1 as [Hsh1 Hp1].
      destruct (agentStep_returns fuel d1 b1 Hsh1 HH HW Hp1 Hd1 HfH HfW)
        as (d2 & b2 & E2 & Hd2).
      exists (d2, b2). split; [exact E2|]. simpl. split; [exact Hd2|].
      destruct (agentStep_Done _ _ _ _ _ E2) as [e He].
      split; [eapply step_facts_safe; [split|]; eauto|].
      rewrite (sf_log _ _ _ _ _ He). rewrite length_app. simpl. lia.
    + simpl. split; [exact Hd|]. split; [exact Hsafe|]. lia.
    + unfold with_gen in E'. rewrite E'. simpl. exists a'. split; [reflexivity|].
      split; [exact Hsafe'|]. simpl in Hlen'. lia.
  - simpl. split; [split; assumption|]. lia.
  - exists a. split; [exact E|]. lia.
Qed.

Local Abbreviation agent_call :=
  (drunkAgent W H J I roomSizeX roomSizeY probGenerateRoom probIncreaseRoom
     probChangeDirection probIncreaseChange).

(** C3: from a position inside a grid of [H] rows and [W] columns, the run
    returns after its [J] walks of [I] steps, and in every step the position
    of the agent before and after it and every index written into the grid
    (the corridor mark and the cells of a room) lie in [[0,H) x [0,W)]. *)
Theorem drunkAgent_bounds fuel seed m x y :
  grid_shape m H W -> H <= Int.max_int -> W <= Int.max_int ->
  in_bounds H W (x, y) -> J <= Int.max_int -> I <= Int.max_int ->
  (Z.to_nat H < fuel)%nat -> (Z.to_nat W < fuel)%nat ->
  (Z.to_nat J < fuel)%nat -> (Z.to_nat I < fuel)%nat ->
  exists a, run fuel seed m x y = Done a /\
    Z.of_nat (length (log a)) = Z.max 0 J * Z.max 0 I /\
    in_bounds H W (agentX a, agentY a) /\
    Forall (step_in_bounds H W) (log a).
Proof.
  intros Hs HH HW Hp HJ HI HfH HfW HfJ HfI.
  destruct (drunkAgent_run_returns fuel seed m x y Hs HH HW Hp HJ HI
    HfH HfW HfJ HfI) as (a & E & Hlen).
  exists a. split; [exact E|]. split; [exact Hlen|].
  apply (drunkAgent_run_inv
    (fun a => safe a /\ Forall (step_in_bounds H W) (log a))) in E.
  - destruct E as [[_ Hpos] Hall]. auto.
  - simpl. split; [split; assumption|constructor].
  - intros b g Hb. exact Hb.
  - intros dir b b' e [Hsafe Hall] F.
    pose proof (step_facts_safe _ _ _ _ _ Hsafe F) as Hsafe'.
    split; [exact Hsafe'|].
    rewrite (sf_log _ _ _ _ _ F). apply Forall_app. split; [exact Hall|].
    constructor; [|constructor]. unfold step_in_bounds.
    rewrite (sf_at _ _ _ _ _ F), (sf_to _ _ _ _ _ F).
    destruct Hsafe as [Hsh Hpos], Hsafe' as [_ Hpos'].
    repeat split; try apply Hpos; try apply Hpos'.
    apply (sf_written _ _ _ _ _ F). exact Hsh.
Qed.

(** C9: in the grid [drunkAgent] returns, every cell that held 1 in the grid
    passed in holds 1, and every other cell holds 1 or what it held. *)
Theorem drunkAgent_monotone fuel seed r ret r' :
  agent_call fuel seed r = Done (ret, r') ->
  (forall i j, get (ref_currentMap r) i j = Done 1 -> get ret i j = Done 1) /\
  (forall i j v, get ret i j = Done v ->
     v = 1 \/ get (ref_currentMap r) i j = Done v).
Proof.
  unfold drunkAgent. intros E. bind_inv E. injection E as <- <-.
  apply (drunkAgent_run_inv (fun a => carved (ref_currentMap r) (newMap a))) in E0.
  - destruct E0 as (Hup & Hdown & _). auto.
  - apply carved_refl.
  - intros b g Hb. exact Hb.
  - intros dir b b' e Hb F. eapply carved_trans; [exact Hb|].
    apply (sf_carved _ _ _ _ _ F).
Qed.

(** C4, as the code has it: [drunkAgent] leaves the grid object passed as its
    first argument as it was, and returns the carved grid, a copy of it with
    the cells the agent wrote set to 1; the position referenced by [agentX]
    and [agentY] is left at the position the last step ended at. *)
Theorem drunkAgent_returns_copy fuel seed r ret r' :
  agent_call fuel seed r = Done (ret, r') ->
  ref_currentMap r' = ref_currentMap r /\
  exists a,
    run fuel seed (ref_currentMap r) (ref_agentX r) (ref_agentY r) = Done a /\
    ret = newMap a /\
    pos_of r' = final_pos (pos_of r) (log a).
Proof.
  unfold drunkAgent. intros E. bind_inv E. injection E as <- <-.
  split; [reflexivity|]. exists a. split; [exact E0|]. split; [reflexivity|].
  unfold pos_of. simpl.
  apply (drunkAgent_run_inv
    (fun a => (agentX a, agentY a) =
              final_pos (ref_agentX r, ref_agentY r) (log a))) in E0.
  - exact E0.
  - reflexivity.
  - intros b g Hb. exact Hb.
  - intros dir b b' e _ F. rewrite (sf_log _ _ _ _ _ F).
    unfold final_pos. rewrite last_snoc. symmetry. apply (sf_to _ _ _ _ _ F).
Qed.



(** With enough fuel no loop of the agent runs out of it. *)
Lemma carveRoom_fuel fuel x0 y0 s :
  0 <= H <= Int.max_int -> 0 <= W <= Int.max_int ->
  (Z.to_nat H < fuel)%nat -> (Z.to_nat W < fuel)%nat ->
  carve fuel x0 y0 s <> OutOfFuel.
Proof.
  intros HH HW HfH HfW. unfold carveRoom.
  assert (Int.sub H 1 = H - 1) as ->.
  { rewrite sub_small; unfold Int.in_range, Int.min_int, Int.max_int in *; lia. }
  assert (Int.sub W 1 = W - 1) as ->.
  { rewrite sub_small; unfold Int.in_range, Int.min_int, Int.max_int in *; lia. }
  apply (for_loop_le_fuel _ _
    (Z.min (H - 1) (Int.add x0 (Int.div roomSizeX 2))));
    [auto|unfold Int.max_int in *; lia| |unfold Int.min_int; lia|lia].
  intros x s1.
  apply (for_loop_le_fuel _ _
    (Z.min (W - 1) (Int.add y0 (Int.div roomSizeY 2))));
    [auto|unfold Int.max_int in *; lia| |unfold Int.min_int; lia|lia].
  intros y [m1 w1]. apply bind_not_OutOfFuel; [apply set_not_OutOfFuel|].
  intros m2. discriminate.
Qed.

Lemma agentStep_fuel fuel st :
  0 <= H <= Int.max_int -> 0 <= W <= Int.max_int ->
  (Z.to_nat H < fuel)%nat -> (Z.to_nat W < fuel)%nat ->
  step fuel st <> OutOfFuel.
Proof.
  intros HH HW HfH HfW. destruct st as [dir a]. unfold agentStep.
  apply bind_not_OutOfFuel; [apply set_not_OutOfFuel|]. intros m1.
  destruct (distProb (gen a)) as [roll1 g1].
  apply bind_not_OutOfFuel.
  - destruct (dlt roll1 (currentProbRoom a)); [|discriminate].
    apply bind_not_OutOfFuel; [apply carveRoom_fuel; assumption|].
    intros [m2 w2]. discriminate.
  - intros [[[m2 w2] pr] fired].
    destruct (distProb g1) as [roll2 g2].
    destruct (dlt roll2 (currentProbChange a)).
    + destruct (distDirection g2) as [d g3].
      apply bind_not_OutOfFuel; [apply index_not_OutOfFuel|].
      intros [dx dy].
      destruct ((0 <=? Int.add (agentX a) dx) && (Int.add (agentX a) dx <? H) &&
                (0 <=? Int.add (agentY a) dy) && (Int.add (agentY a) dy <? W));
        [discriminate|].
      destruct (distDirection g3) as [d' g4]. discriminate.
    + apply bind_not_OutOfFuel; [apply index_not_OutOfFuel|].
      intros [dx dy].
      destruct ((0 <=? Int.add (agentX a) dx) && (Int.add (agentX a) dx <? H) &&
                (0 <=? Int.add (agentY a) dy) && (Int.add (agentY a) dy <? W));
        [discriminate|].
      destruct (distDirection g2) as [d' g4]. discriminate.
Qed.

Lemma drunkAgent_fuel fuel seed r :
  0 <= H <= Int.max_int -> 0 <= W <= Int.max_int ->
  J <= Int.max_int -> I <= Int.max_int ->
  (Z.to_nat H < fuel)%nat -> (Z.to_nat W < fuel)%nat ->
  (Z.to_nat J < fuel)%nat -> (Z.to_nat I < fuel)%nat ->
  agent_call fuel seed r <> OutOfFuel.
Proof.
  intros HH HW HJ HI HfH HfW HfJ HfI. unfold drunkAgent.
  apply bind_not_OutOfFuel; [|intros a; discriminate].
  unfold drunkAgent_run.
  apply (for_loop_lt_fuel _ _ J); [auto|exact HJ| |unfold Int.min_int; lia|lia].
  intros _ a. unfold agentWalk. destruct (distDirection (gen a)) as [d g].
  apply bind_not_OutOfFuel; [|intros [d' a']; discriminate].
  apply (for_loop_lt_fuel _ _ I); [auto|exact HI| |unfold Int.min_int; lia|lia].
  intros _ st. apply agentStep_fuel; assumption.
Qed.

(** No walk or no step: the grid and the position come back as they were. *)
Lemma drunkAgent_no_op fuel seed r :
  J = 0 \/ I = 0 -> 0 <= J <= Int.max_int -> (Z.to_nat J < fuel)%nat ->
  agent_call fuel seed r = Done (ref_currentMap r, r).
Proof.
  intros Hz HJ HfJ. unfold drunkAgent, drunkAgent_run.
  rewrite (for_loop_lt _ _ J) by (auto; unfold Int.min_int; lia).
  rewrite Z.sub_0_r.
  destruct (foldM_seqZ_max
    (fun _ a => newMap a = ref_currentMap r /\ agentX a = ref_agentX r /\
                agentY a = ref_agentY r)
    (fun _ a => walk fuel a) 0 J) with
    (s := init seed (ref_currentMap r) (ref_agentX r) (ref_agentY r))
    as (a & E & Hm & Hx & Hy).
  - intros k a Hk Ha. assert (HI : I = 0) by lia. unfold agentWalk.
    destruct (distDirection (gen a)) as [d g].
    destruct fuel as [|f]; [lia|]. rewrite for_loop_S.
    replace (0 <? I) with false by lia. simpl. eexists. split; [reflexivity|].
    exact Ha.
  - simpl. auto.
  - rewrite E. simpl. rewrite Hm, Hx, Hy. destruct r. reflexivity.
Qed.

End DrunkAgentFacts.

(** ** Addition in binary64

    [double] is IEEE 754 binary64, whose addition the Standard Library
    specifies by [SFadd] on [spec_float]: the exact sum rounded to nearest,
    ties to even.  What is needed of it is that adding a number that is not
    negative does not decrease. *)

Lemma digits2_size p : digits2_pos p = Pos.size p.
Proof. induction p; simpl; congruence. Qed.

Lemma digits_bounds (m : positive) :
  2 ^ (Zpos (digits2_pos m) - 1) <= Zpos m < 2 ^ Zpos (digits2_pos m).
Proof.
  rewrite digits2_size.
  pose proof (Pos.size_gt m) as Hgt. pose proof (Pos.size_le m) as Hle.
  apply Pos2Z.pos_lt_pos in Hgt. apply Pos2Z.pos_le_pos in Hle.
  rewrite Pos2Z.inj_pow in Hgt, Hle. rewrite (Pos2Z.inj_xO m) in Hle.
  split; [|exact Hgt].
  replace (Zpos (Pos.size m)) with (Zpos (Pos.size m) - 1 + 1) in Hle by lia.
  rewrite Z.pow_add_r in Hle by lia. lia.
Qed.

Lemma pow2_pos k : 0 <= k -> 0 < 2 ^ k.
Proof. intros Hk. apply Z.pow_pos_nonneg; lia. Qed.

Lemma magnitude_le (a b : positive) (ea eb e0 : Z) :
  e0 <= ea -> e0 <= eb ->
  Zpos a * 2 ^ (ea - e0) <= Zpos b * 2 ^ (eb - e0) ->
  Zpos (digits2_pos a) + ea <= Zpos (digits2_pos b) + eb.
Proof.
  intros Ha Hb Hab.
  pose proof (digits_bounds a) as [Hla _]. pose proof (digits_bounds b) as [_ Hub].
  assert (H : 2 ^ (Zpos (digits2_pos a) - 1 + (ea - e0)) <
              2 ^ (Zpos (digits2_pos b) + (eb - e0))).
  { rewrite !Z.pow_add_r by lia.
    pose proof (pow2_pos (ea - e0)). pose proof (pow2_pos (eb - e0)). nia. }
  apply (Z.pow_lt_mono_r_iff 2) in H; lia.
Qed.

Lemma pos_iter_xO (m d : positive) : Zpos (Pos.iter xO m d) = Zpos m * 2 ^ Zpos d.
Proof.
  induction d as [|d IH] using Pos.peano_ind.
  - simpl. lia.
  - rewrite Pos.iter_succ, Pos2Z.inj_succ, Z.pow_succ_r by lia.
    rewrite (Pos2Z.inj_xO (Pos.iter xO m d)), IH. lia.
Qed.

Lemma shl_align_spec m e e' :
  snd (shl_align m e e') = Z.min e e' /\
  Zpos (fst (shl_align m e e')) = Zpos m * 2 ^ (e - Z.min e e').
Proof.
  unfold shl_align. destruct (e' - e) as [|p|p] eqn:E; simpl.
  - replace (Z.min e e') with e by lia. rewrite Z.sub_diag. simpl. lia.
  - replace (Z.min e e') with e by lia. rewrite Z.sub_diag. simpl. lia.
  - replace (Z.min e e') with e' by lia. rewrite pos_iter_xO.
    replace (e - e') with (Zpos p) by lia. auto.
Qed.

(** What [k] shifts make of a record that started from the integer [x]: the
    quotient by [2 ^ k], and no round or sticky bit unless a remainder was
    shifted out. *)
Definition shifted (x k : Z) (mrs : shr_record) : Prop :=
  shr_m mrs = x / 2 ^ k /\
  (x mod 2 ^ k = 0 -> shr_r mrs = false /\ shr_s mrs = false).

Lemma shifted_1 x k mrs :
  0 <= x -> 0 <= k -> shifted x k mrs -> shifted x (k + 1) (shr_1 mrs).
Proof.
  intros Hx Hk [Hm Hz].
  assert (Hp : 0 < 2 ^ k) by (apply pow2_pos; lia).
  assert (Hm0 : 0 <= shr_m mrs) by (rewrite Hm; apply Z.div_pos; lia).
  assert (Hdiv : x / 2 ^ (k + 1) = shr_m mrs / 2).
  { rewrite Z.pow_add_r, Z.pow_1_r by lia. rewrite <- Z.div_div by lia. congruence. }
  split.
  - rewrite Hdiv. destruct mrs as [m r s]. simpl in *.
    destruct m as [| [p|p|] |p]; simpl; [reflexivity| | |reflexivity|lia].
    + rewrite (Pos2Z.inj_xI p). apply Z.div_unique with 1; lia.
    + rewrite (Pos2Z.inj_xO p). apply Z.div_unique with 0; lia.
  - intros Hmod.
    assert (Hx2 : x = 2 ^ k * (2 * (x / 2 ^ (k + 1)))).
    { pose proof (Z.div_mod x (2 ^ (k + 1))) as Hdm.
      rewrite Z.pow_add_r, Z.pow_1_r in * by lia. lia. }
    assert (Hmk : x mod 2 ^ k = 0).
    { rewrite Hx2, Z.mul_comm. apply Z_mod_mult. }
    assert (Hmeven : shr_m mrs = 2 * (x / 2 ^ (k + 1))).
    { rewrite Hm. rewrite Hx2 at 1. rewrite Z.mul_comm. apply Z_div_mult. lia. }
    destruct (Hz Hmk) as [Hr Hs].
    destruct mrs as [m r s]. cbn [shr_m shr_r shr_s] in *. subst r s.
    destruct m as [| [p|p|] |p]; simpl; auto.
    + rewrite (Pos2Z.inj_xI p) in Hmeven. lia.
    + lia.
    + lia.
Qed.

Lemma shifted_iter p : forall x k mrs,
  0 <= x -> 0 <= k -> shifted x k mrs ->
  shifted x (k + Zpos p) (SpecFloat.iter_pos shr_1 p mrs).
Proof.
  induction p as [p IH|p IH|]; intros x k mrs Hx Hk Hs; simpl.
  - replace (k + Zpos p~1) with (k + 1 + Zpos p + Zpos p) by lia.
    apply IH; [lia|lia|]. apply IH; [lia|lia|]. apply shifted_1; assumption.
  - replace (k + Zpos p~0) with (k + Zpos p + Zpos p) by lia.
    apply IH; [lia|lia|]. apply IH; assumption.
  - apply shifted_1; assumption.
Qed.

Lemma shr_exact_spec (x e n : Z) :
  0 <= x ->
  snd (shr (Build_shr_record x false false) e n) = e + Z.max n 0 /\
  shifted x (Z.max n 0) (fst (shr (Build_shr_record x false false) e n)).
Proof.
  intros Hx.
  assert (H0 : shifted x 0 (Build_shr_record x false false)).
  { split; simpl; [rewrite Z.div_1_r; reflexivity|auto]. }
  unfold shr. destruct n as [|p|p]; simpl.
  - split; [lia|exact H0].
  - split; [lia|]. apply (shifted_iter p x 0); [lia|lia|exact H0].
  - split; [lia|exact H0].
Qed.

Lemma round_nearest_even_bounds m l :
  m <= round_nearest_even m l <= m + 1 /\
  (l = loc_Exact -> round_nearest_even m l = m).
Proof.
  destruct l as [|[| |]]; simpl; try destruct (Z.even m); split; auto; try lia; discriminate.
Qed.

Lemma loc_exact mrs :
  shr_r mrs = false -> shr_s mrs = false -> loc_of_shr_record mrs = loc_Exact.
Proof. destruct mrs as [m r s]. simpl. intros -> ->. reflexivity. Qed.

Lemma pow2_le_1 k : k <= 0 -> 2 ^ k <= 1.
Proof.
  intros Hk. destruct (Z.eq_dec k 0) as [-> | Hn]; [simpl; lia|].
  rewrite Z.pow_neg_r by lia. lia.
Qed.

Lemma digits_unique (p : positive) (k : Z) :
  2 ^ (k - 1) <= Zpos p < 2 ^ k -> Zpos (digits2_pos p) = k.
Proof.
  intros [Hl Hu]. pose proof (digits_bounds p) as [Hl' Hu'].
  assert (Hk : 0 < k).
  { destruct (Z.lt_ge_cases 0 k) as [|Hk]; [assumption|].
    pose proof (pow2_le_1 k). lia. }
  assert (H1 : 2 ^ (k - 1) < 2 ^ Zpos (digits2_pos p)) by lia.
  assert (H2 : 2 ^ (Zpos (digits2_pos p) - 1) < 2 ^ k) by lia.
  apply (Z.pow_lt_mono_r_iff 2) in H1; [|lia|lia].
  apply (Z.pow_lt_mono_r_iff 2) in H2; [|lia|lia]. lia.
Qed.

Lemma digits_shift (p q : positive) (k : Z) :
  0 <= k -> Zpos q = Zpos p * 2 ^ k ->
  Zpos (digits2_pos q) = Zpos (digits2_pos p) + k.
Proof.
  intros Hk Hq. apply digits_unique. rewrite Hq.
  pose proof (digits_bounds p) as [Hl Hu]. pose proof (pow2_pos k Hk).
  replace (Zpos (digits2_pos p) + k - 1) with (Zpos (digits2_pos p) - 1 + k) by lia.
  rewrite !Z.pow_add_r by lia. nia.
Qed.

Section Rounding.

Variables prec emax : Z.
Hypothesis Hprec : 0 < prec.

Local Abbreviation fexp := (SpecFloat.fexp prec emax).
Local Abbreviation emin := (SpecFloat.emin prec emax).

(** [binary_round] in integers: the mantissa aligned on the exponent [fe] of
    the format, rounded, and shifted once more when the rounding carried. *)
Lemma binary_round_unfold (s : bool) (m : positive) (e : Z) :
  let fe := fexp (Zpos (digits2_pos m) + e) in
  let ez := Z.min e fe in
  let mz := Zpos m * 2 ^ (e - ez) in
  let n := fe - ez in
  exists m1 : Z,
    mz / 2 ^ n <= m1 <= mz / 2 ^ n + 1 /\
    (mz mod 2 ^ n = 0 -> m1 = mz / 2 ^ n) /\
    let n2 := Z.max (fexp (Zdigits2 m1 + fe) - fe) 0 in
    binary_round prec emax s m e =
    match m1 / 2 ^ n2 with
    | Z0 => S754_zero s
    | Zpos p =>
        if fe + n2 <=? emax - prec then S754_finite s p (fe + n2)
        else S754_infinity s
    | Zneg _ => S754_nan
    end.
Proof.
  intros fe ez mz n. unfold binary_round.
  change (fexp (Zpos (digits2_pos m) + e)) with fe.
  destruct (shl_align_spec m e fe) as [Hez Hmz].
  destruct (shl_align m e fe) as [mz' ez']. cbn [fst snd] in Hez, Hmz.
  fold ez in Hez, Hmz. fold mz in Hmz. subst ez'.
  assert (Hdig : Zpos (digits2_pos mz') + ez = Zpos (digits2_pos m) + e).
  { rewrite (digits_shift m mz' (e - ez)); [lia|lia|exact Hmz]. }
  unfold binary_round_aux, shr_fexp.
  cbn [shr_record_of_loc Zdigits2]. rewrite Hdig. fold fe. fold n.
  assert (Hn : 0 <= n) by (unfold n, ez; lia).
  destruct (shr_exact_spec (Zpos mz') ez n) as [He' Hsh]; [lia|].
  destruct (shr (Build_shr_record (Zpos mz') false false) ez n) as [mrs' e'].
  cbn [fst snd] in He', Hsh. rewrite Z.max_l in He', Hsh by lia.
  assert (He'fe : e' = fe) by (unfold n in He'; lia). clear He'. subst e'.
  destruct Hsh as [Hm0 Hex]. rewrite Hmz in Hm0, Hex.
  destruct (round_nearest_even_bounds (shr_m mrs') (loc_of_shr_record mrs'))
    as [Hb Hexact].
  set (m1 := round_nearest_even (shr_m mrs') (loc_of_shr_record mrs')) in *.
  exists m1. rewrite <- Hm0. split; [exact Hb|]. split.
  { intros Hmod. apply Hexact. destruct (Hex Hmod). apply loc_exact; assumption. }
  assert (Hm1 : 0 <= m1).
  { assert (0 <= shr_m mrs'); [|lia]. rewrite Hm0. apply Z.div_pos; [lia|].
    apply pow2_pos. exact Hn. }
  cbv zeta.
  destruct (shr_exact_spec m1 fe (fexp (Zdigits2 m1 + fe) - fe) Hm1) as [He2 Hsh2].
  destruct (shr (Build_shr_record m1 false false) fe (fexp (Zdigits2 m1 + fe) - fe))
    as [mrs2 e2].
  cbn [fst snd] in He2, Hsh2. destruct Hsh2 as [Hm2 _]. subst e2. rewrite Hm2.
  reflexivity.
Qed.

Lemma binary_round_cases (s : bool) (m : positive) (e fe ez mz n : Z) :
  fe = fexp (Zpos (digits2_pos m) + e) -> ez = Z.min e fe ->
  mz = Zpos m * 2 ^ (e - ez) -> n = fe - ez ->
  exists m1 n2 : Z,
    mz / 2 ^ n <= m1 <= mz / 2 ^ n + 1 /\
    (mz mod 2 ^ n = 0 -> m1 = mz / 2 ^ n) /\
    n2 = Z.max (fexp (Zdigits2 m1 + fe) - fe) 0 /\
    binary_round prec emax s m e =
    match m1 / 2 ^ n2 with
    | Z0 => S754_zero s
    | Zpos p =>
        if fe + n2 <=? emax - prec then S754_finite s p (fe + n2)
        else S754_infinity s
    | Zneg _ => S754_nan
    end.
Proof.
  intros -> -> -> ->.
  destruct (binary_round_unfold s m e) as (m1 & H1 & H2 & H3).
  exists m1. eexists. split; [exact H1|]. split; [exact H2|].
  split; [reflexivity|exact H3].
Qed.

(** The sign of a rounded number is the sign given, and it is a number. *)
Lemma binary_round_signed (s : bool) (m : positive) (e : Z) :
  match binary_round prec emax s m e with
  | S754_nan => False
  | S754_zero s' | S754_infinity s' | S754_finite s' _ _ => s' = s
  end.
Proof.
  destruct (binary_round_cases s m e _ _ _ _ eq_refl eq_refl eq_refl eq_refl)
    as (m1 & n2 & Hb & _ & Hn2 & ->).
  set (fe := fexp (Zpos (digits2_pos m) + e)) in *.
  set (ez := Z.min e fe) in *.
  assert (H0 : 0 <= Zpos m * 2 ^ (e - ez) / 2 ^ (fe - ez)).
  { apply Z.div_pos; [|apply pow2_pos; lia].
    pose proof (pow2_pos (e - ez)). lia. }
  assert (H2 : 0 <= m1 / 2 ^ n2).
  { apply Z.div_pos; [lia|apply pow2_pos; lia]. }
  destruct (m1 / 2 ^ n2); [reflexivity| |lia].
  destruct (fe + n2 <=? emax - prec); reflexivity.
Qed.

(** Rounding does not go below a number of the format that the exact value is
    not below. *)
Lemma binary_round_lower (mx m : positive) (ex e : Z) :
  fexp (Zpos (digits2_pos mx) + ex) = ex -> e <= ex ->
  Zpos mx * 2 ^ (ex - e) <= Zpos m ->
  match binary_round prec emax false m e with
  | S754_infinity false => True
  | S754_finite false m2 e2 => ex < e2 \/ (ex = e2 /\ (mx <= m2)%positive)
  | _ => False
  end.
Proof.
  intros Hcan He Hval.
  destruct (binary_round_cases false m e _ _ _ _ eq_refl eq_refl eq_refl eq_refl)
    as (m1 & n2 & Hb & _ & Hn2 & ->).
  set (fe := fexp (Zpos (digits2_pos m) + e)) in *.
  set (ez := Z.min e fe) in *.
  set (mz := Zpos m * 2 ^ (e - ez)) in *.
  set (n := fe - ez) in *.
  assert (Hmag : Zpos (digits2_pos mx) + ex <= Zpos (digits2_pos m) + e).
  { apply (magnitude_le mx m ex e e); [lia|lia|].
    rewrite Z.sub_diag. simpl (2 ^ 0). lia. }
  assert (Hfe : ex <= fe) by (unfold fe, SpecFloat.fexp in *; lia).
  assert (Hemin : emin <= ex) by (unfold SpecFloat.fexp in Hcan; lia).
  assert (Hfe_lt : fe < Zpos (digits2_pos m) + e).
  { unfold fe, SpecFloat.fexp. lia. }
  assert (Hn : 0 <= n) by (unfold n, ez; lia).
  assert (Hez : ez <= e) by (unfold ez; lia).
  pose proof (pow2_pos n Hn) as Hpn.
  pose proof (pow2_pos (e - ez)) as Hpe.
  assert (Hmz1 : 2 ^ n <= mz).
  { pose proof (digits_bounds m) as [Hl _].
    assert (H2 : 2 ^ n <= 2 ^ (Zpos (digits2_pos m) - 1 + (e - ez))).
    { apply Z.pow_le_mono_r; [lia|unfold n; lia]. }
    rewrite Z.pow_add_r in H2 by lia. unfold mz. nia. }
  assert (Hmz2 : Zpos mx * 2 ^ (ex - ez) <= mz).
  { replace (ex - ez) with (ex - e + (e - ez)) by lia.
    rewrite Z.pow_add_r by lia. unfold mz. nia. }
  assert (Hm0 : 1 <= mz / 2 ^ n).
  { apply Z.div_le_lower_bound; lia. }
  destruct m1 as [|p1|p1]; [lia| |lia].
  cbn [Zdigits2] in Hn2.
  assert (Hn2' : 0 <= n2 <= Zpos (digits2_pos p1) - 1).
  { unfold SpecFloat.fexp in Hn2. unfold fe, SpecFloat.fexp in *. lia. }
  assert (Hm2 : 1 <= Zpos p1 / 2 ^ n2).
  { apply Z.div_le_lower_bound; [apply pow2_pos; lia|].
    pose proof (digits_bounds p1) as [Hl _].
    assert (2 ^ n2 <= 2 ^ (Zpos (digits2_pos p1) - 1)); [|lia].
    apply Z.pow_le_mono_r; lia. }
  destruct (Zpos p1 / 2 ^ n2) as [|p2|p2] eqn:E2; [lia| |lia].
  destruct (fe + n2 <=? emax - prec); [|exact I].
  destruct (Z.eq_dec ex (fe + n2)) as [Heq|Hne]; [right|left; lia].
  split; [exact Heq|].
  assert (Hn20 : n2 = 0) by lia. assert (Hfex : fe = ex) by lia.
  rewrite Hn20 in E2. simpl (2 ^ 0) in E2. rewrite Z.div_1_r in E2.
  assert (Hle : Zpos mx <= Zpos p2); [|lia]. rewrite <- E2.
  apply Z.le_trans with (mz / 2 ^ n); [|lia].
  apply Z.div_le_lower_bound; [lia|].
  replace n with (ex - ez) by (unfold n; lia). lia.
Qed.

(** Rounding does not go above a number of the format that the exact value is
    not above. *)
Lemma binary_round_upper (mx m : positive) (ex e : Z) :
  fexp (Zpos (digits2_pos mx) + ex) = ex -> ex <= emax - prec -> e <= ex ->
  Zpos m <= Zpos mx * 2 ^ (ex - e) ->
  match binary_round prec emax true m e with
  | S754_zero true => True
  | S754_finite true m2 e2 => e2 < ex \/ (e2 = ex /\ (m2 <= mx)%positive)
  | _ => False
  end.
Proof.
  intros Hcan Hbound He Hval.
  destruct (binary_round_cases true m e _ _ _ _ eq_refl eq_refl eq_refl eq_refl)
    as (m1 & n2 & Hb & Hexact & Hn2 & ->).
  set (fe := fexp (Zpos (digits2_pos m) + e)) in *.
  set (ez := Z.min e fe) in *.
  set (mz := Zpos m * 2 ^ (e - ez)) in *.
  set (n := fe - ez) in *.
  assert (Hmag : Zpos (digits2_pos m) + e <= Zpos (digits2_pos mx) + ex).
  { apply (magnitude_le m mx e ex e); [lia|lia|].
    rewrite Z.sub_diag. simpl (2 ^ 0). lia. }
  assert (Hfe : fe <= ex) by (unfold fe, SpecFloat.fexp in *; lia).
  assert (Hn : 0 <= n) by (unfold n, ez; lia).
  assert (Hez : ez <= e) by (unfold ez; lia).
  pose proof (pow2_pos n Hn) as Hpn.
  pose proof (pow2_pos (e - ez)) as Hpe.
  pose proof (pow2_pos (ex - fe)) as Hpf.
  assert (Hmz : mz <= 2 ^ n * (Zpos mx * 2 ^ (ex - fe))).
  { assert (Hsplit : 2 ^ (ex - e) * 2 ^ (e - ez) = 2 ^ n * 2 ^ (ex - fe)).
    { rewrite <- !Z.pow_add_r by lia. f_equal. unfold n. lia. }
    unfold mz. nia. }
  assert (Hmz0 : 0 <= mz) by (unfold mz; nia).
  assert (Hm0 : 0 <= mz / 2 ^ n) by (apply Z.div_pos; lia).
  assert (Hm1 : m1 <= Zpos mx * 2 ^ (ex - fe)).
  { destruct (Z.eq_dec (mz mod 2 ^ n) 0) as [Hz|Hnz].
    - rewrite (Hexact Hz). apply Z.div_le_upper_bound; lia.
    - assert (Hlt : mz < 2 ^ n * (Zpos mx * 2 ^ (ex - fe))).
      { destruct (Z.eq_dec mz (2 ^ n * (Zpos mx * 2 ^ (ex - fe)))) as [Heq|]; [|lia].
        exfalso. apply Hnz. rewrite Heq, Z.mul_comm. apply Z_mod_mult. }
      pose proof (Z.div_lt_upper_bound mz (2 ^ n) _ Hpn Hlt). lia. }
  assert (Hn2pos : 0 <= n2) by lia.
  assert (H2 : 0 <= m1 / 2 ^ n2).
  { apply Z.div_pos; [lia|apply pow2_pos; lia]. }
  destruct (m1 / 2 ^ n2) as [|p2|p2] eqn:E2; [exact I| |lia].
  destruct m1 as [|p1|p1]; [rewrite Z.div_0_l in E2; [discriminate|]|  |lia].
  { pose proof (pow2_pos n2 Hn2pos). lia. }
  cbn [Zdigits2] in Hn2.
  assert (Hmag1 : Zpos (digits2_pos p1) + fe <= Zpos (digits2_pos mx) + ex).
  { apply (magnitude_le p1 mx fe ex fe); [lia|lia|].
    rewrite Z.sub_diag. simpl (2 ^ 0). lia. }
  assert (He2 : fe + n2 <= ex) by (unfold SpecFloat.fexp in *; lia).
  replace (fe + n2 <=? emax - prec) with true by (symmetry; apply Z.leb_le; lia).
  destruct (Z.eq_dec (fe + n2) ex) as [Heq|Hne]; [right|left; lia].
  split; [exact Heq|]. assert (Hle : Zpos p2 <= Zpos mx); [|lia]. rewrite <- E2.
  apply Z.div_le_upper_bound; [apply pow2_pos; lia|].
  replace n2 with (ex - fe) by lia. lia.
Qed.

End Rounding.

Section Addition.

Variables prec emax : Z.
Hypothesis Hprec : 0 < prec.

Lemma bounded_canonical (m : positive) (e : Z) :
  bounded prec emax m e = true ->
  SpecFloat.fexp prec emax (Zpos (digits2_pos m) + e) = e /\ e <= emax - prec.
Proof.
  unfold bounded, canonical_mantissa. intros Hb.
  apply andb_prop in Hb as [H1 H2].
  apply Z.eqb_eq in H1. apply Z.leb_le in H2. auto.
Qed.

Lemma SFadd_finite sx mx ex sy my ey :
  SFadd prec emax (S754_finite sx mx ex) (S754_finite sy my ey) =
  binary_normalize prec emax
    (cond_Zopp sx (Zpos (fst (shl_align mx ex (Z.min ex ey)))) +
     cond_Zopp sy (Zpos (fst (shl_align my ey (Z.min ex ey)))))
    (Z.min ex ey) false.
Proof. reflexivity. Qed.

Lemma SFleb_finite_false (m1 m2 : positive) (e1 e2 : Z) :
  e1 < e2 \/ (e1 = e2 /\ (m1 <= m2)%positive) ->
  SFleb (S754_finite false m1 e1) (S754_finite false m2 e2) = true.
Proof.
  unfold SFleb, SFcompare. intros [Hlt| [-> Hle] ].
  - apply Z.compare_lt_iff in Hlt. rewrite Hlt. reflexivity.
  - rewrite Z.compare_refl. fold (Pos.compare m1 m2).
    unfold Pos.le in Hle. destruct (Pos.compare m1 m2); congruence.
Qed.

Lemma SFleb_finite_true (m1 m2 : positive) (e1 e2 : Z) :
  e2 < e1 \/ (e2 = e1 /\ (m2 <= m1)%positive) ->
  SFleb (S754_finite true m1 e1) (S754_finite true m2 e2) = true.
Proof.
  unfold SFleb, SFcompare. intros [Hlt| [-> Hle] ].
  - apply Z.compare_gt_iff in Hlt. rewrite Hlt. reflexivity.
  - rewrite Z.compare_refl. fold (Pos.compare m1 m2).
    rewrite (Pos.compare_antisym m2 m1), CompOpp_involutive.
    unfold Pos.le in Hle. destruct (Pos.compare m2 m1); congruence.
Qed.

Lemma SFleb_refl_finite s m e :
  SFleb (S754_finite s m e) (S754_finite s m e) = true.
Proof.
  destruct s; [apply SFleb_finite_true|apply SFleb_finite_false]; right;
    split; auto; apply Pos.le_refl.
Qed.

(** Adding a number that is not negative to a number other than minus
    infinity gives a number that is not smaller, and not minus infinity. *)
Lemma SFadd_increase (x d : spec_float) :
  SpecFloat.valid_binary prec emax x = true ->
  SpecFloat.valid_binary prec emax d = true ->
  SFltb (S754_infinity true) x = true -> SFleb (S754_zero false) d = true ->
  SFleb x (SFadd prec emax x d) = true /\
  SFltb (S754_infinity true) (SFadd prec emax x d) = true.
Proof.
  intros Vx Vd Hx Hd.
  destruct x as [sx| [|] | |sx mx ex]; try discriminate Hx;
    destruct d as [sd| [|] | | [|] md ed]; try discriminate Hd.
  - destruct sx, sd; split; reflexivity.
  - destruct sx; split; reflexivity.
  - destruct sx; split; reflexivity.
  - split; reflexivity.
  - split; reflexivity.
  - split; reflexivity.
  - split; [apply SFleb_refl_finite|destruct sx; reflexivity].
  - destruct sx; split; reflexivity.
  - rewrite SFadd_finite.
    apply bounded_canonical in Vx as [Hcx Hbx].
    apply bounded_canonical in Vd as [Hcd Hbd].
    pose proof (shl_align_spec mx ex (Z.min ex ed)) as [_ Ha].
    pose proof (shl_align_spec md ed (Z.min ex ed)) as [_ Hb].
    destruct (shl_align mx ex (Z.min ex ed)) as [a ea].
    destruct (shl_align md ed (Z.min ex ed)) as [b eb].
    cbn [fst] in *.
    replace (Z.min ex (Z.min ex ed)) with (Z.min ex ed) in Ha by lia.
    replace (Z.min ed (Z.min ex ed)) with (Z.min ex ed) in Hb by lia.
    set (ez := Z.min ex ed) in *.
    assert (Hez : ez <= ex) by (unfold ez; lia).
    destruct sx.
    + (* a negative number plus a positive one *)
      cbn [cond_Zopp].
      destruct (- Zpos a + Zpos b) as [|p|p] eqn:Ez; cbn [binary_normalize].
      * split; reflexivity.
      * pose proof (binary_round_signed prec emax false p ez) as Hs.
        destruct (binary_round prec emax false p ez) as [s|s| |s m2 e2];
          try contradiction; subst s; split; reflexivity.
      * assert (Hp : Zpos p <= Zpos mx * 2 ^ (ex - ez)) by lia.
        pose proof (binary_round_upper prec emax mx p ex ez Hcx Hbx Hez Hp)
          as Hu.
        destruct (binary_round prec emax true p ez) as [ [|] | [|] | | [|] m2 e2];
          try contradiction.
        -- split; reflexivity.
        -- split; [apply SFleb_finite_true; exact Hu|reflexivity].
    + (* two positive numbers *)
      cbn [cond_Zopp]. change (Zpos a + Zpos b) with (Zpos (a + b)).
      cbn [binary_normalize].
      assert (Hp : Zpos mx * 2 ^ (ex - ez) <= Zpos (a + b)) by lia.
      pose proof (binary_round_lower prec emax Hprec mx (a + b) ex ez Hcx Hez Hp)
        as Hl.
      destruct (binary_round prec emax false (a + b) ez) as [ [|] | [|] | | [|] m2 e2];
        try contradiction.
      * split; reflexivity.
      * split; [apply SFleb_finite_false; exact Hl|reflexivity].
Qed.

End Addition.

(** Binary64: for [x] other than NaN and minus infinity and [d] not negative
    (so not NaN either), [x + d] is not smaller than [x], and is again a
    number other than minus infinity. *)
Lemma float_add_increase (x d : float) :
  (neg_infinity <? x)%float = true -> (0 <=? d)%float = true ->
  (x <=? x + d)%float = true /\ (neg_infinity <? x + d)%float = true.
Proof.
  rewrite !ltb_spec, !leb_spec, add_spec.
  change (Prim2SF neg_infinity) with (S754_infinity true).
  change (Prim2SF 0) with (S754_zero false).
  apply (SFadd_increase prec emax); [reflexivity| |]; apply Prim2SF_valid.
Qed.

Section RampLinks.

Context {D : Type}.

(** The link between the last step of a log and the step that follows. *)
Definition follows (l : list (@step_log D)) (e : @step_log D) : Prop :=
  match list.last l with
  | Some e0 =>
      probRoom_before e = probRoom_after e0 /\
      probChange_before e = probChange_after e0 /\
      at_pos e = to_pos e0
  | None => True
  end.

Lemma linked_snoc (l : list (@step_log D)) e :
  linked l -> follows l e -> linked (l ++ [e]).
Proof.
  unfold follows. induction l as [|e1 [|e2 l'] IH]; intros Hl Hf.
  - exact Logic.I.
  - simpl in *. auto.
  - destruct Hl as [H12 Hl]. split; [exact H12|]. apply IH; [exact Hl|].
    exact Hf.
Qed.

End RampLinks.

Section Ramps.

Context {G : Type} {random : RandomSource G float}.

Variables (W H J I roomSizeX roomSizeY : Z).
Variables (probGenerateRoom probIncreaseRoom : float).
Variables (probChangeDirection probIncreaseChange : float).

(** C5, as the code has it, for [double] as binary64: in a run whose base
    probabilities are numbers other than NaN and minus infinity and whose
    increments are not negative (so not NaN), every step starts with the ramp
    values the step before it ended with, and moves them as [step_ramps]
    says: a ramp that is not reset is incremented, which does not decrease
    it; [roomProb] is reset to [probGenerateRoom] exactly when a room is
    carved, [changeProb] to [probChangeDirection] when the direction-change
    roll succeeds and also when the agent hits the border. *)
Theorem drunkAgent_ramps fuel seed m x y a :
  PrimFloat.ltb neg_infinity probGenerateRoom = true ->
  PrimFloat.ltb neg_infinity probChangeDirection = true ->
  PrimFloat.leb 0 probIncreaseRoom = true ->
  PrimFloat.leb 0 probIncreaseChange = true ->
  drunkAgent_run (G := G) W H J I roomSizeX roomSizeY
    probGenerateRoom probIncreaseRoom probChangeDirection probIncreaseChange
    fuel seed m x y = Done a ->
  linked (log a) /\
  Forall (step_ramps probGenerateRoom probIncreaseRoom
            probChangeDirection probIncreaseChange) (log a).
Proof.
  intros HbR HbC HiR HiC E.
  apply (drunkAgent_run_inv W H J I roomSizeX roomSizeY
    probGenerateRoom probIncreaseRoom probChangeDirection probIncreaseChange
    (fun a => linked (log a) /\
       Forall (step_ramps probGenerateRoom probIncreaseRoom
                 probChangeDirection probIncreaseChange) (log a) /\
       match list.last (log a) with
       | Some e0 =>
           probRoom_after e0 = currentProbRoom a /\
           probChange_after e0 = currentProbChange a /\
           to_pos e0 = (agentX a, agentY a)
       | None => True
       end /\
       PrimFloat.ltb neg_infinity (currentProbRoom a) = true /\
       PrimFloat.ltb neg_infinity (currentProbChange a) = true)) in E.
  - destruct E as (Hl & Hr & _). auto.
  - simpl. auto.
  - intros b g Hb. exact Hb.
  - intros dir b b' e (Hl & Hr & Hs & HnR & HnC) F.
    rewrite (sf_log _ _ _ _ _ _ _ _ _ _ _ F).
    pose proof (sf_room _ _ _ _ _ _ _ _ _ _ _ F) as Hroom.
    pose proof (sf_change _ _ _ _ _ _ _ _ _ _ _ F) as Hch.
    pose proof (sf_room_before _ _ _ _ _ _ _ _ _ _ _ F) as HRb.
    pose proof (sf_change_before _ _ _ _ _ _ _ _ _ _ _ F) as HCb.
    pose proof (sf_room_after _ _ _ _ _ _ _ _ _ _ _ F) as HRa.
    pose proof (sf_change_after _ _ _ _ _ _ _ _ _ _ _ F) as HCa.
    rewrite <- HRb in HnR. rewrite <- HCb in HnC.
    destruct (float_add_increase _ _ HnR HiR) as [HleR HnR'].
    destruct (float_add_increase _ _ HnC HiC) as [HleC HnC'].
    split; [|split; [|split; [|split] ] ].
    + apply linked_snoc; [exact Hl|]. unfold follows.
      destruct (list.last (log b)) as [e0|]; [|exact Logic.I].
      destruct Hs as (Hs1 & Hs2 & Hs3).
      rewrite Hs1, Hs2, Hs3, HRb, HCb, (sf_at _ _ _ _ _ _ _ _ _ _ _ F).
      auto.
    + apply Forall_app. split; [exact Hr|]. constructor; [|constructor].
      unfold step_ramps. split.
      * destruct (room_fired e); [exact Hroom|]. split; [exact Hroom|].
        rewrite Hroom. exact HleR.
      * destruct (change_fired e || bounced e); [exact Hch|].
        split; [exact Hch|]. rewrite Hch. exact HleC.
    + rewrite last_snoc. rewrite HRa, HCa, (sf_to _ _ _ _ _ _ _ _ _ _ _ F).
      auto.
    + rewrite <- HRa. destruct (room_fired e); rewrite Hroom; assumption.
    + rewrite <- HCa. destruct (change_fired e || bounced e); rewrite Hch;
        assumption.
Qed.

End Ramps.

(** ** Termination *)

Section Termination.

Context {D G : Type} {double_ops : Double D} {random : RandomSource G D}.

Implicit Types (m : Map) (U : D).

Lemma countOnes_fuel fuel m W H R i j :
  0 <= R < Int.max_int -> (Z.to_nat (2 * R + 1) < fuel)%nat ->
  countOnes fuel m W H R i j <> OutOfFuel.
Proof.
  intros HR Hf. unfold countOnes.
  assert (Hneg : Int.neg R = - R).
  { apply neg_small. unfold Int.in_range, Int.min_int, Int.max_int in *. lia. }
  rewrite Hneg.
  apply (for_loop_le_fuel _ _ R); [auto|lia| |unfold Int.min_int, Int.max_int in *; lia|lia].
  intros di c.
  apply (for_loop_le_fuel _ _ R); [auto|lia| |unfold Int.min_int, Int.max_int in *; lia|lia].
  intros dj c'. cbv zeta.
  destruct ((0 <=? Int.add i di) && (Int.add i di <? H) && (0 <=? Int.add j dj)
            && (Int.add j dj <? W)); [|discriminate].
  apply bind_not_OutOfFuel; [apply get_not_OutOfFuel|]. intros v. discriminate.
Qed.

Lemma sweep_fuel fuel (F : Map -> Z -> Z -> res Z) (g : Z -> Z) m W H :
  H <= Int.max_int -> W <= Int.max_int ->
  (Z.to_nat H < fuel)%nat -> (Z.to_nat W < fuel)%nat ->
  (forall s i j, F s i j <> OutOfFuel) ->
  for_loop fuel (fun i => i <? H) (fun i s =>
    for_loop fuel (fun j => j <? W) (fun j s =>
      c <- F s i j ;; set s i j (g c)) 0 s) 0 m <> OutOfFuel.
Proof.
  intros HH HW HfH HfW HF.
  apply (for_loop_lt_fuel _ _ H); [auto|exact HH| |unfold Int.min_int; lia|lia].
  intros i s.
  apply (for_loop_lt_fuel _ _ W); [auto|exact HW| |unfold Int.min_int; lia|lia].
  intros j t. apply bind_not_OutOfFuel; [apply HF|].
  intros c. apply set_not_OutOfFuel.
Qed.

(** With the radius at the greatest [int], the window loop of a cell of the
    grid never exits: its counter cannot exceed the radius. *)
Lemma countOnes_forever fuel m W H i j :
  grid_shape m H W -> countOnes fuel m W H Int.max_int i j = OutOfFuel.
Proof.
  intros Hs. unfold countOnes. destruct fuel as [|f]; [reflexivity|].
  rewrite for_loop_S.
  replace (Int.neg Int.max_int <=? Int.max_int) with true by reflexivity.
  match goal with
  | |- bind ?inner _ = _ =>
      assert (Hin : inner <> Fault /\ forall s', inner <> Done s')
  end.
  { apply for_loop_forever.
    - intros d Hd. unfold Int.in_range in Hd. lia.
    - intros dj c. cbv zeta.
      destruct ((0 <=? Int.add i (Int.neg Int.max_int)) &&
                (Int.add i (Int.neg Int.max_int) <? H) &&
                (0 <=? Int.add j dj) && (Int.add j dj <? W)) eqn:Hb;
        [|discriminate].
      destruct (get_inside m H W (Int.add i (Int.neg Int.max_int))
                  (Int.add j dj) Hs) as [v Hv]; [lia..|].
      rewrite Hv. discriminate.
    - apply wrap_in_range. }
  destruct Hin as [Hf Hd].
  match goal with
  | |- bind ?inner _ = _ => destruct inner as [c| |]
  end.
  - exfalso. exact (Hd c eq_refl).
  - contradiction.
  - reflexivity.
Qed.

Lemma cellularAutomata_forever fuel seed m W H U :
  grid_shape m H W -> 0 < H -> 0 < W ->
  cellularAutomata fuel seed m W H Int.max_int U = OutOfFuel.
Proof.
  intros Hs HH HW. unfold cellularAutomata. destruct fuel as [|f]; [reflexivity|].
  rewrite for_loop_S. replace (0 <? H) with true by lia.
  rewrite for_loop_S. replace (0 <? W) with true by lia.
  rewrite countOnes_forever by exact Hs. reflexivity.
Qed.

(** C8, as the code has it: for sizes, counts and a radius that are
    non-negative [int]s, the radius below the greatest [int], no loop of
    either pass runs more often than its bound ([H], [W], [2R+1], [J], [I])
    says, so that with fuel above the bounds neither copy of
    [cellularAutomata] nor [drunkAgent] runs out of it; and without a walk or
    without a step [drunkAgent] returns the grid and the position it was
    given. *)
Theorem passes_terminate fuel seed m r W H R U J I roomSizeX roomSizeY
    (probGenerateRoom probIncreaseRoom probChangeDirection probIncreaseChange : D) :
  0 <= W <= Int.max_int -> 0 <= H <= Int.max_int -> 0 <= R < Int.max_int ->
  0 <= J <= Int.max_int -> 0 <= I <= Int.max_int ->
  (Z.to_nat H < fuel)%nat -> (Z.to_nat W < fuel)%nat ->
  (Z.to_nat (2 * R + 1) < fuel)%nat ->
  (Z.to_nat J < fuel)%nat -> (Z.to_nat I < fuel)%nat ->
  cellularAutomata (G := G) fuel seed m W H R U <> OutOfFuel /\
  cellularAutomata_inplace (G := G) fuel seed m W H R U <> OutOfFuel /\
  drunkAgent (G := G) W H J I roomSizeX roomSizeY probGenerateRoom
    probIncreaseRoom probChangeDirection probIncreaseChange fuel seed r
    <> OutOfFuel /\
  (J = 0 \/ I = 0 ->
   drunkAgent (G := G) W H J I roomSizeX roomSizeY probGenerateRoom
     probIncreaseRoom probChangeDirection probIncreaseChange fuel seed r
     = Done (ref_currentMap r, r)).
Proof.
  intros HW HH HR HJ HI HfH HfW HfR HfJ HfI. repeat split.
  - apply (sweep_fuel fuel (fun _ i j => countOnes fuel m W H R i j)); try lia.
    intros s i j. apply countOnes_fuel; assumption.
  - apply (sweep_fuel fuel (fun s i j => countOnes fuel s W H R i j)); try lia.
    intros s i j. apply countOnes_fuel; assumption.
  - apply drunkAgent_fuel; lia.
  - intros Hz. apply drunkAgent_no_op; assumption.
Qed.

End Termination.

(** ** The driver *)

Section MainFacts.

Context {D G : Type} {double_ops : Double D} {random : RandomSource G D}.

Variable clock : Z -> Z.






End MainFacts.

(** * The model at concrete inputs *)

Lemma script_int_range a b g : a <= b -> a <= fst (script_int a b g) <= b.
Proof.
  intros Hab. destruct g as [|x g']; simpl; [lia|].
  pose proof (Z.mod_pos_bound x (b - a + 1)). lia.
Qed.

(** The scripted source whose engine, seeded with [seed], has the draws
    [script seed] to come. *)
Definition script_source (D : Type) `{Double D} (script : Z -> list Z)
    : RandomSource (list Z) D := {|
  mt19937 := script;
  uniform_int := script_int;
  uniform_real := script_real;
  uniform_int_range := script_int_range
|}.

(** An engine that is never drawn from. *)
Definition no_draws : RandomSource (list Z) float :=
  script_source float (fun _ => []).

(** An engine with a fixed script, whatever the seed. *)
Definition scripted (script : list Z) : RandomSource (list Z) float :=
  script_source float (fun _ => script).

(** An engine whose script depends on the seed. *)
Definition seeded : RandomSource (list Z) float :=
  script_source float
    (fun seed => (fun k => (seed * 37 + k * 61 + 13) mod 100) <$> seqZ 0 400).

Definition half : float := literal 1 2.

Definition zeros4 : Map := [[0; 0; 0; 0]; [0; 0; 0; 0]; [0; 0; 0; 0]; [0; 0; 0; 0]].

(** A grid whose cell (1,1) has five neighbours set, counting itself. *)
Definition dense_corner : Map := [[1; 1; 1]; [1; 1; 0]; [0; 0; 0]].

(** Two grids that differ at the cell (2,0) only. *)
Definition left_one : Map := [[0; 0; 0; 0]; [0; 1; 1; 0]; [1; 1; 1; 1]].
Definition left_zero : Map := [[0; 0; 0; 0]; [0; 1; 1; 0]; [0; 1; 1; 1]].

(** C1: on the 3 by 3 grid [dense_corner] with radius 1 and threshold 0.5, the
    rule of the specification gives the cell (1,1) the value 1 (five of the
    nine cells of its window are set), and so does the first copy of
    [cellularAutomata]; the second copy returns 0 there: by the time it
    reaches (1,1) it has overwritten the four cells before it. *)
Theorem cellularAutomata_inplace_breaks_rule :
  grid_shape dense_corner 3 3 /\
  window_sum dense_corner 3 3 1 1 1 = 5 /\
  spec_cell dense_corner 3 3 1 half 1 1 = 1 /\
  (exists out,
     cellularAutomata (random := no_draws) 10 0 dense_corner 3 3 1 half = Done out /\
     get out 1 1 = Done 1) /\
  (exists out,
     cellularAutomata_inplace (random := no_draws) 10 0 dense_corner 3 3 1 half
       = Done out /\
     get out 1 1 = Done 0).
Proof.
  split; [split; [reflexivity|repeat constructor]|].
  split; [reflexivity|]. split; [vm_compute; reflexivity|].
  split; eexists; (split; [vm_compute; reflexivity|reflexivity]).
Qed.

(** C2: the second copy of [cellularAutomata] is not a synchronous update.
    The grids [left_one] and [left_zero] hold the same values on the whole
    window of the cell (1,2); the first copy gives that cell the value 1 on
    both, the second copy gives it 1 on one and 0 on the other, because the
    cells of the window it has already overwritten differ. *)
Theorem cellularAutomata_inplace_not_synchronous :
  (forall di dj, In di [-1; 0; 1] -> In dj [-1; 0; 1] ->
     get left_one (1 + di) (2 + dj) = get left_zero (1 + di) (2 + dj)) /\
  (exists out1 out0,
     cellularAutomata (random := no_draws) 10 0 left_one 4 3 1 half = Done out1 /\
     cellularAutomata (random := no_draws) 10 0 left_zero 4 3 1 half = Done out0 /\
     get out1 1 2 = Done 1 /\ get out0 1 2 = Done 1) /\
  (exists out1 out0,
     cellularAutomata_inplace (random := no_draws) 10 0 left_one 4 3 1 half
       = Done out1 /\
     cellularAutomata_inplace (random := no_draws) 10 0 left_zero 4 3 1 half
       = Done out0 /\
     get out1 1 2 = Done 1 /\ get out0 1 2 = Done 0).
Proof.
  split.
  - intros di dj Hdi Hdj. simpl in Hdi, Hdj.
    destruct Hdi as [<-|[<-|[<-|[]]]], Hdj as [<-|[<-|[<-|[]]]]; reflexivity.
  - split; do 2 eexists;
      (split; [vm_compute; reflexivity|]);
      (split; [vm_compute; reflexivity|]); split; reflexivity.
Qed.

(** The end-to-end example of the specification: a 4 by 4 grid of zeros, one
    walk of one step from (2,2), a room roll that is sure to succeed. *)
Definition example_call : references :=
  {| ref_currentMap := zeros4; ref_agentX := 2; ref_agentY := 2 |}.

Lemma drunkAgent_bounds_witness :
  exists a,
    drunkAgent_run (random := scripted [0; 50; 50; 10; 50; 2; 50; 50; 3; 50; 50])
      4 4 2 3 3 3 (literal 1 5) (literal 1 10) (literal 1 5) (literal 3 100)
      10 0 zeros4 2 2 = Done a /\
    Z.of_nat (length (log a)) = Z.max 0 2 * Z.max 0 3 /\
    in_bounds 4 4 (agentX a, agentY a) /\
    Forall (step_in_bounds 4 4) (log a).
Proof.
  apply drunkAgent_bounds.
  - split; [reflexivity|repeat constructor].
  - unfold Int.max_int. lia.
  - unfold Int.max_int. lia.
  - unfold in_bounds. simpl. lia.
  - unfold Int.max_int. lia.
  - unfold Int.max_int. lia.
  - simpl. lia.
  - simpl. lia.
  - simpl. lia.
  - simpl. lia.
Defined.

Lemma drunkAgent_monotone_witness :
  exists ret r',
    drunkAgent (random := scripted [1; 0; 50; 50; 50; 50])
      3 3 1 2 3 3 (literal 1 5) (literal 1 10) (literal 1 5) (literal 3 100)
      10 0 {| ref_currentMap := dense_corner; ref_agentX := 2; ref_agentY := 2 |}
      = Done (ret, r') /\
    (forall i j, get dense_corner i j = Done 1 -> get ret i j = Done 1) /\
    (forall i j v, get ret i j = Done v -> v = 1 \/ get dense_corner i j = Done v).
Proof.
  do 2 eexists. split; [vm_compute; reflexivity|].
  eapply (drunkAgent_monotone (random := scripted [1; 0; 50; 50; 50; 50])
    3 3 1 2 3 3 (literal 1 5) (literal 1 10) (literal 1 5) (literal 3 100)
    10 0 {| ref_currentMap := dense_corner; ref_agentX := 2; ref_agentY := 2 |}).
  vm_compute. reflexivity.
Defined.

(** C4 fails as stated: after the call of the specification's own example the
    grid that was passed still holds 0 at (2,2), where the returned grid holds
    the carved 1. *)
Lemma drunkAgent_leaves_argument :
  exists ret r',
    drunkAgent (random := no_draws) 4 4 1 1 3 3
      (of_int 1) (of_int 0) (of_int 0) (of_int 0) 10 0 example_call
      = Done (ret, r') /\
    get ret 2 2 = Done 1 /\
    ref_currentMap r' = zeros4 /\ get (ref_currentMap r') 2 2 = Done 0.
Proof.
  do 2 eexists. split; [vm_compute; reflexivity|].
  split; [reflexivity|]. split; reflexivity.
Qed.

Lemma drunkAgent_returns_copy_witness :
  exists ret r',
    drunkAgent (random := no_draws) 4 4 1 1 3 3
      (of_int 1) (of_int 0) (of_int 0) (of_int 0) 10 0 example_call
      = Done (ret, r') /\
    ref_currentMap r' = ref_currentMap example_call /\
    exists a,
      drunkAgent_run (random := no_draws) 4 4 1 1 3 3
        (of_int 1) (of_int 0) (of_int 0) (of_int 0) 10 0
        (ref_currentMap example_call) (ref_agentX example_call)
        (ref_agentY example_call) = Done a /\
      ret = newMap a /\
      pos_of r' = final_pos (pos_of example_call) (log a).
Proof.
  do 2 eexists. split; [vm_compute; reflexivity|].
  apply (drunkAgent_returns_copy (random := no_draws) 4 4 1 1 3 3
    (of_int 1) (of_int 0) (of_int 0) (of_int 0) 10 0 example_call).
  vm_compute. reflexivity.
Defined.

(** C5 fails as stated: with the increments 0 and 0.03, an agent that walks up
    from (2,3) fails every roll; [changeProb] ramps from 0.2 to 0.26 in two
    steps, and in the third step, in which no room is carved and the
    direction-change roll fails again, the agent hits the border and
    [changeProb] ends lower than it started, at 0.2. *)
Lemma drunkAgent_bounce_resets_changeProb :
  exists a e,
    drunkAgent_run (random := scripted [0; 50; 50; 50; 50; 50; 50; 50])
      4 4 1 3 3 3 (of_int 0) (of_int 0) (literal 1 5) (literal 3 100)
      10 0 zeros4 2 3 = Done a /\
    log a !! 2%nat = Some e /\
    room_fired e = false /\ change_fired e = false /\
    dlt (probChange_after e) (probChange_before e) = true.
Proof.
  do 2 eexists. split; [vm_compute; reflexivity|].
  split; [reflexivity|]. split; [reflexivity|]. split; reflexivity.
Qed.

Lemma drunkAgent_ramps_witness :
  exists a,
    drunkAgent_run (random := scripted [0; 50; 50; 10; 50; 50; 10; 1])
      4 4 1 3 3 3 (literal 1 5) (literal 1 10) (literal 1 5) (literal 3 100)
      10 0 zeros4 2 3 = Done a /\
    linked (log a) /\
    Forall (step_ramps (literal 1 5) (literal 1 10) (literal 1 5) (literal 3 100))
      (log a).
Proof.
  eexists. split; [vm_compute; reflexivity|].
  apply (drunkAgent_ramps (random := scripted [0; 50; 50; 10; 50; 50; 10; 1])
    4 4 1 3 3 3 (literal 1 5) (literal 1 10) (literal 1 5) (literal 3 100)
    10 0 zeros4 2 3).
  - vm_compute. reflexivity.
  - vm_compute. reflexivity.
  - vm_compute. reflexivity.
  - vm_compute. reflexivity.
  - vm_compute. reflexivity.
Defined.

(** C8 fails as stated: with the radius 2147483647 the pass over a grid of one
    cell never returns. *)
Lemma cellularAutomata_radius_max_never_returns :
  never_returns (fun fuel =>
    cellularAutomata (random := no_draws) fuel 0 [[0]] 1 1 Int.max_int half).
Proof.
  intros fuel. apply cellularAutomata_forever; [|lia|lia].
  split; [reflexivity|repeat constructor].
Qed.

Lemma passes_terminate_witness :
  cellularAutomata (random := no_draws) 10 0 dense_corner 3 3 1 half <> OutOfFuel /\
  cellularAutomata_inplace (random := no_draws) 10 0 dense_corner 3 3 1 half
    <> OutOfFuel /\
  drunkAgent (random := no_draws) 3 3 0 5 3 3
    (of_int 1) (of_int 0) (of_int 0) (of_int 0) 10 0
    {| ref_currentMap := dense_corner; ref_agentX := 1; ref_agentY := 1 |}
    <> OutOfFuel /\
  (0 = 0 \/ 5 = 0 ->
   drunkAgent (random := no_draws) 3 3 0 5 3 3
     (of_int 1) (of_int 0) (of_int 0) (of_int 0) 10 0
     {| ref_currentMap := dense_corner; ref_agentX := 1; ref_agentY := 1 |}
   = Done (dense_corner,
           {| ref_currentMap := dense_corner; ref_agentX := 1; ref_agentY := 1 |})).
Proof.
  apply (passes_terminate (random := no_draws) 10 0 dense_corner
    {| ref_currentMap := dense_corner; ref_agentX := 1; ref_agentY := 1 |}
    3 3 1 half 0 5 3 3 (of_int 1) (of_int 0) (of_int 0) (of_int 0));
    unfold Int.max_int; simpl; lia.
Defined.

Lemma cellularAutomata_output_binary_witness :
  grid_shape [[7; -1; -9]] 1 3 /\
  cellularAutomata (random := no_draws) 10 0 [[7; -1; -9]] 3 1 1 half = Done [[1; 0; 0]] /\
  forall i j v, get [[1; 0; 0]] i j = Done v -> v = 0 \/ v = 1.
Proof.
  assert (Hs : grid_shape [[7; -1; -9]] 1 3) by (split; [reflexivity|repeat constructor]).
  assert (E : cellularAutomata (random := no_draws) 10 0 [[7; -1; -9]] 3 1 1 half
              = Done [[1; 0; 0]]) by (vm_compute; reflexivity).
  split; [exact Hs|]. split; [exact E|].
  apply (cellularAutomata_output_binary (random := no_draws)
    10 0 [[7; -1; -9]] 3 1 1 half [[1; 0; 0]] Hs).
  - unfold Int.max_int. lia.
  - unfold Int.max_int. lia.
  - left. exact E.
Defined.


(** * Further properties of the passes *)

(** ** cellularAutomata *)

Lemma dense_corner_shape : grid_shape dense_corner 3 3.
Proof. split; [reflexivity|repeat constructor]. Qed.

Lemma cellularAutomata_rule_witness :
  exists out,
    cellularAutomata (random := no_draws) 10 0 dense_corner 3 3 1 half = Done out /\
    grid_shape out 3 3 /\
    forall i j, 0 <= i < 3 -> 0 <= j < 3 ->
      get out i j = Done (spec_cell dense_corner 3 3 1 half i j).
Proof.
  apply (cellularAutomata_rule (random := no_draws) 10 0 dense_corner 3 3 1 half 1).
  - exact dense_corner_shape.
  - unfold Int.max_int. lia.
  - unfold Int.max_int. lia.
  - lia.
  - lia.
  - intros a b v Hv.
    destruct (get_bounds _ _ _ _ _ _ dense_corner_shape Hv) as [Ha Hb].
    assert (Ha' : a = 0 \/ a = 1 \/ a = 2) by lia.
    assert (Hb' : b = 0 \/ b = 1 \/ b = 2) by lia.
    destruct Ha' as [-> | [-> | ->]], Hb' as [-> | [-> | ->]];
      vm_compute in Hv; injection Hv as <-; lia.
  - unfold Int.max_int. lia.
  - unfold Int.max_int. lia.
  - simpl. lia.
  - simpl. lia.
  - simpl. lia.
Defined.

Section CellularAutomataSafety.

Context {D G : Type} {double_ops : Double D} {random : RandomSource G D}.

Implicit Types (m : Map) (U : D).

(** X2: on a grid of [H] rows and [W] columns neither copy indexes a vector out
    of its range: with enough fuel both return, and what they return is again
    a grid of [H] rows and [W] columns. *)
Theorem cellularAutomata_safe fuel seed m W H R U :
  grid_shape m H W -> H <= Int.max_int -> W <= Int.max_int ->
  0 <= R < Int.max_int ->
  (Z.to_nat H < fuel)%nat -> (Z.to_nat W < fuel)%nat ->
  (Z.to_nat (2 * R + 1) < fuel)%nat ->
  (exists out, cellularAutomata fuel seed m W H R U = Done out /\
               grid_shape out H W) /\
  (exists out, cellularAutomata_inplace fuel seed m W H R U = Done out /\
               grid_shape out H W).
Proof.
  intros Hs HH HW HR HfH HfW HfR. split.
  - destruct (sweep_spec fuel (fun _ i j => countOnes fuel m W H R i j)
      (fun c => applyRule c R U) (fun _ _ _ => True)
      m W H Hs HH HW HfH HfW) as (out & E & Hso & _).
    + intros s i j _ Hi Hj.
      destruct (countOnes_returns fuel m W H R i j Hs HR HfR) as [c Ec]. eauto.
    + exists out. split; [exact E|exact Hso].
  - destruct (cellularAutomata_inplace_returns fuel seed m W H R U
      Hs HH HW HR HfH HfW HfR) as (out & E & Hso & _).
    exists out. split; [exact E|exact Hso].
Qed.

End CellularAutomataSafety.

Lemma cellularAutomata_safe_witness :
  (exists out,
     cellularAutomata (random := no_draws) 10 0 dense_corner 3 3 1 half = Done out /\
     grid_shape out 3 3) /\
  (exists out,
     cellularAutomata_inplace (random := no_draws) 10 0 dense_corner 3 3 1 half
       = Done out /\
     grid_shape out 3 3).
Proof.
  apply (cellularAutomata_safe (random := no_draws) 10 0 dense_corner 3 3 1 half).
  - exact dense_corner_shape.
  - unfold Int.max_int. lia.
  - unfold Int.max_int. lia.
  - unfold Int.max_int. lia.
  - simpl. lia.
  - simpl. lia.
  - simpl. lia.
Defined.

Section Faults.

Context {St : Type}.

(** A loop one of whose iterations is sure to fault, and none of whose
    iterations runs out of fuel, faults. *)
Lemma foldM_Fault (P : St -> Prop) (body : Z -> St -> res St) (l : list Z) (k : Z) :
  k ∈ l ->
  (forall i s s', P s -> body i s = Done s' -> P s') ->
  (forall i s, body i s <> OutOfFuel) ->
  (forall s, P s -> body k s = Fault) ->
  forall s, P s -> foldM body l s = Fault.
Proof.
  intros Hk Hinv Hfuel Hbad. induction l as [|i l IH]; intros s Hs.
  - apply elem_of_nil in Hk. contradiction.
  - simpl. apply elem_of_cons in Hk as [->|Hk].
    + rewrite (Hbad s Hs). reflexivity.
    + specialize (Hfuel i s). destruct (body i s) as [s'| |] eqn:E; simpl.
      * apply (IH Hk). eapply Hinv; eauto.
      * reflexivity.
      * contradiction.
Qed.

End Faults.

Section CellularAutomataFaults.

Context {D G : Type} {double_ops : Double D} {random : RandomSource G D}.

Implicit Types (m : Map) (U : D).

Lemma set_outside m H' W' i j v :
  grid_shape m H' W' -> ~ (0 <= i < H' /\ 0 <= j < W') -> set m i j v = Fault.
Proof.
  intros Hs Hout. pose proof (set_not_OutOfFuel m i j v) as Hf.
  destruct (set m i j v) as [m'| |] eqn:E; [|reflexivity|contradiction].
  exfalso. apply Hout. eapply set_bounds; eauto.
Qed.

Lemma sweep_Fault fuel (F : Map -> Z -> Z -> res Z) (g : Z -> Z) m W H H' W' i0 j0 :
  grid_shape m H' W' -> H <= Int.max_int -> W <= Int.max_int ->
  (Z.to_nat H < fuel)%nat -> (Z.to_nat W < fuel)%nat ->
  (forall s i j, F s i j <> OutOfFuel) ->
  0 <= i0 < H -> 0 <= j0 < W -> ~ (0 <= i0 < H' /\ 0 <= j0 < W') ->
  for_loop fuel (fun i => i <? H) (fun i s =>
    for_loop fuel (fun j => j <? W) (fun j s =>
      c <- F s i j ;; set s i j (g c)) 0 s) 0 m = Fault.
Proof.
  intros Hs HH HW HfH HfW HF Hi0 Hj0 Hout.
  assert (Hcell : forall i j s s', grid_shape s H' W' ->
            (c <- F s i j ;; set s i j (g c)) = Done s' -> grid_shape s' H' W').
  { intros i j s s' Hss E. bind_inv E. eapply set_shape; eauto. }
  assert (Hrow : forall i s s', grid_shape s H' W' ->
            for_loop fuel (fun j => j <? W) (fun j s =>
              c <- F s i j ;; set s i j (g c)) 0 s = Done s' ->
            grid_shape s' H' W').
  { intros i s s' Hss E.
    apply (for_loop_inv (fun s => grid_shape s H' W')) in E; [exact E| |exact Hss].
    intros j t t'. apply Hcell. }
  rewrite (for_loop_lt _ _ H) by (auto; unfold Int.min_int; lia).
  apply (foldM_Fault (fun s => grid_shape s H' W') _ _ i0).
  - apply elem_of_seqZ. lia.
  - intros i s s'. apply Hrow.
  - intros i s.
    apply (for_loop_lt_fuel _ _ W); [auto|exact HW| |unfold Int.min_int; lia|lia].
    intros j t. apply bind_not_OutOfFuel; [apply HF|].
    intros c. apply set_not_OutOfFuel.
  - intros s Hss.
    rewrite (for_loop_lt _ _ W) by (auto; unfold Int.min_int; lia).
    apply (foldM_Fault (fun s => grid_shape s H' W') _ _ j0).
    + apply elem_of_seqZ. lia.
    + intros j t t'. apply Hcell.
    + intros j t. apply bind_not_OutOfFuel; [apply HF|].
      intros c. apply set_not_OutOfFuel.
    + intros t Hst. specialize (HF t i0 j0).
      destruct (F t i0 j0) as [c| |]; simpl; [|reflexivity|contradiction].
      eapply set_outside; eauto.
    + exact Hss.
  - exact Hs.
Qed.

(** X3: when the declared height or width names a cell [(i0, j0)] that the grid
    does not have, both copies index a vector out of its range: the pass is
    undefined behaviour, not a smaller sweep. *)
Theorem cellularAutomata_oversize fuel seed m W H R U H' W' i0 j0 :
  grid_shape m H' W' -> H <= Int.max_int -> W <= Int.max_int ->
  0 <= R < Int.max_int ->
  0 <= i0 < H -> 0 <= j0 < W -> ~ (0 <= i0 < H' /\ 0 <= j0 < W') ->
  (Z.to_nat H < fuel)%nat -> (Z.to_nat W < fuel)%nat ->
  (Z.to_nat (2 * R + 1) < fuel)%nat ->
  cellularAutomata fuel seed m W H R U = Fault /\
  cellularAutomata_inplace fuel seed m W H R U = Fault.
Proof.
  intros Hs HH HW HR Hi0 Hj0 Hout HfH HfW HfR. split.
  - apply (sweep_Fault fuel (fun _ i j => countOnes fuel m W H R i j)
      (fun c => applyRule c R U) m W H H' W' i0 j0); auto.
    intros s i j. apply countOnes_fuel; assumption.
  - apply (sweep_Fault fuel (fun s i j => countOnes fuel s W H R i j)
      (fun c => applyRule c R U) m W H H' W' i0 j0); auto.
    intros s i j. apply countOnes_fuel; assumption.
Qed.

End CellularAutomataFaults.

Lemma cellularAutomata_oversize_witness :
  cellularAutomata (random := no_draws) 10 0 dense_corner 4 3 1 half = Fault /\
  cellularAutomata_inplace (random := no_draws) 10 0 dense_corner 4 3 1 half = Fault.
Proof.
  apply (cellularAutomata_oversize (random := no_draws)
    10 0 dense_corner 4 3 1 half 3 3 0 3).
  - exact dense_corner_shape.
  - unfold Int.max_int. lia.
  - unfold Int.max_int. lia.
  - unfold Int.max_int. lia.
  - lia.
  - lia.
  - lia.
  - simpl. lia.
  - simpl. lia.
  - simpl. lia.
Defined.

(** Two grids of one shape that hold the same values are the same grid. *)
Lemma grid_ext (m1 m2 : Map) (H W : Z) :
  grid_shape m1 H W -> grid_shape m2 H W ->
  (forall i j, 0 <= i < H -> 0 <= j < W -> get m1 i j = get m2 i j) ->
  m1 = m2.
Proof.
  intros [Hl1 Hr1] [Hl2 Hr2] Hget. apply list_eq. intros n.
  destruct (m1 !! n) as [row1|] eqn:E1.
  - pose proof (lookup_lt_Some _ _ _ E1) as Hn.
    destruct (lookup_lt_is_Some_2 m2 n) as [row2 E2]; [lia|].
    rewrite E2. f_equal.
    pose proof (Forall_lookup_1 _ _ _ _ Hr1 E1) as Hw1.
    pose proof (Forall_lookup_1 _ _ _ _ Hr2 E2) as Hw2. simpl in Hw1, Hw2.
    apply list_eq. intros k.
    destruct (row1 !! k) as [v|] eqn:Ev.
    + pose proof (lookup_lt_Some _ _ _ Ev) as Hk.
      assert (Hg1 : get m1 (Z.of_nat n) (Z.of_nat k) = Done v).
      { apply get_Done. exists row1. rewrite !Nat2Z.id. repeat split; auto; lia. }
      rewrite Hget in Hg1 by lia.
      apply get_Done in Hg1 as (row & _ & Hrow & _ & Hv).
      rewrite !Nat2Z.id in *. congruence.
    + symmetry. apply lookup_ge_None. apply lookup_ge_None in Ev. lia.
  - symmetry. apply lookup_ge_None. apply lookup_ge_None in E1. lia.
Qed.

Section RadiusZero.

Context {D G : Type} {double_ops : Double D} {random : RandomSource G D}.

Implicit Types (m : Map) (U : D).

(** With the radius 0 the window of a cell is the cell. *)
Lemma countOnes_radius_0 fuel m W H i j :
  grid_shape m H W -> H <= Int.max_int -> W <= Int.max_int ->
  0 <= i < H -> 0 <= j < W -> (1 < fuel)%nat ->
  countOnes fuel m W H 0 i j = Done (Int.add 0 (cell m i j)).
Proof.
  intros Hs HH HW Hi Hj Hf. unfold countOnes.
  change (Int.neg 0) with 0.
  rewrite (for_loop_le _ _ 0);
    [|auto|unfold Int.max_int; lia|unfold Int.min_int; lia|simpl; lia].
  change (seqZ 0 (0 + 1 - 0)) with [0]. cbn [foldM].
  rewrite (for_loop_le _ _ 0);
    [|auto|unfold Int.max_int; lia|unfold Int.min_int; lia|simpl; lia].
  change (seqZ 0 (0 + 1 - 0)) with [0]. cbn [foldM].
  rewrite !add_small by (unfold Int.in_range, Int.min_int, Int.max_int in *; lia).
  rewrite !Z.add_0_r.
  replace ((0 <=? i) && (i <? H) && (0 <=? j) && (j <? W)) with true by lia.
  destruct (get_inside m H W i j Hs Hi Hj) as [v Hv].
  unfold cell. rewrite Hv. reflexivity.
Qed.

(** X4: with the radius 0 the two copies return the same grid: a cell is read
    before it is overwritten, and no other cell is read for it. *)
Theorem cellularAutomata_radius_0_copies_agree fuel seed m W H U :
  grid_shape m H W -> H <= Int.max_int -> W <= Int.max_int ->
  (Z.to_nat H < fuel)%nat -> (Z.to_nat W < fuel)%nat -> (1 < fuel)%nat ->
  exists out,
    cellularAutomata fuel seed m W H 0 U = Done out /\
    cellularAutomata_inplace fuel seed m W H 0 U = Done out.
Proof.
  intros Hs HH HW HfH HfW Hf.
  destruct (cellularAutomata_cells fuel seed m W H 0 U
    (fun i j => Int.add 0 (cell m i j)) Hs HH HW HfH HfW)
    as (out1 & E1 & Hs1 & Hout1).
  { intros i j Hi Hj. apply countOnes_radius_0; assumption. }
  exists out1. split; [exact E1|].
  unfold cellularAutomata_inplace.
  rewrite (for_loop_lt _ _ H) by (auto; unfold Int.min_int; lia).
  rewrite Z.sub_0_r.
  assert (H0 : 0 <= H) by (destruct Hs as [<- _]; lia).
  destruct (foldM_seqZ
    (fun i' s => grid_shape s H W /\
       forall a b, 0 <= a < H -> 0 <= b < W ->
         get s a b = if a <? i' then get out1 a b else get m a b)
    (fun i s => for_loop fuel (fun j => j <? W) (fun j s =>
        c <- countOnes fuel s W H 0 i j ;; set s i j (applyRule c 0 U)) 0 s)
    0 H H0) with (s := m) as (out2 & E2 & Hs2 & Hout2).
  - intros i s Hi [Hss Hcells].
    rewrite (for_loop_lt _ _ W) by (auto; unfold Int.min_int; lia).
    rewrite Z.sub_0_r.
    destruct (Z_lt_le_dec W 0) as [Hneg|HW0].
    { rewrite seqZ_nil by lia. simpl. exists s. split; [reflexivity|].
      split; [exact Hss|]. intros a b _ Hb. lia. }
    destruct (foldM_seqZ
      (fun j' s => grid_shape s H W /\
         forall a b, 0 <= a < H -> 0 <= b < W ->
           get s a b =
           if (a <? i) || ((a =? i) && (b <? j')) then get out1 a b
           else get m a b)
      (fun j s => c <- countOnes fuel s W H 0 i j ;; set s i j (applyRule c 0 U))
      0 W HW0) with (s := s) as (s' & E' & Hss' & Hcells').
    + intros j t Hj [Hst Ht].
      rewrite (countOnes_radius_0 fuel t W H i j Hst HH HW) by (assumption || lia).
      simpl.
      assert (Hc : cell t i j = cell m i j).
      { unfold cell. rewrite Ht by lia.
        replace ((i <? i) || ((i =? i) && (j <? j))) with false by lia.
        reflexivity. }
      rewrite Hc.
      destruct (set_inside t H W i j (applyRule (Int.add 0 (cell m i j)) 0 U) Hst)
        as [t' Et']; [lia..|].
      exists t'. split; [exact Et'|]. split; [eapply set_shape; eauto|].
      intros a b Ha Hb. destruct (decide ((a, b) = (i, j))) as [[= -> ->]|Hne].
      * rewrite (get_set_eq _ _ _ _ _ Et').
        replace ((i <? i) || ((i =? i) && (j <? j + 1))) with true by lia.
        symmetry. apply Hout1; lia.
      * rewrite (get_set_ne _ _ _ _ _ _ _ Et' Hne). rewrite Ht by assumption.
        assert (Hab : a <> i \/ b <> j).
        { destruct (decide (a = i)) as [->|]; [|auto].
          right. intros ->. apply Hne. reflexivity. }
        replace ((a <? i) || ((a =? i) && (b <? j + 1)))
          with ((a <? i) || ((a =? i) && (b <? j))) by lia.
        reflexivity.
    + split; [exact Hss|]. intros a b Ha Hb. rewrite Hcells by assumption.
      replace ((a <? i) || ((a =? i) && (b <? 0))) with (a <? i) by lia.
      reflexivity.
    + exists s'. split; [exact E'|]. split; [exact Hss'|].
      intros a b Ha Hb. rewrite Hcells' by assumption.
      replace ((a <? i) || ((a =? i) && (b <? 0 + W))) with (a <? i + 1) by lia.
      reflexivity.
  - split; [exact Hs|]. intros a b Ha Hb.
    replace (a <? 0) with false by lia. reflexivity.
  - rewrite E2. f_equal. apply (grid_ext out2 out1 H W Hs2 Hs1).
    intros i j Hi Hj. rewrite Hout2 by assumption.
    replace (i <? 0 + H) with true by lia. reflexivity.
Qed.

End RadiusZero.

Lemma cellularAutomata_radius_0_copies_agree_witness :
  exists out,
    cellularAutomata (random := no_draws) 10 0 dense_corner 3 3 0 half = Done out /\
    cellularAutomata_inplace (random := no_draws) 10 0 dense_corner 3 3 0 half
      = Done out.
Proof.
  apply (cellularAutomata_radius_0_copies_agree (random := no_draws)
    10 0 dense_corner 3 3 half).
  - exact dense_corner_shape.
  - unfold Int.max_int. lia.
  - unfold Int.max_int. lia.
  - simpl. lia.
  - simpl. lia.
  - lia.
Defined.

(** ** drunkAgent *)

Section DrunkAgentMore.

Context {D G : Type} {double_ops : Double D} {random : RandomSource G D}.

Variables (W H J I roomSizeX roomSizeY : Z).
Variables (probGenerateRoom probIncreaseRoom : D).
Variables (probChangeDirection probIncreaseChange : D).

Local Abbreviation carve := (carveRoom W H roomSizeX roomSizeY).
Local Abbreviation step :=
  (agentStep W H roomSizeX roomSizeY probGenerateRoom probIncreaseRoom
     probChangeDirection probIncreaseChange).
Local Abbreviation run :=
  (drunkAgent_run W H J I roomSizeX roomSizeY probGenerateRoom probIncreaseRoom
     probChangeDirection probIncreaseChange).
Local Abbreviation init := (agentInit probGenerateRoom probChangeDirection).

(** Partial correctness of a run, from the steps themselves. *)
Lemma drunkAgent_run_steps (P : @agent D G -> Prop) fuel seed m x y a :
  P (init seed m x y) ->
  (forall a g, P a -> P (with_gen a g)) ->
  (forall dir a dir' a', P a -> step fuel (dir, a) = Done (dir', a') -> P a') ->
  run fuel seed m x y = Done a -> P a.
Proof.
  intros Hinit Hgen Hstep E. unfold drunkAgent_run in E.
  apply (for_loop_inv P) in E; [exact E| |exact Hinit].
  clear E. intros _ a1 a2 Ha1 E. unfold agentWalk in E.
  destruct (distDirection (gen a1)) as [d g]. bind_inv E.
  destruct a0 as [d' a3]. injection E as <-.
  apply (for_loop_inv (fun st => P (snd st))) in E0; [exact E0| |].
  - clear E0. intros _ [d1 b1] [d2 b2] Hb1 E. simpl in *. eapply Hstep; eauto.
  - simpl. apply (Hgen a1 g Ha1).
Qed.

(** X5: the pass never resizes the grid: what it returns has the rows and the
    columns of what it was given, whatever those are. *)
Theorem drunkAgent_keeps_shape fuel seed r ret r' H' W' :
  drunkAgent W H J I roomSizeX roomSizeY probGenerateRoom probIncreaseRoom
    probChangeDirection probIncreaseChange fuel seed r = Done (ret, r') ->
  grid_shape (ref_currentMap r) H' W' -> grid_shape ret H' W'.
Proof.
  unfold drunkAgent. intros E Hs. bind_inv E. injection E as <- <-.
  apply (drunkAgent_run_inv W H J I roomSizeX roomSizeY probGenerateRoom
    probIncreaseRoom probChangeDirection probIncreaseChange
    (fun a => grid_shape (newMap a) H' W')) in E0.
  - exact E0.
  - exact Hs.
  - intros b g Hb. exact Hb.
  - intros dir b b' e Hb F.
    destruct (sf_carved _ _ _ _ _ _ _ _ _ _ _ F) as (_ & _ & Hshape).
    apply Hshape. exact Hb.
Qed.

(** X6: from a position that is not a cell of the grid, the first step of the
    first walk writes out of the range of a vector. *)
Theorem drunkAgent_outside_faults fuel seed m x y H' W' :
  grid_shape m H' W' -> ~ in_bounds H' W' (x, y) ->
  0 < J -> 0 < I -> (0 < fuel)%nat ->
  run fuel seed m x y = Fault.
Proof.
  intros Hs Hout HJ HI Hf. destruct fuel as [|f]; [lia|].
  unfold drunkAgent_run. rewrite for_loop_S.
  replace (0 <? J) with true by lia.
  unfold agentWalk at 1. simpl gen.
  destruct (distDirection (mt19937 seed)) as [d g].
  rewrite for_loop_S. replace (0 <? I) with true by lia.
  unfold agentStep at 1. simpl newMap. simpl agentX. simpl agentY.
  rewrite (set_outside m H' W' x y 1 Hs Hout). reflexivity.
Qed.

(** A room leaves a 1 at every index it logs. *)
Lemma carveRoom_holds fuel x0 y0 m w m' w' :
  carve fuel x0 y0 (m, w) = Done (m', w') ->
  Forall (holds_one m) w -> Forall (holds_one m') w'.
Proof.
  unfold carveRoom. intros E Hw.
  apply (for_loop_inv (fun s : Map * list (Z * Z) =>
    Forall (holds_one (fst s)) (snd s))) in E; [exact E| |exact Hw].
  clear E. intros x s s' Hs E.
  apply (for_loop_inv (fun s : Map * list (Z * Z) =>
    Forall (holds_one (fst s)) (snd s))) in E; [exact E| |exact Hs].
  clear. intros y [m1 w1] [m2 w2] Hall E. bind_inv E.
  injection E as <- <-. simpl in *. apply Forall_app. split.
  - eapply Forall_impl; [|exact Hall]. intros p Hp.
    destruct (carved_set _ _ _ _ E0) as (Hup & _). apply Hup. exact Hp.
  - constructor; [|constructor]. unfold holds_one. simpl.
    eapply get_set_eq, E0.
Qed.

Lemma carveRoom_keeps fuel x0 y0 m w m' w' p :
  carve fuel x0 y0 (m, w) = Done (m', w') -> p ∈ w -> p ∈ w'.
Proof.
  unfold carveRoom. intros E Hw.
  apply (for_loop_inv (fun s : Map * list (Z * Z) => p ∈ snd s)) in E;
    [exact E| |exact Hw].
  clear E. intros x s s' Hs E.
  apply (for_loop_inv (fun s : Map * list (Z * Z) => p ∈ snd s)) in E;
    [exact E| |exact Hs].
  clear. intros y [m1 w1] [m2 w2] Hin E. bind_inv E.
  injection E as <- <-. simpl in *. apply elem_of_app. left. exact Hin.
Qed.

(** What a step logs as written holds 1 when the step ends, the position
    the agent stood on included. *)
Lemma agentStep_written fuel dir (a : @agent D G) dir' a' :
  step fuel (dir, a) = Done (dir', a') ->
  exists e, log a' = log a ++ [e] /\
    at_pos e = (agentX a, agentY a) /\ at_pos e ∈ written e /\
    Forall (holds_one (newMap a')) (written e) /\
    carved (newMap a) (newMap a').
Proof.
  intros E. pose proof E as E'. unfold agentStep in E.
  bind_inv E. rename a0 into m1, E0 into Eset.
  destruct (distProb (gen a)) as [roll1 g1].
  assert (Hroom : exists m2 w probRoom fired,
    (if dlt roll1 (currentProbRoom a)
     then '(m, w) <- carve fuel (agentX a) (agentY a)
                       (m1, [(agentX a, agentY a)]) ;;
          Done (m, w, probGenerateRoom, true)
     else Done (m1, [(agentX a, agentY a)],
                dadd (currentProbRoom a) probIncreaseRoom, false))
    = Done (m2, w, probRoom, fired) /\
    (agentX a, agentY a) ∈ w /\ Forall (holds_one m2) w).
  { assert (H1 : Forall (holds_one m1) [(agentX a, agentY a)]).
    { constructor; [|constructor]. unfold holds_one. simpl.
      eapply get_set_eq, Eset. }
    destruct (dlt roll1 (currentProbRoom a)).
    - destruct (carve fuel (agentX a) (agentY a) (m1, [(agentX a, agentY a)]))
        as [[m2 w]| |] eqn:Ec; simpl in E; try discriminate.
      exists m2, w, probGenerateRoom, true. simpl. split; [reflexivity|]. split.
      + eapply carveRoom_keeps; [exact Ec|]. apply list_elem_of_singleton.
        reflexivity.
      + eapply carveRoom_holds; eauto.
    - exists m1, [(agentX a, agentY a)],
        (dadd (currentProbRoom a) probIncreaseRoom), false.
      split; [reflexivity|]. split; [|exact H1].
      apply list_elem_of_singleton. reflexivity. }
  destruct Hroom as (m2 & w & probRoom & fired & Eroom & Hin & Hall).
  rewrite Eroom in E. simpl in E. clear Eroom.
  destruct (agentStep_Done _ _ _ _ _ _ _ _ _ _ _ _ _ E') as [e0 F0].
  pose proof (sf_carved _ _ _ _ _ _ _ _ _ _ _ F0) as Hcarved.
  destruct (distProb g1) as [roll2 g2].
  destruct (dlt roll2 (currentProbChange a)) eqn:Hroll2.
  - destruct (distDirection g2) as [d g3].
    bind_inv E. destruct a0 as [dx dy].
    destruct ((0 <=? Int.add (agentX a) dx) && (Int.add (agentX a) dx <? H) &&
              (0 <=? Int.add (agentY a) dy) && (Int.add (agentY a) dy <? W)).
    + injection E as <- <-. eexists. simpl.
      split; [reflexivity|]. split; [reflexivity|]. split; [exact Hin|].
      split; [exact Hall|exact Hcarved].
    + destruct (distDirection g3) as [d' g4].
      injection E as <- <-. eexists. simpl.
      split; [reflexivity|]. split; [reflexivity|]. split; [exact Hin|].
      split; [exact Hall|exact Hcarved].
  - bind_inv E. destruct a0 as [dx dy].
    destruct ((0 <=? Int.add (agentX a) dx) && (Int.add (agentX a) dx <? H) &&
              (0 <=? Int.add (agentY a) dy) && (Int.add (agentY a) dy <? W)).
    + injection E as <- <-. eexists. simpl.
      split; [reflexivity|]. split; [reflexivity|]. split; [exact Hin|].
      split; [exact Hall|exact Hcarved].
    + destruct (distDirection g2) as [d' g4].
      injection E as <- <-. eexists. simpl.
      split; [reflexivity|]. split; [reflexivity|]. split; [exact Hin|].
      split; [exact Hall|exact Hcarved].
Qed.

(** X7: everything the pass writes stays: in the grid a run returns, every index
    a step wrote holds 1, and so does every position the agent stood on at
    the start of a step. *)
Theorem drunkAgent_marks_stay fuel seed m x y a :
  run fuel seed m x y = Done a ->
  Forall (fun e => holds_one (newMap a) (at_pos e) /\
                   Forall (holds_one (newMap a)) (written e)) (log a).
Proof.
  intros E.
  apply (drunkAgent_run_steps
    (fun a => Forall (fun e => at_pos e ∈ written e /\
                Forall (holds_one (newMap a)) (written e)) (log a))) in E.
  - eapply Forall_impl; [|exact E]. intros e [Hin Hall]. split; [|exact Hall].
    rewrite Forall_forall in Hall. apply Hall. apply list_elem_of_In. exact Hin.
  - constructor.
  - intros b g Hb. exact Hb.
  - intros dir b dir' b' Hb Es.
    apply agentStep_written in Es as (e & Hlog & _ & Hin & Hall & Hc).
    rewrite Hlog. apply Forall_app. split.
    + eapply Forall_impl; [|exact Hb]. intros e0 [Hin0 Hall0].
      split; [exact Hin0|]. eapply Forall_impl; [|exact Hall0].
      intros p Hp. destruct Hc as (Hup & _). apply Hup. exact Hp.
    + constructor; [|constructor]. split; assumption.
Qed.

End DrunkAgentMore.

Section DrunkAgentPath.

Context {D G : Type} {double_ops : Double D} {random : RandomSource G D}.

Variables (W H J I roomSizeX roomSizeY : Z).
Variables (probGenerateRoom probIncreaseRoom : D).
Variables (probChangeDirection probIncreaseChange : D).

Local Abbreviation carve := (carveRoom W H roomSizeX roomSizeY).
Local Abbreviation step :=
  (agentStep W H roomSizeX roomSizeY probGenerateRoom probIncreaseRoom
     probChangeDirection probIncreaseChange).
Local Abbreviation run :=
  (drunkAgent_run W H J I roomSizeX roomSizeY probGenerateRoom probIncreaseRoom
     probChangeDirection probIncreaseChange).

Lemma directions_unit d dx dy :
  index directions d = Done (dx, dy) ->
  (dx, dy) = (-1, 0) \/ (dx, dy) = (1, 0) \/ (dx, dy) = (0, -1) \/ (dx, dy) = (0, 1).
Proof.
  intros E. apply index_Done in E as [_ E].
  destruct (Z.to_nat d) as [|[|[|[|n]]]]; simpl in E; try discriminate;
    injection E as <- <-; auto.
Qed.

Lemma final_pos_cons (p : Z * Z) (e : @step_log D) l :
  final_pos p (e :: l) = final_pos (to_pos e) l.
Proof.
  unfold final_pos. destruct l as [|e2 l']; [reflexivity|].
  rewrite last_cons_cons.
  destruct (list.last (e2 :: l')) eqn:El; [reflexivity|].
  apply last_None in El. discriminate.
Qed.

Lemma trajectory_snoc (p : Z * Z) (l : list (@step_log D)) e :
  trajectory p l -> at_pos e = final_pos p l ->
  (if bounced e then to_pos e = at_pos e else adjacent (at_pos e) (to_pos e)) ->
  trajectory p (l ++ [e]).
Proof.
  revert p. induction l as [|e1 l IH]; intros p Hl Hat He.
  - simpl. unfold final_pos in Hat. simpl in Hat. rewrite Hat in He. auto.
  - destruct Hl as (H1 & H2 & Hl). simpl. split; [exact H1|]. split; [exact H2|].
    apply IH; [exact Hl| |exact He]. rewrite Hat. apply final_pos_cons.
Qed.

(** A step from a cell of the grid leaves the agent on that cell, when the
    next cell in its direction is outside the grid, or moves it to that next
    cell, which is in the grid and next to the one it left. *)
Lemma agentStep_move fuel dir (a : @agent D G) dir' a' :
  H <= Int.max_int -> W <= Int.max_int ->
  in_bounds H W (agentX a, agentY a) ->
  step fuel (dir, a) = Done (dir', a') ->
  exists e, log a' = log a ++ [e] /\
    at_pos e = (agentX a, agentY a) /\ to_pos e = (agentX a', agentY a') /\
    (if bounced e then to_pos e = at_pos e else adjacent (at_pos e) (to_pos e)) /\
    in_bounds H W (agentX a', agentY a').
Proof.
  intros HH HW [Hx Hy] E. simpl in Hx, Hy. unfold agentStep in E.
  apply bind_Done in E as (m1 & _ & E).
  destruct (distProb (gen a)) as [roll1 g1].
  apply bind_Done in E as ([[[m2 w] pr] fired] & _ & E).
  destruct (distProb g1) as [roll2 g2].
  assert (Hfin : forall dir0 g0 pc ch,
    (v <- index directions dir0 ;;
     let '(dx, dy) := v in
     let nextX := Int.add (agentX a) dx in
     let nextY := Int.add (agentY a) dy in
     let inside := (0 <=? nextX) && (nextX <? H) && (0 <=? nextY) && (nextY <? W) in
     let '(x1, y1, dir1, g3, probChange) :=
       if inside then (nextX, nextY, dir0, g0, pc)
       else let '(d, g3) := distDirection g0 in
            (agentX a, agentY a, d, g3, probChangeDirection) in
     Done (dir1,
        {| newMap := m2; agentX := x1; agentY := y1; gen := g3;
           currentProbRoom := pr; currentProbChange := probChange;
           log := log a ++
             [{| at_pos := (agentX a, agentY a); direction := dir;
                 written := w; room_fired := fired;
                 probRoom_before := currentProbRoom a;
                 probRoom_after := pr;
                 change_fired := ch; bounced := negb inside;
                 probChange_before := currentProbChange a;
                 probChange_after := probChange;
                 to_pos := (x1, y1) |}] |})) = Done (dir', a') ->
    exists e, log a' = log a ++ [e] /\
      at_pos e = (agentX a, agentY a) /\ to_pos e = (agentX a', agentY a') /\
      (if bounced e then to_pos e = at_pos e else adjacent (at_pos e) (to_pos e)) /\
      in_bounds H W (agentX a', agentY a')).
  { clear E. intros dir0 g0 pc ch E.
    apply bind_Done in E as ([dx dy] & Ed & E). cbv zeta in E.
    apply directions_unit in Ed.
    destruct ((0 <=? Int.add (agentX a) dx) && (Int.add (agentX a) dx <? H) &&
              (0 <=? Int.add (agentY a) dy) && (Int.add (agentY a) dy <? W)) eqn:Hin.
    - injection E as <- <-. eexists. simpl.
      split; [reflexivity|]. split; [reflexivity|]. split; [reflexivity|].
      split; [|unfold in_bounds; simpl; lia].
      assert (Int.add (agentX a) dx = agentX a + dx /\
              Int.add (agentY a) dy = agentY a + dy) as [-> ->].
      { destruct Ed as [[= -> ->]|[[= -> ->]|[[= -> ->]|[= -> ->]]]];
          split; apply add_small;
          unfold Int.in_range, Int.min_int, Int.max_int in *; lia. }
      unfold adjacent. simpl.
      destruct Ed as [[= -> ->]|[[= -> ->]|[[= -> ->]|[= -> ->]]]]; lia.
    - destruct (distDirection g0) as [d' g4]. injection E as <- <-.
      eexists. simpl.
      split; [reflexivity|]. split; [reflexivity|]. split; [reflexivity|].
      split; [reflexivity|]. unfold in_bounds. simpl. lia. }
  destruct (dlt roll2 (currentProbChange a)).
  - destruct (distDirection g2) as [d g3]. eapply Hfin. exact E.
  - eapply Hfin. exact E.
Qed.

(** X8: the agent walks a path of adjacent cells: in a run from a cell of the
    grid, every step starts where the step before it ended, the first one at
    the position passed in; a step that bounces off the border stays, any
    other step ends on a cell next to the one it started on; and the position
    the run leaves is where the last step ended. *)
Theorem drunkAgent_trajectory fuel seed m x y a :
  H <= Int.max_int -> W <= Int.max_int -> in_bounds H W (x, y) ->
  run fuel seed m x y = Done a ->
  trajectory (x, y) (log a) /\ final_pos (x, y) (log a) = (agentX a, agentY a).
Proof.
  intros HH HW Hp E.
  apply (drunkAgent_run_steps W H J I roomSizeX roomSizeY probGenerateRoom
    probIncreaseRoom probChangeDirection probIncreaseChange
    (fun a => in_bounds H W (agentX a, agentY a) /\
       trajectory (x, y) (log a) /\
       final_pos (x, y) (log a) = (agentX a, agentY a))) in E.
  - destruct E as (_ & Ht & Hf). auto.
  - simpl. split; [exact Hp|]. split; [exact Logic.I|reflexivity].
  - intros b g Hb. exact Hb.
  - intros dir b dir' b' (Hb & Ht & Hf) Es.
    apply (agentStep_move _ _ _ _ _ HH HW Hb) in Es
      as (e & Hlog & Hat & Hto & Hmove & Hb').
    split; [exact Hb'|]. rewrite Hlog. split.
    + apply trajectory_snoc; [exact Ht|congruence|exact Hmove].
    + unfold final_pos. rewrite last_snoc. exact Hto.
Qed.

(** X9: the cells a room covers: on a grid of [H] rows and [W] columns, around a
    centre in the grid, with non-negative sizes, the loops set to 1 the cells
    of the grid whose row is within [roomSizeX / 2] of the centre's and whose
    column is within [roomSizeY / 2] of it, and leave every other cell as it
    was. *)
Theorem carveRoom_rectangle fuel x0 y0 m w :
  grid_shape m H W -> H <= Int.max_int -> W <= Int.max_int ->
  in_bounds H W (x0, y0) ->
  0 <= roomSizeX <= Int.max_int -> 0 <= roomSizeY <= Int.max_int ->
  x0 + roomSizeX / 2 <= Int.max_int -> y0 + roomSizeY / 2 <= Int.max_int ->
  (Z.to_nat H < fuel)%nat -> (Z.to_nat W < fuel)%nat ->
  exists m' w',
    carve fuel x0 y0 (m, w) = Done (m', w') /\ grid_shape m' H W /\
    forall i j, 0 <= i < H -> 0 <= j < W ->
      get m' i j =
      if (Z.abs (i - x0) <=? roomSizeX / 2) && (Z.abs (j - y0) <=? roomSizeY / 2)
      then Done 1 else get m i j.
Proof.
  intros Hs HH HW [Hx0 Hy0] HrX HrY HoX HoY HfH HfW. simpl in Hx0, Hy0.
  unfold carveRoom.
  assert (HqX : Int.div roomSizeX 2 = roomSizeX / 2).
  { unfold Int.div. rewrite Z.quot_div_nonneg by lia.
    apply wrap_small. unfold Int.in_range, Int.min_int, Int.max_int in *.
    pose proof (Z.div_pos roomSizeX 2).
    pose proof (Z.div_le_upper_bound roomSizeX 2 roomSizeX). lia. }
  assert (HqY : Int.div roomSizeY 2 = roomSizeY / 2).
  { unfold Int.div. rewrite Z.quot_div_nonneg by lia.
    apply wrap_small. unfold Int.in_range, Int.min_int, Int.max_int in *.
    pose proof (Z.div_pos roomSizeY 2).
    pose proof (Z.div_le_upper_bound roomSizeY 2 roomSizeY). lia. }
  rewrite HqX, HqY.
  assert (0 <= roomSizeX / 2 <= roomSizeX).
  { pose proof (Z.div_pos roomSizeX 2).
    pose proof (Z.div_le_upper_bound roomSizeX 2 roomSizeX). lia. }
  assert (0 <= roomSizeY / 2 <= roomSizeY).
  { pose proof (Z.div_pos roomSizeY 2).
    pose proof (Z.div_le_upper_bound roomSizeY 2 roomSizeY). lia. }
  set (hx := roomSizeX / 2) in *. set (hy := roomSizeY / 2) in *.
  rewrite !sub_small, !add_small
    by (unfold Int.in_range, Int.min_int, Int.max_int in *; lia).
  set (sx := Z.max 0 (x0 - hx)). set (ex := Z.min (H - 1) (x0 + hx)).
  set (sy := Z.max 0 (y0 - hy)). set (ey := Z.min (W - 1) (y0 + hy)).
  rewrite (for_loop_le _ _ ex);
    [|auto|unfold Int.max_int in *; lia|unfold Int.min_int; lia|lia].
  destruct (foldM_seqZ_max
    (fun x' (s : Map * list (Z * Z)) => grid_shape (fst s) H W /\
       forall i j, 0 <= i < H -> 0 <= j < W ->
         get (fst s) i j =
         if (sx <=? i) && (i <? x') && (sy <=? j) && (j <=? ey)
         then Done 1 else get m i j)
    (fun x s => for_loop fuel (fun y => y <=? ey) (fun y '(m, w) =>
       m' <- set m x y 1 ;; Done (m', w ++ [(x, y)])) sy s)
    sx (ex + 1 - sx)) with (s := (m, w)) as ([m' w'] & E & Hs' & Hcells).
  - intros x [m1 w1] Hx [Hs1 Hc1]. simpl in Hs1, Hc1.
    rewrite (for_loop_le _ _ ey);
      [|auto|unfold Int.max_int in *; lia|unfold Int.min_int; lia|lia].
    destruct (foldM_seqZ_max
      (fun y' (s : Map * list (Z * Z)) => grid_shape (fst s) H W /\
         forall i j, 0 <= i < H -> 0 <= j < W ->
           get (fst s) i j =
           if ((sx <=? i) && (i <? x) && (sy <=? j) && (j <=? ey)) ||
              ((i =? x) && (sy <=? j) && (j <? y'))
           then Done 1 else get m i j)
      (fun y '(m, w) => m' <- set m x y 1 ;; Done (m', w ++ [(x, y)]))
      sy (ey + 1 - sy)) with (s := (m1, w1)) as ([m2 w2] & E2 & Hs2 & Hc2).
    + intros y [m3 w3] Hy [Hs3 Hc3]. simpl in Hs3, Hc3.
      destruct (set_inside m3 H W x y 1 Hs3) as [m4 E4]; [lia..|].
      rewrite E4. simpl. eexists. split; [reflexivity|]. simpl.
      split; [eapply set_shape; eauto|].
      intros i j Hi Hj. destruct (decide ((i, j) = (x, y))) as [[= -> ->]|Hne].
      * rewrite (get_set_eq _ _ _ _ _ E4).
        replace (((sx <=? x) && (x <? x) && (sy <=? y) && (y <=? ey)) ||
                 ((x =? x) && (sy <=? y) && (y <? y + 1))) with true by lia.
        reflexivity.
      * rewrite (get_set_ne _ _ _ _ _ _ _ E4 Hne). rewrite Hc3 by assumption.
        assert (Hab : i <> x \/ j <> y).
        { destruct (decide (i = x)) as [->|]; [|auto].
          right. intros ->. apply Hne. reflexivity. }
        replace (((sx <=? i) && (i <? x) && (sy <=? j) && (j <=? ey)) ||
                 ((i =? x) && (sy <=? j) && (j <? y + 1)))
          with (((sx <=? i) && (i <? x) && (sy <=? j) && (j <=? ey)) ||
                ((i =? x) && (sy <=? j) && (j <? y))) by lia.
        reflexivity.
    + simpl. split; [exact Hs1|]. intros i j Hi Hj. rewrite Hc1 by assumption.
      replace (((sx <=? i) && (i <? x) && (sy <=? j) && (j <=? ey)) ||
               ((i =? x) && (sy <=? j) && (j <? sy)))
        with ((sx <=? i) && (i <? x) && (sy <=? j) && (j <=? ey)) by lia.
      reflexivity.
    + exists (m2, w2). split; [exact E2|]. simpl in *. split; [exact Hs2|].
      intros i j Hi Hj. rewrite Hc2 by assumption.
      replace (((sx <=? i) && (i <? x) && (sy <=? j) && (j <=? ey)) ||
               ((i =? x) && (sy <=? j) && (j <? sy + Z.max 0 (ey + 1 - sy))))
        with ((sx <=? i) && (i <? x + 1) && (sy <=? j) && (j <=? ey)) by lia.
      reflexivity.
  - simpl. split; [exact Hs|]. intros i j Hi Hj.
    replace ((sx <=? i) && (i <? sx) && (sy <=? j) && (j <=? ey)) with false by lia.
    reflexivity.
  - exists m', w'. split; [exact E|]. simpl in *. split; [exact Hs'|].
    intros i j Hi Hj. rewrite Hcells by assumption.
    replace ((sx <=? i) && (i <? sx + Z.max 0 (ex + 1 - sx)) && (sy <=? j) &&
             (j <=? ey))
      with ((Z.abs (i - x0) <=? hx) && (Z.abs (j - y0) <=? hy)) by lia.
    reflexivity.
Qed.

End DrunkAgentPath.

Lemma zeros4_shape : grid_shape zeros4 4 4.
Proof. split; [reflexivity|repeat constructor]. Qed.

Lemma drunkAgent_keeps_shape_witness :
  exists ret r',
    drunkAgent (random := scripted [1; 0; 50; 50; 50; 50])
      3 3 1 2 3 3 (literal 1 5) (literal 1 10) (literal 1 5) (literal 3 100)
      10 0 {| ref_currentMap := dense_corner; ref_agentX := 2; ref_agentY := 2 |}
      = Done (ret, r') /\
    grid_shape ret 3 3.
Proof.
  do 2 eexists. split; [vm_compute; reflexivity|].
  eapply (drunkAgent_keeps_shape (random := scripted [1; 0; 50; 50; 50; 50])
    3 3 1 2 3 3 (literal 1 5) (literal 1 10) (literal 1 5) (literal 3 100)
    10 0 {| ref_currentMap := dense_corner; ref_agentX := 2; ref_agentY := 2 |}).
  - vm_compute. reflexivity.
  - exact dense_corner_shape.
Defined.

Lemma drunkAgent_outside_faults_witness :
  drunkAgent_run (random := no_draws) 4 4 1 1 3 3
    (of_int 1) (of_int 0) (of_int 0) (of_int 0) 10 0 zeros4 4 2 = Fault.
Proof.
  apply (drunkAgent_outside_faults (random := no_draws) 4 4 1 1 3 3
    (of_int 1) (of_int 0) (of_int 0) (of_int 0) 10 0 zeros4 4 2 4 4).
  - exact zeros4_shape.
  - unfold in_bounds. simpl. lia.
  - lia.
  - lia.
  - lia.
Defined.

Lemma drunkAgent_marks_stay_witness :
  exists a,
    drunkAgent_run (random := scripted [0; 50; 50; 10; 50; 2; 50; 50; 3; 50; 50])
      4 4 2 3 3 3 (literal 1 5) (literal 1 10) (literal 1 5) (literal 3 100)
      10 0 zeros4 2 2 = Done a /\
    Forall (fun e => holds_one (newMap a) (at_pos e) /\
                     Forall (holds_one (newMap a)) (written e)) (log a).
Proof.
  eexists. split; [vm_compute; reflexivity|].
  apply (drunkAgent_marks_stay
    (random := scripted [0; 50; 50; 10; 50; 2; 50; 50; 3; 50; 50])
    4 4 2 3 3 3 (literal 1 5) (literal 1 10) (literal 1 5) (literal 3 100)
    10 0 zeros4 2 2).
  vm_compute. reflexivity.
Defined.

Lemma drunkAgent_trajectory_witness :
  exists a,
    drunkAgent_run (random := scripted [0; 50; 50; 10; 50; 2; 50; 50; 3; 50; 50])
      4 4 2 3 3 3 (literal 1 5) (literal 1 10) (literal 1 5) (literal 3 100)
      10 0 zeros4 2 2 = Done a /\
    trajectory (2, 2) (log a) /\ final_pos (2, 2) (log a) = (agentX a, agentY a).
Proof.
  eexists. split; [vm_compute; reflexivity|].
  apply (drunkAgent_trajectory
    (random := scripted [0; 50; 50; 10; 50; 2; 50; 50; 3; 50; 50])
    4 4 2 3 3 3 (literal 1 5) (literal 1 10) (literal 1 5) (literal 3 100)
    10 0 zeros4 2 2).
  - unfold Int.max_int. lia.
  - unfold Int.max_int. lia.
  - unfold in_bounds. simpl. lia.
  - vm_compute. reflexivity.
Defined.

Lemma carveRoom_rectangle_witness :
  exists m' w',
    carveRoom 4 4 3 5 10 3 0 (zeros4, []) = Done (m', w') /\ grid_shape m' 4 4 /\
    forall i j, 0 <= i < 4 -> 0 <= j < 4 ->
      get m' i j =
      if (Z.abs (i - 3) <=? 3 / 2) && (Z.abs (j - 0) <=? 5 / 2)
      then Done 1 else get zeros4 i j.
Proof.
  apply (carveRoom_rectangle 4 4 3 5 10 3 0 zeros4 []).
  - exact zeros4_shape.
  - unfold Int.max_int. lia.
  - unfold Int.max_int. lia.
  - unfold in_bounds. simpl. lia.
  - unfold Int.max_int. lia.
  - unfold Int.max_int. lia.
  - unfold Int.max_int. change (3 / 2) with 1. lia.
  - unfold Int.max_int. change (5 / 2) with 2. lia.
  - simpl. lia.
  - simpl. lia.
Defined.

(** ** main *)

Section MainSafety.

Context {D G : Type} {double_ops : Double D} {random : RandomSource G D}.

Variable clock : Z -> Z.

Lemma binary_grid_set (m m' : Map) i j v :
  binary_grid m -> v = 0 \/ v = 1 -> set m i j v = Done m' -> binary_grid m'.
Proof.
  intros Hb Hv E a b u Hu. destruct (decide ((a, b) = (i, j))) as [[= -> ->]|Hne].
  - rewrite (get_set_eq _ _ _ _ _ E) in Hu. injection Hu as <-. exact Hv.
  - rewrite (get_set_ne _ _ _ _ _ _ _ E Hne) in Hu. eapply Hb, Hu.
Qed.

Lemma binary_grid_carved (m m' : Map) :
  binary_grid m -> carved m m' -> binary_grid m'.
Proof.
  intros Hb (_ & Hdown & _) i j v Hv.
  destruct (Hdown i j v Hv) as [->|Hv']; [auto|eapply Hb, Hv'].
Qed.

Lemma zeros_printable :
  printable (replicate (Z.to_nat mapRows) (replicate (Z.to_nat mapCols) 0)).
Proof.
  split.
  - split; [reflexivity|]. apply Forall_replicate. reflexivity.
  - intros i j v Hv. apply get_Done in Hv as (row & _ & Hrow & _ & Hv).
    apply lookup_replicate in Hrow as [-> _].
    apply lookup_replicate in Hv as [-> _]. auto.
Qed.

(** Lines 165-179: whatever the engine draws, the driver starts with a grid
    of 10 rows and 20 columns of zeros and ones, printed once, and with the
    agent on the cell (5, 10). *)
Lemma mainInit_returns fuel :
  (20 < fuel)%nat ->
  exists d : @driver D G,
    mainInit clock fuel = Done d /\ printable (myMap d) /\
    (drunkAgentX d, drunkAgentY d) = (5, 10) /\
    printed d = [myMap d] /\ calls d = [].
Proof.
  intros Hf. unfold mainInit.
  rewrite (for_loop_lt _ _ mapRows);
    [|auto|unfold mapRows, Int.max_int; lia|unfold Int.min_int; lia
     |unfold mapRows; simpl; lia].
  destruct (foldM_total (fun s : Map * G => printable (fst s))
    (fun i s =>
       for_loop fuel (fun j => j <? mapCols) (fun j '(m, g) =>
         let '(bit, g) := uniform_int 0 1 g in
         m' <- set m i j bit ;; Done (m', g)) 0 s)
    (seqZ 0 (mapRows - 0))) with
    (s := (replicate (Z.to_nat mapRows) (replicate (Z.to_nat mapCols) 0),
           mt19937 (clock 0))) as ([m g] & E & Hp).
  - intros i s Hi Hs. apply elem_of_seqZ in Hi.
    rewrite (for_loop_lt _ _ mapCols);
      [|auto|unfold mapCols, Int.max_int; lia|unfold Int.min_int; lia
       |unfold mapCols; simpl; lia].
    apply (foldM_total (fun s : Map * G => printable (fst s))); [|exact Hs].
    intros j [m1 g1] Hj [Hs1 Hb1]. apply elem_of_seqZ in Hj. simpl in Hs1, Hb1.
    pose proof (uniform_int_range 0 1 g1) as Hbit.
    destruct (uniform_int 0 1 g1) as [bit g2]. simpl in Hbit.
    destruct (set_inside m1 mapRows mapCols i j bit Hs1) as [m2 E2]; [lia..|].
    rewrite E2. simpl. eexists. split; [reflexivity|]. simpl. split.
    + eapply set_shape; eauto.
    + eapply binary_grid_set; [exact Hb1| |exact E2]. lia.
  - exact zeros_printable.
  - rewrite E. simpl. eexists. split; [reflexivity|]. simpl.
    split; [exact Hp|]. repeat split.
Qed.

(** On a printable grid, from a cell of it, with counts below the fuel,
    [drunkAgent] returns a printable grid and leaves the agent on a cell. *)
Lemma drunkAgent_printable J I roomSizeX roomSizeY
    (probGenerateRoom probIncreaseRoom probChangeDirection probIncreaseChange : D)
    fuel seed (r : references) :
  printable (ref_currentMap r) -> in_bounds mapRows mapCols (pos_of r) ->
  J <= 20 -> I <= 20 -> (20 < fuel)%nat ->
  exists ret r',
    drunkAgent (G := G) mapCols mapRows J I roomSizeX roomSizeY
      probGenerateRoom probIncreaseRoom probChangeDirection probIncreaseChange
      fuel seed r = Done (ret, r') /\
    printable ret /\ in_bounds mapRows mapCols (pos_of r').
Proof.
  intros [Hs Hb] Hp HJ HI Hf. unfold drunkAgent.
  destruct (drunkAgent_run_returns (random := random) mapCols mapRows J I
    roomSizeX roomSizeY
    probGenerateRoom probIncreaseRoom probChangeDirection probIncreaseChange
    fuel seed (ref_currentMap r) (ref_agentX r) (ref_agentY r))
    as (a & E & _); try exact Hs; try exact Hp;
    try (unfold mapRows, mapCols, Int.max_int; simpl; lia).
  rewrite E. simpl. do 2 eexists. split; [reflexivity|].
  apply (drunkAgent_run_inv mapCols mapRows J I roomSizeX roomSizeY
    probGenerateRoom probIncreaseRoom probChangeDirection probIncreaseChange
    (fun a => safe mapCols mapRows a /\ binary_grid (newMap a))) in E.
  - destruct E as [[Hs' Hp'] Hb']. split; [split; assumption|exact Hp'].
  - simpl. split; [split; assumption|exact Hb].
  - intros b g Hb0. exact Hb0.
  - intros dir b b' e [Hsafe Hbin] F. split.
    + eapply step_facts_safe; eauto.
    + eapply binary_grid_carved; [exact Hbin|].
      apply (sf_carved _ _ _ _ _ _ _ _ _ _ _ F).
Qed.

(** The first copy of [cellularAutomata] on a grid of the driver's size. *)
Lemma cellularAutomata_printable fuel seed (m : Map) :
  grid_shape m mapRows mapCols -> (20 < fuel)%nat ->
  exists out, cellularAutomata (G := G) fuel seed m ca_W ca_H ca_R ca_U = Done out /\
    printable out.
Proof.
  intros Hs Hf.
  destruct (sweep_spec fuel (fun _ i j => countOnes fuel m ca_W ca_H ca_R i j)
    (fun c => applyRule c ca_R ca_U) (fun _ _ v => v = 0 \/ v = 1)
    m ca_W ca_H Hs) as (out & E & Hso & Hout);
    try (unfold ca_W, ca_H, mapRows, mapCols, Int.max_int; simpl; lia).
  - intros s i j _ Hi Hj.
    destruct (countOnes_returns fuel m ca_W ca_H ca_R i j Hs) as [c Ec];
      try (unfold ca_R, Int.max_int; simpl; lia).
    exists c. split; [exact Ec|apply applyRule_binary].
  - exists out. split; [exact E|]. split; [exact Hso|].
    intros i j v Hv. destruct (get_bounds out _ _ i j v Hso Hv) as [Hi Hj].
    destruct (Hout i j Hi Hj) as (v' & Hv' & Hbin). congruence.
Qed.

(** The second copy, likewise. *)
Lemma cellularAutomata_inplace_printable fuel seed (m : Map) :
  grid_shape m mapRows mapCols -> (20 < fuel)%nat ->
  exists out,
    cellularAutomata_inplace (G := G) fuel seed m ca_W ca_H ca_R ca_U = Done out /\
    printable out.
Proof.
  intros Hs Hf.
  destruct (cellularAutomata_inplace_returns (random := random) fuel seed m
    ca_W ca_H ca_R ca_U Hs) as (out & E & Hso & Hout);
    try (unfold ca_W, ca_H, ca_R, mapRows, mapCols, Int.max_int; simpl; lia).
  exists out. split; [exact E|]. split; [exact Hso|].
  intros i j v Hv. destruct (get_bounds out _ _ i j v Hso Hv) as [Hi Hj].
  destruct (Hout i j Hi Hj) as (v' & Hv' & Hbin). congruence.
Qed.

(** The state of the driver between two iterations. *)
Definition driver_ok (n : Z) (d : @driver D G) : Prop :=
  printable (myMap d) /\
  in_bounds mapRows mapCols (drunkAgentX d, drunkAgentY d) /\
  Z.of_nat (length (printed d)) = n + 1 /\
  Forall printable (printed d).

Lemma mainIteration_returns fuel iteration n (d : @driver D G) :
  (20 < fuel)%nat -> driver_ok n d ->
  exists d', mainIteration clock fuel iteration d = Done d' /\ driver_ok (n + 1) d'.
Proof.
  intros Hf ([Hs Hb] & Hp & Hlen & Hall). unfold mainIteration.
  pose proof (uniform_int_range 3 7 (main_gen d)) as HJ.
  destruct (uniform_int 3 7 (main_gen d)) as [da_J g1].
  pose proof (uniform_int_range 5 15 g1) as HI.
  destruct (uniform_int 5 15 g1) as [da_I g2].
  destruct (uniform_int 3 7 g2) as [da_roomSizeX g3].
  destruct (uniform_int 2 5 g3) as [da_roomSizeY g4].
  destruct (uniform_real (literal 5 100) (literal 3 10) g4) as [pR g5].
  destruct (uniform_real (literal 1 100) (literal 1 10) g5) as [iR g6].
  destruct (uniform_real (literal 5 100) (literal 3 10) g6) as [pC g7].
  destruct (uniform_real (literal 1 100) (literal 1 10) g7) as [iC g8].
  simpl in HJ, HI.
  destruct (cellularAutomata_printable fuel (clock (2 * iteration + 1))
    (myMap d) Hs Hf) as (m & Em & Hpm).
  rewrite Em. simpl.
  destruct (drunkAgent_printable da_J da_I da_roomSizeX da_roomSizeY pR iR pC iC
    fuel (clock (2 * iteration + 2))
    {| ref_currentMap := m; ref_agentX := drunkAgentX d;
       ref_agentY := drunkAgentY d |}) as (ret & r' & Er & Hret & Hpos);
    [exact Hpm|exact Hp|lia|lia|exact Hf|].
  unfold ca_W, ca_H. rewrite Er. simpl. eexists. split; [reflexivity|].
  unfold driver_ok. simpl. split; [exact Hret|]. split; [exact Hpos|].
  split; [rewrite length_app; simpl; lia|].
  apply Forall_app. split; [exact Hall|]. constructor; [exact Hret|constructor].
Qed.

Lemma mainIteration_v2_returns fuel iteration n (d : @driver D G) :
  (20 < fuel)%nat -> driver_ok n d ->
  exists d', mainIteration_v2 clock fuel iteration d = Done d' /\
    driver_ok (n + 1) d'.
Proof.
  intros Hf ([Hs Hb] & Hp & Hlen & Hall). unfold mainIteration_v2.
  destruct (cellularAutomata_inplace_printable fuel (clock (2 * iteration + 1))
    (myMap d) Hs Hf) as (m & Em & Hpm).
  rewrite Em. simpl.
  destruct (drunkAgent_printable da_J da_I da_roomSizeX da_roomSizeY
    da_probGenerateRoom da_probIncreaseRoom
    da_probChangeDirection da_probIncreaseChange
    fuel (clock (2 * iteration + 2))
    {| ref_currentMap := m; ref_agentX := drunkAgentX d;
       ref_agentY := drunkAgentY d |}) as (ret & r' & Er & Hret & Hpos);
    [exact Hpm|exact Hp|unfold da_J; lia|unfold da_I; lia|exact Hf|].
  unfold da_W, da_H. rewrite Er. simpl. eexists. split; [reflexivity|].
  unfold driver_ok. simpl. split; [exact Hret|]. split; [exact Hpos|].
  split; [rewrite length_app; simpl; lia|].
  apply Forall_app. split; [exact Hall|]. constructor; [exact Hret|constructor].
Qed.

Lemma driver_loop_returns fuel
    (iter : nat -> Z -> @driver D G -> res (@driver D G)) (d : @driver D G) :
  (20 < fuel)%nat ->
  (forall iteration n d, driver_ok n d ->
     exists d', iter fuel iteration d = Done d' /\ driver_ok (n + 1) d') ->
  driver_ok 0 d ->
  exists d', for_loop fuel (fun iteration => iteration <? numIterations)
               (fun iteration d => iter fuel iteration d) 0 d = Done d' /\
    driver_ok numIterations d'.
Proof.
  intros Hf Hiter Hd.
  rewrite (for_loop_lt _ _ numIterations);
    [|auto|unfold numIterations, Int.max_int; lia|unfold Int.min_int; lia
     |unfold numIterations; simpl; lia].
  rewrite Z.sub_0_r.
  apply (foldM_seqZ (fun n d => driver_ok n d)); [unfold numIterations; lia| |exact Hd].
  intros i s _ Hs. apply Hiter. exact Hs.
Qed.

(** X10: both copies of [main] run to their end without indexing a vector out of
    its range, whatever the clock reads and the engines draw: the driver ends
    with the agent on a cell of the grid, and each of the six grids it has
    printed has 10 rows and 20 columns of zeros and ones. *)
Theorem main_returns fuel :
  (20 < fuel)%nat ->
  (exists d : @driver D G, main clock fuel = Done d /\
     in_bounds mapRows mapCols (drunkAgentX d, drunkAgentY d) /\
     Z.of_nat (length (printed d)) = 6 /\ Forall printable (printed d)) /\
  (exists d : @driver D G, main_v2 clock fuel = Done d /\
     in_bounds mapRows mapCols (drunkAgentX d, drunkAgentY d) /\
     Z.of_nat (length (printed d)) = 6 /\ Forall printable (printed d)).
Proof.
  intros Hf.
  destruct (mainInit_returns fuel Hf) as (d0 & E0 & Hp0 & Hpos0 & Hpr0 & _).
  assert (Hd0 : driver_ok 0 d0).
  { split; [exact Hp0|]. split.
    - rewrite Hpos0. unfold in_bounds, mapRows, mapCols. simpl. lia.
    - rewrite Hpr0. split; [reflexivity|]. constructor; [exact Hp0|constructor]. }
  split.
  - destruct (driver_loop_returns fuel (mainIteration clock) d0 Hf) as (d & E & Hd);
      [|exact Hd0|].
    + intros iteration n d Hd. apply mainIteration_returns; assumption.
    + exists d. unfold main, mainLoop. rewrite E0. simpl.
      split; [exact E|]. destruct Hd as (_ & Hpos & Hlen & Hall).
      unfold numIterations in Hlen. auto.
  - destruct (driver_loop_returns fuel (mainIteration_v2 clock) d0 Hf)
      as (d & E & Hd); [|exact Hd0|].
    + intros iteration n d Hd. apply mainIteration_v2_returns; assumption.
    + exists d. unfold main_v2. rewrite E0. simpl.
      split; [exact E|]. destruct Hd as (_ & Hpos & Hlen & Hall).
      unfold numIterations in Hlen. auto.
Qed.

End MainSafety.

Lemma main_returns_witness :
  (exists d, main (random := seeded) (fun k => k) 21 = Done d /\
     in_bounds mapRows mapCols (drunkAgentX d, drunkAgentY d) /\
     Z.of_nat (length (printed d)) = 6 /\ Forall printable (printed d)) /\
  (exists d, main_v2 (random := seeded) (fun k => k) 21 = Done d /\
     in_bounds mapRows mapCols (drunkAgentX d, drunkAgentY d) /\
     Z.of_nat (length (printed d)) = 6 /\ Forall printable (printed d)).
Proof. apply (main_returns (random := seeded) (fun k => k) 21). lia. Defined.

(** ** printMap *)

Module PrintFacts.

Import Ascii String Print.
Local Open Scope string_scope.

(** A reader of that text, to compare with: after the header it takes the
    cells two characters at a time, ends a row at a new line and the grid at
    the footer. *)
Fixpoint readRows (s : string) (row : list Z) (rows : Map) : option Map :=
  match s with
  | EmptyString => None
  | String c s' =>
      if Ascii.eqb c (ascii_of_nat 10) then readRows s' nil (rows ++ (row :: nil))%list
      else if Ascii.eqb c "-" then
        match row with
        | nil => if String.eqb s footer then Some rows else None
        | _ => None
        end
      else
        match s' with
        | String c' s'' =>
            if Ascii.eqb c' " " then
              if Ascii.eqb c "#" then readRows s'' (row ++ (1 :: nil))%list rows
              else if Ascii.eqb c " " then readRows s'' (row ++ (0 :: nil))%list rows
              else None
            else None
        | EmptyString => None
        end
  end.

Fixpoint dropPrefix (p s : string) : option string :=
  match p with
  | EmptyString => Some s
  | String c p' =>
      match s with
      | String c' s' => if Ascii.eqb c c' then dropPrefix p' s' else None
      | EmptyString => None
      end
  end.

Definition readMap (s : string) : option Map :=
  match dropPrefix header s with
  | Some rest => readRows rest nil nil
  | None => None
  end.

Lemma append_assoc (a b c : string) : (a ++ b) ++ c = a ++ (b ++ c).
Proof. induction a as [|x a IH]; simpl; [reflexivity|]. rewrite IH. reflexivity. Qed.

Lemma dropPrefix_append (p s : string) : dropPrefix p (p ++ s) = Some s.
Proof.
  induction p as [|c p IH]; simpl; [reflexivity|].
  rewrite Ascii.eqb_refl. exact IH.
Qed.

Lemma readRows_row (r : list Z) (rest : string) (row : list Z) (rows : Map) :
  readRows (printRow r ++ rest) row rows =
  readRows rest (row ++ normalise_row r)%list rows.
Proof.
  revert row. induction r as [|cell r IH]; intros row; simpl.
  - rewrite app_nil_r. reflexivity.
  - destruct (cell =? 1)%Z; simpl; rewrite IH, <- app_assoc; reflexivity.
Qed.

Lemma readRows_rows (m : Map) (rows : Map) :
  readRows (printRows m ++ footer) nil rows = Some (rows ++ normalise m)%list.
Proof.
  revert rows. induction m as [|r m IH]; intros rows.
  - simpl. rewrite app_nil_r. reflexivity.
  - simpl printRows. rewrite !append_assoc. rewrite readRows_row.
    simpl. rewrite IH. rewrite <- app_assoc. reflexivity.
Qed.

Lemma readMap_printMap (m : Map) : readMap (printMap m) = Some (normalise m).
Proof.
  unfold readMap, printMap. rewrite dropPrefix_append. apply readRows_rows.
Qed.

Lemma printRow_normalise (r : list Z) : printRow (normalise_row r) = printRow r.
Proof.
  induction r as [|cell r IH]; simpl; [reflexivity|].
  rewrite IH. destruct (cell =? 1)%Z; reflexivity.
Qed.

Lemma printMap_normalise (m : Map) : printMap (normalise m) = printMap m.
Proof.
  unfold printMap. f_equal. f_equal.
  induction m as [|r m IH]; [reflexivity|].
  change (normalise (r :: m)) with (normalise_row r :: normalise m)%list.
  simpl. rewrite printRow_normalise, IH. reflexivity.
Qed.

Lemma printMap_read (m1 m2 : Map) :
  printMap m1 = printMap m2 -> normalise m1 = normalise m2.
Proof.
  intros E.
  assert (E' : readMap (printMap m1) = readMap (printMap m2)) by (rewrite E; reflexivity).
  rewrite !readMap_printMap in E'. injection E' as E'. exact E'.
Qed.

(** X11: the text shows which cells hold 1 and nothing else: two grids are printed
    as the same text exactly when they have the same rows and the same cells
    equal to 1. *)
Theorem printMap_same_text (m1 m2 : Map) :
  printMap m1 = printMap m2 <-> normalise m1 = normalise m2.
Proof.
  split; intros E.
  - apply printMap_read. exact E.
  - rewrite <- (printMap_normalise m1), <- (printMap_normalise m2), E. reflexivity.
Qed.

End PrintFacts.

Module PrintValuesFacts.

Import Ascii String PrintValues.
Local Open Scope string_scope.

(** A text without a blank and without a new line. *)
Fixpoint solid (s : string) : bool :=
  match s with
  | EmptyString => true
  | String c s' =>
      negb (Ascii.eqb c " ") && negb (Ascii.eqb c (ascii_of_nat 10)) && solid s'
  end.

(** A text with a blank in it. *)
Fixpoint blank_in (s : string) : bool :=
  match s with
  | EmptyString => false
  | String c s' => Ascii.eqb c " " || blank_in s'
  end.

Lemma solid_digits d : solid (DecimalString.NilEmpty.string_of_uint d) = true.
Proof. induction d; simpl; auto. Qed.

Lemma decimal_solid z : solid (decimal z) = true.
Proof.
  unfold decimal, DecimalString.NilZero.string_of_int.
  destruct (Z.to_int z) as [d|d]; simpl;
    unfold DecimalString.NilZero.string_of_uint;
    destruct d; simpl; auto using solid_digits.
Qed.

Lemma decimal_nonempty z : decimal z <> EmptyString.
Proof.
  unfold decimal, DecimalString.NilZero.string_of_int.
  destruct (Z.to_int z) as [d|d]; simpl; [|discriminate].
  unfold DecimalString.NilZero.string_of_uint. destruct d; discriminate.
Qed.

Lemma decimal_inj z1 z2 : decimal z1 = decimal z2 -> z1 = z2.
Proof.
  unfold decimal. intros E.
  assert (Hok : forall z,
    DecimalString.NilZero.int_of_string
      (DecimalString.NilZero.string_of_int (Z.to_int z)) = Some (Z.to_int z)).
  { intros z. apply DecimalString.NilZero.isi.
    - destruct z as [|p|p]; simpl; try discriminate.
      intros [= Hp]. exact (DecimalPos.Unsigned.to_uint_nonnil p Hp).
    - destruct z as [|p|p]; simpl; try discriminate.
      intros [= Hp]. exact (DecimalPos.Unsigned.to_uint_nonnil p Hp). }
  apply DecimalZ.to_int_inj.
  pose proof (Hok z1) as H1. rewrite E, Hok in H1. injection H1 as H1.
  symmetry. exact H1.
Qed.

(** Two texts that start with a solid word and a blank are the same only if
    the words are the same, and the rests. *)
Lemma word_split (u v s t : string) :
  solid u = true -> solid v = true ->
  u ++ " " ++ s = v ++ " " ++ t -> u = v /\ s = t.
Proof.
  revert v. induction u as [|a u IH]; intros v Hu Hv E.
  - destruct v as [|b v].
    + simpl in E. injection E as E. auto.
    + simpl in E, Hv. injection E as <- E. discriminate.
  - destruct v as [|b v].
    + simpl in E, Hu. injection E as -> E. discriminate.
    + simpl in E, Hu, Hv. injection E as <- E.
      apply andb_prop in Hu as [_ Hu]. apply andb_prop in Hv as [_ Hv].
      destruct (IH v Hu Hv E) as [-> ->]. auto.
Qed.

Lemma blank_in_word (u s : string) : blank_in (u ++ String " " s) = true.
Proof.
  induction u as [|a u IH]; simpl; [reflexivity|].
  rewrite IH. apply orb_true_r.
Qed.

Lemma printRow_inj (r1 r2 : list Z) (s1 s2 : string) :
  printRow r1 ++ Print.endl ++ s1 = printRow r2 ++ Print.endl ++ s2 ->
  r1 = r2 /\ s1 = s2.
Proof.
  revert r2. induction r1 as [|c1 r1 IH]; intros r2 E.
  - destruct r2 as [|c2 r2].
    + simpl in E. injection E as E. auto.
    + exfalso. simpl in E. pose proof (decimal_solid c2) as Hs.
      pose proof (decimal_nonempty c2) as Hn.
      destruct (decimal c2) as [|a u]; [contradiction|].
      simpl in E, Hs. injection E as <- E. discriminate.
  - destruct r2 as [|c2 r2].
    + exfalso. simpl in E. pose proof (decimal_solid c1) as Hs.
      pose proof (decimal_nonempty c1) as Hn.
      destruct (decimal c1) as [|a u]; [contradiction|].
      simpl in E, Hs. injection E as -> E. discriminate.
    + simpl in E. rewrite !PrintFacts.append_assoc in E.
      apply word_split in E as [Ec E]; try apply decimal_solid.
      apply decimal_inj in Ec as ->.
      destruct (IH r2 E) as [-> ->]. auto.
Qed.

Lemma printRows_inj (m1 m2 : Map) :
  printRows m1 ++ Print.footer = printRows m2 ++ Print.footer -> m1 = m2.
Proof.
  assert (Hfoot : forall r m,
    Print.footer <> printRows (r :: m) ++ Print.footer).
  { intros r m E. simpl in E. rewrite !PrintFacts.append_assoc in E.
    destruct r as [|c r].
    - simpl in E. discriminate.
    - simpl in E. rewrite !PrintFacts.append_assoc in E.
      assert (Hb : blank_in Print.footer = true)
        by (rewrite E; apply blank_in_word).
      discriminate. }
  revert m2. induction m1 as [|r1 m1 IH]; intros m2 E.
  - destruct m2 as [|r2 m2]; [reflexivity|]. exfalso. eapply Hfoot, E.
  - destruct m2 as [|r2 m2]; [exfalso; eapply Hfoot; symmetry; exact E|].
    simpl in E. rewrite !PrintFacts.append_assoc in E.
    apply printRow_inj in E as [-> E]. f_equal. apply IH. exact E.
Qed.

(** X12: the second copy prints every grid as a text of its own: two grids that
    are printed as the same text are the same grid, whatever their cells
    hold. *)
Theorem printMap_injective (m1 m2 : Map) : printMap m1 = printMap m2 -> m1 = m2.
Proof.
  unfold printMap. intros E.
  assert (E' : PrintFacts.dropPrefix Print.header (Print.header ++ printRows m1 ++ Print.footer)
             = PrintFacts.dropPrefix Print.header (Print.header ++ printRows m2 ++ Print.footer))
    by (rewrite E; reflexivity).
  rewrite !PrintFacts.dropPrefix_append in E'. injection E' as E'.
  apply printRows_inj. exact E'.
Qed.

End PrintValuesFacts.

Lemma printMap_injective_witness :
  [[12; -3]; [0; 1]] = [[6 + 6; 0 - 3]; [0; 1]].
Proof.
  apply PrintValuesFacts.printMap_injective. vm_compute. reflexivity.
Defined.

Lemma normalise_binary (m : Map) : binary_grid m -> normalise m = m.
Proof.
  intros Hb. unfold normalise. rewrite <- (map_id m) at 2.
  apply map_ext_in. intros row Hrow.
  apply list_elem_of_In, list_elem_of_lookup in Hrow as [n Hn].
  unfold normalise_row. rewrite <- (map_id row) at 2.
  apply map_ext_in. intros c Hc.
  apply list_elem_of_In, list_elem_of_lookup in Hc as [k Hk].
  assert (Hg : get m (Z.of_nat n) (Z.of_nat k) = Done c).
  { apply get_Done. exists row. rewrite !Nat2Z.id. repeat split; auto; lia. }
  destruct (Hb _ _ _ Hg) as [-> | ->]; reflexivity.
Qed.

(** X13: on grids of zeros and ones, which is what [main] prints, the text of the
    first copy's [printMap] tells the grid: two such grids with the same text
    are the same grid. *)
Theorem printMap_tells_binary_grid (m1 m2 : Map) :
  binary_grid m1 -> binary_grid m2 ->
  Print.printMap m1 = Print.printMap m2 -> m1 = m2.
Proof.
  intros H1 H2 E. apply PrintFacts.printMap_read in E.
  rewrite !normalise_binary in E by assumption. exact E.
Qed.

Lemma dense_corner_binary : binary_grid dense_corner.
Proof.
  intros a b v Hv.
  destruct (get_bounds _ _ _ _ _ _ dense_corner_shape Hv) as [Ha Hb].
  assert (Ha' : a = 0 \/ a = 1 \/ a = 2) by lia.
  assert (Hb' : b = 0 \/ b = 1 \/ b = 2) by lia.
  destruct Ha' as [-> | [-> | ->]], Hb' as [-> | [-> | ->]];
    vm_compute in Hv; injection Hv as <-; auto.
Qed.

Lemma printMap_tells_binary_grid_witness :
  [[1; 1; 1]; [1; 1; 0]; [0; 0; 0]] = dense_corner.
Proof.
  apply printMap_tells_binary_grid.
  - exact dense_corner_binary.
  - exact dense_corner_binary.
  - reflexivity.
Defined.

Section DrunkAgentFrame.

Context {D G : Type} {double_ops : Double D} {random : RandomSource G D}.

Variables (W H J I roomSizeX roomSizeY : Z).
Variables (probGenerateRoom probIncreaseRoom : D).
Variables (probChangeDirection probIncreaseChange : D).

Local Abbreviation carve := (carveRoom W H roomSizeX roomSizeY).
Local Abbreviation step :=
  (agentStep W H roomSizeX roomSizeY probGenerateRoom probIncreaseRoom
     probChangeDirection probIncreaseChange).
Local Abbreviation run :=
  (drunkAgent_run W H J I roomSizeX roomSizeY probGenerateRoom probIncreaseRoom
     probChangeDirection probIncreaseChange).

(** A room changes no cell whose index it does not log. *)
Lemma carveRoom_frame fuel x0 y0 m w m' w' :
  carve fuel x0 y0 (m, w) = Done (m', w') ->
  (forall p, p ∈ w -> p ∈ w') /\
  (forall i j, (i, j) ∉ w' -> get m' i j = get m i j).
Proof.
  unfold carveRoom. intros E.
  apply (for_loop_inv (fun s : Map * list (Z * Z) =>
    (forall p, p ∈ w -> p ∈ snd s) /\
    (forall i j, (i, j) ∉ snd s -> get (fst s) i j = get m i j))) in E;
    [exact E| |simpl; auto].
  clear E. intros x s s' Hs E.
  apply (for_loop_inv (fun s : Map * list (Z * Z) =>
    (forall p, p ∈ w -> p ∈ snd s) /\
    (forall i j, (i, j) ∉ snd s -> get (fst s) i j = get m i j))) in E;
    [exact E| |exact Hs].
  clear. intros y [m1 w1] [m2 w2] [Hin Hout] E. bind_inv E.
  injection E as <- <-. simpl in *. split.
  - intros p Hp. apply elem_of_app. left. auto.
  - intros i j Hij. rewrite (get_set_ne _ _ _ _ _ _ _ E0).
    + apply Hout. intros Hw. apply Hij. apply elem_of_app. left. exact Hw.
    + intros Heq. apply Hij. apply elem_of_app. right. rewrite Heq.
      apply list_elem_of_singleton. reflexivity.
Qed.

(** A step changes no cell whose index it does not log as written. *)
Lemma agentStep_frame fuel dir (a : @agent D G) dir' a' :
  step fuel (dir, a) = Done (dir', a') ->
  exists e, log a' = log a ++ [e] /\
    forall i j, (i, j) ∉ written e -> get (newMap a') i j = get (newMap a) i j.
Proof.
  intros E. unfold agentStep in E.
  apply bind_Done in E as (m1 & Eset & E).
  destruct (distProb (gen a)) as [roll1 g1].
  apply bind_Done in E as ([[[m2 w] pr] fired] & Eroom & E).
  assert (Hframe : forall i j, (i, j) ∉ w -> get m2 i j = get (newMap a) i j).
  { destruct (dlt roll1 (currentProbRoom a)).
    - apply bind_Done in Eroom as ([m3 w3] & Ec & Eroom).
      injection Eroom as <- <- _ _.
      apply carveRoom_frame in Ec as [Hin Hout].
      intros i j Hij. rewrite Hout by exact Hij.
      apply (get_set_ne _ _ _ _ _ _ _ Eset).
      intros Heq. apply Hij. apply Hin. rewrite Heq.
      apply list_elem_of_singleton. reflexivity.
    - injection Eroom as <- <- _ _. intros i j Hij.
      apply (get_set_ne _ _ _ _ _ _ _ Eset).
      intros Heq. apply Hij. rewrite Heq.
      apply list_elem_of_singleton. reflexivity. }
  destruct (distProb g1) as [roll2 g2].
  destruct (dlt roll2 (currentProbChange a)).
  - destruct (distDirection g2) as [d g3].
    apply bind_Done in E as ([dx dy] & _ & E).
    destruct ((0 <=? Int.add (agentX a) dx) && (Int.add (agentX a) dx <? H) &&
              (0 <=? Int.add (agentY a) dy) && (Int.add (agentY a) dy <? W)).
    + injection E as <- <-. eexists. split; [reflexivity|exact Hframe].
    + destruct (distDirection g3) as [d' g4].
      injection E as <- <-. eexists. split; [reflexivity|exact Hframe].
  - apply bind_Done in E as ([dx dy] & _ & E).
    destruct ((0 <=? Int.add (agentX a) dx) && (Int.add (agentX a) dx <? H) &&
              (0 <=? Int.add (agentY a) dy) && (Int.add (agentY a) dy <? W)).
    + injection E as <- <-. eexists. split; [reflexivity|exact Hframe].
    + destruct (distDirection g2) as [d' g4].
      injection E as <- <-. eexists. split; [reflexivity|exact Hframe].
Qed.

(** X14: the pass touches nothing but what it logs: a cell whose index no step
    wrote holds, in the grid the run returns, what it held in the grid passed
    in. *)
Theorem drunkAgent_frame fuel seed m x y a :
  run fuel seed m x y = Done a ->
  forall i j, (forall e, e ∈ log a -> (i, j) ∉ written e) ->
    get (newMap a) i j = get m i j.
Proof.
  intros E i j.
  revert E.
  apply (drunkAgent_run_steps W H J I roomSizeX roomSizeY probGenerateRoom
    probIncreaseRoom probChangeDirection probIncreaseChange
    (fun a => (forall e, e ∈ log a -> (i, j) ∉ written e) ->
              get (newMap a) i j = get m i j)).
  - intros _. reflexivity.
  - intros b g Hb. exact Hb.
  - intros dir b dir' b' Hb Es Hlog.
    apply agentStep_frame in Es as (e & Hl & Hf). rewrite Hl in Hlog.
    rewrite Hf.
    + apply Hb. intros e0 He0. apply Hlog. apply elem_of_app. left. exact He0.
    + apply Hlog. apply elem_of_app. right. apply list_elem_of_singleton.
      reflexivity.
Qed.

(** A path of [n] steps ends within [n] cells of its start, rows and columns
    counted together. *)
Lemma trajectory_distance (p : Z * Z) (l : list (@step_log D)) :
  trajectory p l ->
  Z.abs (fst (final_pos p l) - fst p) + Z.abs (snd (final_pos p l) - snd p)
    <= Z.of_nat (length l).
Proof.
  revert p. induction l as [|e l IH]; intros p Hl.
  - unfold final_pos. simpl. lia.
  - destruct Hl as (Hat & Hmove & Hl).
    assert (Hfc : final_pos p (e :: l) = final_pos (to_pos e) l).
    { unfold final_pos. destruct l as [|e2 l']; [reflexivity|].
      rewrite last_cons_cons.
      destruct (list.last (e2 :: l')) eqn:El; [reflexivity|].
      apply last_None in El. discriminate. }
    rewrite Hfc. specialize (IH _ Hl).
    assert (Hstep : Z.abs (fst (to_pos e) - fst p) +
                    Z.abs (snd (to_pos e) - snd p) <= 1).
    { destruct (bounced e); [rewrite Hmove; lia|].
      unfold adjacent in Hmove. lia. }
    cbn [length]. lia.
Qed.

(** X15: from a cell of a grid of [H] rows and [W] columns the agent ends no more
    than [J * I] cells away from where it started, rows and columns counted
    together. *)
Theorem drunkAgent_stays_near fuel seed m x y :
  grid_shape m H W -> H <= Int.max_int -> W <= Int.max_int ->
  in_bounds H W (x, y) -> J <= Int.max_int -> I <= Int.max_int ->
  (Z.to_nat H < fuel)%nat -> (Z.to_nat W < fuel)%nat ->
  (Z.to_nat J < fuel)%nat -> (Z.to_nat I < fuel)%nat ->
  exists a, run fuel seed m x y = Done a /\
    Z.abs (agentX a - x) + Z.abs (agentY a - y) <= Z.max 0 J * Z.max 0 I.
Proof.
  intros Hs HH HW Hp HJ HI HfH HfW HfJ HfI.
  destruct (drunkAgent_run_returns W H J I roomSizeX roomSizeY probGenerateRoom
    probIncreaseRoom probChangeDirection probIncreaseChange fuel seed m x y
    Hs HH HW Hp HJ HI HfH HfW HfJ HfI) as (a & E & Hlen).
  exists a. split; [exact E|].
  assert (Ht : trajectory (x, y) (log a) /\
               final_pos (x, y) (log a) = (agentX a, agentY a)).
  { apply (drunkAgent_run_steps W H J I roomSizeX roomSizeY probGenerateRoom
      probIncreaseRoom probChangeDirection probIncreaseChange
      (fun a => in_bounds H W (agentX a, agentY a) /\
         trajectory (x, y) (log a) /\
         final_pos (x, y) (log a) = (agentX a, agentY a))) in E.
    - destruct E as (_ & Ht & Hf). auto.
    - simpl. split; [exact Hp|]. split; [exact Logic.I|reflexivity].
    - intros b g Hb. exact Hb.
    - intros dir b dir' b' (Hb & Ht & Hf) Es.
      apply (agentStep_move W H roomSizeX roomSizeY probGenerateRoom
        probIncreaseRoom probChangeDirection probIncreaseChange
        _ _ _ _ _ HH HW Hb) in Es as (e & Hlog & Hat & Hto & Hmove & Hb').
      split; [exact Hb'|]. rewrite Hlog. split.
      + apply trajectory_snoc; [exact Ht|congruence|exact Hmove].
      + unfold final_pos. rewrite last_snoc. exact Hto. }
  destruct Ht as [Ht Hf]. pose proof (trajectory_distance _ _ Ht) as Hd.
  rewrite Hf in Hd. simpl in Hd. lia.
Qed.

End DrunkAgentFrame.

Lemma drunkAgent_frame_witness :
  exists a,
    drunkAgent_run (random := no_draws) 4 4 1 1 3 3
      (of_int 1) (of_int 0) (of_int 0) (of_int 0) 10 0 zeros4 2 2 = Done a /\
    get (newMap a) 0 0 = get zeros4 0 0.
Proof.
  eexists. split; [vm_compute; reflexivity|].
  apply (drunkAgent_frame (random := no_draws) 4 4 1 1 3 3
    (of_int 1) (of_int 0) (of_int 0) (of_int 0) 10 0 zeros4 2 2).
  - vm_compute. reflexivity.
  - intros e He. apply list_elem_of_singleton in He. subst e. simpl.
    intros Hin. repeat (apply elem_of_cons in Hin as [Hin|Hin]; [discriminate|]).
    apply elem_of_nil in Hin. exact Hin.
Defined.

Lemma drunkAgent_stays_near_witness :
  exists a,
    drunkAgent_run (random := scripted [0; 50; 50; 10; 50; 2; 50; 50; 3; 50; 50])
      4 4 2 3 3 3 (literal 1 5) (literal 1 10) (literal 1 5) (literal 3 100)
      10 0 zeros4 2 2 = Done a /\
    Z.abs (agentX a - 2) + Z.abs (agentY a - 2) <= Z.max 0 2 * Z.max 0 3.
Proof.
  apply (drunkAgent_stays_near
    (random := scripted [0; 50; 50; 10; 50; 2; 50; 50; 3; 50; 50])
    4 4 2 3 3 3 (literal 1 5) (literal 1 10) (literal 1 5) (literal 3 100)
    10 0 zeros4 2 2).
  - exact zeros4_shape.
  - unfold Int.max_int. lia.
  - unfold Int.max_int. lia.
  - unfold in_bounds. simpl. lia.
  - unfold Int.max_int. lia.
  - unfold Int.max_int. lia.
  - simpl. lia.
  - simpl. lia.
  - simpl. lia.
  - simpl. lia.
Defined.
